(** * Scheduling core of the job scheduler service

    A shallow embedding of the scheduling core (timer registry, executor,
    discovery loop, coordinator) and of the store operations it consumes.

    Source files embedded here:
    - [src/database/job-model.js] and its corrected revision (the schema
    with its validators and the instance methods [markCompleted] /
    [markFailed] / [completeAndStop]);
    - the job repository and [src/database/job-service.js];
    - the job validator ([calculateNextRunTime], [validateCronSchedule]);
    - [src/scheduler/job-executor.js] ([execute], and the earlier
    [executeJob]);
    - [src/scheduler/scheduler-manager.js] (both revisions);
    - [src/scheduler/job-discovery.js];
    - [src/api/controllers/jobController.js] ([getJob] and [createJob] of
    the later revision) with [JobValidator.validateJobData];
    - the in-memory Redis client of [src/core/logger.js].

    JavaScript effects are written as a state-and-exception monad over a
    [World] record: the MongoDB collection, the wall clock, the node-cron
    tasks created so far, the fields of [SchedulerManager] and
    [JobDiscovery], and the logger output.  An [await] on I/O lets the
    clock advance.  The two npm libraries (cron-parser, node-cron) and the
    outcome of the simulated job handlers are interfaces of the
    environment.

    Modelling choices: the collection is always reachable, so a store
    operation fails only with 'Job not found' or with an error of
    [save()] (the schema refuses the document, or its record is gone);
    [console.log] output is left out, the calls of [logger] are kept; the
    registry, a JavaScript [Map], is a [gmap], which iterates in key
    order and not in insertion order (no statement below depends on the
    order); executions are sequential, one callback runs to completion
    before the next event. *)

From Stdlib Require Import ZArith Lia String Ascii List Bool.
From stdpp Require Import gmap strings list fin_maps.

Local Open Scope Z_scope.

(* ===================================================================== *)
(** ** Data model *)
(* ===================================================================== *)

(** [status] enum of the schema. *)
Inductive Status := active | paused | completed | failed.

#[export] Instance Status_eq_dec : EqDecision Status.
Proof. solve_decision. Defined.

(** The schema fields of a job document.  [data] and [createdAt] carry
    no validator and are never read by the scheduling core; they are left
    out.  A string path that is missing from a document reads as the
    empty string, which [required] refuses all the same. *)
Record JobDoc := mkJobDoc {
    name : string;
    description : string;
    cronSchedule : string;
    type : string;
    status : Status;
    lastRun : option Z;
    nextRun : option Z;
    updatedAt : Z
  }.

(** A document in memory: its [_id] and its fields. *)
Record Job := mkJob { _id : string; fields :> JobDoc }.

(** A JavaScript [Error], identified by its message. *)
Definition Error := string.

Inductive Result (A : Type) :=
  | Ok (a : A)
  | Throw (e : Error).
  Arguments Ok {A} a.
Arguments Throw {A} e.

(** A task object returned by [cron.schedule]: the job captured by the
    callback closure, the expression, and whether [stop()] was called. *)
Record ScheduledTask := mkTask {
    task_job : Job;
    task_expression : string;
    task_running : bool
  }.

Inductive LogLevel := INFO | WARN | ERROR | DEBUG.

(** The call sites of [logger.*] in the scheduling core.  The two
    revisions of a file word a message differently; an entry records which
    call was made, not its text. *)
Inductive LogEvent :=
  | SkipSchedulingShutdown (jobId : string)
  | JobNotActive (jobId : string)
  | JobScheduled (jobId : string) (nextRunTime : Z)
  | FailedToSchedule (jobId : string) (message : Error)
  | JobUnscheduled (jobId : string)
  | SkipExecutionShutdown (jobId : string)
  | StoppingScheduler
  | StoppedJob (jobId : string)
  | SchedulerStopped
  | ShutdownInitiated
  | ShutdownCompleted
  | StartingScheduler
  | FoundActiveJobs (count : nat)
  | SchedulerStarted
  | FailedToStart (message : Error)
  | DiscoveryAlreadyRunning
  | DiscoveryStarted
  | DiscoveryStopped
  | DiscoveryCompleted (newJobs unscheduledJobs : nat)
  | DiscoveryError (message : Error)
  | HandlerLog (handler : string) (jobId : string)
  | JobExecuted (jobId : string) (lastRunAt nextRunAt : Z)
  | JobExecutionFailed (jobId : string) (message : Error)
  | ExecutingJob (jobId : string) (nextRunAt : Z)
  | JobCompleted (jobId : string)
  | NextRunFailed (cron : string) (message : Error)
  | RepositoryLog (operation : string) (jobId : string)
  | RepositoryError (operation : string) (jobId : string) (message : Error)
  | ServiceError (operation : string) (jobId : string).

(** The mutable state the core reads and writes. *)
Record World := mkWorld {
    clock : Z;                          (* what [new Date()] returns *)
    store : gmap string JobDoc;         (* the jobs collection, by [_id] *)
    cronTasks : list ScheduledTask;     (* node-cron tasks, by creation order *)
    scheduledTasks : gmap string nat;   (* SchedulerManager.scheduledTasks *)
    isShuttingDown : bool;              (* SchedulerManager.isShuttingDown *)
    isRunning : bool;                   (* JobDiscovery.isRunning *)
    intervalId : option nat;            (* JobDiscovery.intervalId *)
    intervalSeq : nat;                  (* handles issued by setInterval *)
    logs : list (LogLevel * LogEvent)
  }.

Definition set_clock (t : Z) (w : World) : World :=
  mkWorld t (store w) (cronTasks w) (scheduledTasks w) (isShuttingDown w)
          (isRunning w) (intervalId w) (intervalSeq w) (logs w).
Definition set_store (s : gmap string JobDoc) (w : World) : World :=
  mkWorld (clock w) s (cronTasks w) (scheduledTasks w) (isShuttingDown w)
          (isRunning w) (intervalId w) (intervalSeq w) (logs w).
Definition set_cronTasks (l : list ScheduledTask) (w : World) : World :=
  mkWorld (clock w) (store w) l (scheduledTasks w) (isShuttingDown w)
          (isRunning w) (intervalId w) (intervalSeq w) (logs w).
Definition set_scheduledTasks (m : gmap string nat) (w : World) : World :=
  mkWorld (clock w) (store w) (cronTasks w) m (isShuttingDown w)
          (isRunning w) (intervalId w) (intervalSeq w) (logs w).
Definition set_isShuttingDown (b : bool) (w : World) : World :=
  mkWorld (clock w) (store w) (cronTasks w) (scheduledTasks w) b
          (isRunning w) (intervalId w) (intervalSeq w) (logs w).
Definition set_discovery (r : bool) (i : option nat) (n : nat) (w : World) : World :=
  mkWorld (clock w) (store w) (cronTasks w) (scheduledTasks w) (isShuttingDown w)
          r i n (logs w).
Definition add_log (e : LogLevel * LogEvent) (w : World) : World :=
  mkWorld (clock w) (store w) (cronTasks w) (scheduledTasks w) (isShuttingDown w)
          (isRunning w) (intervalId w) (intervalSeq w) (logs w ++ [e]).

(** The state of a freshly constructed [SchedulerManager] over a store. *)
Definition initialWorld (now : Z) (s : gmap string JobDoc) : World :=
  mkWorld now s [] ∅ false false None 0%nat [].

(* ===================================================================== *)
(** ** Effects: state and exceptions *)
(* ===================================================================== *)

Definition M (A : Type) : Type := World → Result A * World.

#[export] Instance M_ret : MRet M := λ A a w, (Ok a, w).
#[export] Instance M_bind : MBind M := λ A B f m w,
  match m w with
  | (Ok a, w') => f a w'
  | (Throw e, w') => (Throw e, w')
  end.
#[export] Instance M_throw : MThrow Error M := λ A e w, (Throw e, w).

(** [try { body } catch (error) { handler }] *)
Definition try_catch {A} (body : M A) (handler : Error → M A) : M A :=
  λ w, match body w with
       | (Ok a, w') => (Ok a, w')
       | (Throw e, w') => handler e w'
       end.

Definition gets {A} (f : World → A) : M A := λ w, (Ok (f w), w).
Definition modify (f : World → World) : M unit := λ w, (Ok tt, f w).

(** A library call that returns or throws. *)
Definition liftE {A} (r : Error + A) : M A :=
  match r with inl e => mthrow e | inr a => mret a end.

(** [array.forEach(f)] *)
Fixpoint forEach {A} (l : list A) (f : A → M unit) : M unit :=
  match l with
  | [] => mret tt
  | x :: l' => f x;; forEach l' f
  end.

(** [new Date()] *)
Definition newDate : M Z := gets clock.

Definition logger (lvl : LogLevel) (e : LogEvent) : M unit :=
  modify (add_log (lvl, e)).

(** [await new Promise(resolve => setTimeout(resolve, ms))] *)
Definition sleep (ms : Z) : M unit :=
  modify (λ w, set_clock (clock w + ms) w).

(* ===================================================================== *)
(** ** Interfaces of the environment *)
(* ===================================================================== *)

(** The options object given to [cronParser.parseExpression]. *)
Record ParserOptions := mkOptions {
    currentDate : option Z;
    seconds : option bool
  }.
Definition noOptions : ParserOptions := mkOptions None None.

(** npm package cron-parser.  [parseExpression s options now] is called at
    wall-clock time [now] (the default for [currentDate]); it throws or
    returns an interval object, whose first [next()] throws or returns an
    instant. *)
Class CronParser := {
    CronExpression : Type;
    parseExpression : string → ParserOptions → Z → Error + CronExpression;
    next : CronExpression → Error + Z
  }.

(** npm package node-cron: [cron.schedule] throws on a pattern it rejects. *)
Class NodeCron := {
    validate : string → bool
  }.

(** What the process cannot decide by itself: the latency of one database
    round trip, the outcome of the work a handler stands for (the shipped
    bodies only log and wait), and the draw of [Math.random] behind
    [simulateDelay]. *)
Class Environment := {
    ioLatency : Z;
    handlerFault : string → Job → option Error;
    randomDelay : Z → Z → Z
  }.

(** The repository holds two revisions of the job model and of the
    scheduler manager; a deployment runs one of each. *)
Inductive Revision := Original | Corrected.

Class Deployment := {
    jobModelRevision : Revision;
    schedulerManagerRevision : Revision
  }.

(** A JavaScript value, as far as the request payloads need it.  A string
    is a sequence of code units below 256; an object is the list of its
    properties, the first binding of a key being the property's value. *)
#[warnings="-register-all"] Inductive JsValue :=
  | JsUndefined
  | JsNull
  | JsBoolean (b : bool)
  | JsNumber (n : Z)
  | JsString (s : string)
  | JsDate (ms : Z)
  | JsObject (properties : list (string * JsValue)).

(** [!!v] *)
Definition truthy (v : JsValue) : bool :=
  match v with
  | JsUndefined | JsNull => false
  | JsBoolean b => b
  | JsNumber n => negb (n =? 0)
  | JsString s => negb (String.eqb s "")
  | JsDate _ | JsObject _ => true
  end.

(** [typeof v === 'string'] *)
Definition isString (v : JsValue) : bool :=
  match v with JsString _ => true | _ => false end.

(** The characters of a string value. *)
Definition stringOf (v : JsValue) : string :=
  match v with JsString s => s | _ => "" end.

(** [v.key], for a [v] that is neither [null] nor [undefined]. *)
Definition prop (v : JsValue) (key : string) : JsValue :=
  match v with
  | JsObject properties =>
      match find (λ p : string * JsValue, String.eqb p.1 key) properties with
      | Some p => p.2
      | None => JsUndefined
      end
  | _ => JsUndefined
  end.

(** [v.key = x] in strict mode: a [TypeError] on anything but an object. *)
Definition setProp (v : JsValue) (key : string) (x : JsValue) : Error + JsValue :=
  match v with
  | JsObject properties => inr (JsObject ((key, x) :: properties))
  | _ => inl "TypeError: Cannot create property"
  end.

(** White space and line terminators of ECMAScript among the code units
    below 256: TAB, LF, VT, FF, CR, SP and NBSP. *)
Definition isWhiteSpace (c : ascii) : bool :=
  let n := nat_of_ascii c in
  ((9 <=? n) && (n <=? 13) || (n =? 32) || (n =? 160))%nat.

Fixpoint trimStart (s : string) : string :=
  match s with
  | EmptyString => EmptyString
  | String c s' => if isWhiteSpace c then trimStart s' else s
  end.

(** [s.trim()] *)
Definition trim (s : string) : string :=
  String.rev (trimStart (String.rev (trimStart s))).

(** npm package mongoose, for [new Job(jobData)] followed by the
    validation that [save()] runs first: the document built from a
    payload (casts, schema defaults and a fresh [_id]) when the schema
    accepts it, or the validation error. *)
Class Mongoose := {
    newJob : JsValue → World → Error + Job
  }.

(** [s.split(sep)] for a one-character separator. *)
Fixpoint split (sep : ascii) (s : string) : list string :=
  match s with
  | EmptyString => [EmptyString]
  | String c s' =>
      if Ascii.eqb c sep then EmptyString :: split sep s'
      else match split sep s' with
           | x :: xs => String c x :: xs
           | [] => [String c EmptyString]
           end
  end.

(** [s.split(/\s+/)]: the pieces between the runs of white space;
    [inRun] says that the character before was white space. *)
Fixpoint splitRuns (inRun : bool) (s : string) : list string :=
  match s with
  | EmptyString => [EmptyString]
  | String c s' =>
      if isWhiteSpace c then
        if inRun then splitRuns true s' else EmptyString :: splitRuns true s'
      else match splitRuns false s' with
           | x :: xs => String c x :: xs
           | [] => [String c EmptyString]
           end
  end.

Definition splitWhiteSpace (s : string) : list string := splitRuns false s.

(** [s] between double quotes. *)
Definition quoted (s : string) : string :=
  String (ascii_of_nat 34) s +:+ String (ascii_of_nat 34) "".

(* ===================================================================== *)
(** ** The job model (mongoose) *)
(* ===================================================================== *)

Definition with_status (s : Status) (d : JobDoc) : JobDoc :=
  mkJobDoc (name d) (description d) (cronSchedule d) (type d) s (lastRun d)
           (nextRun d) (updatedAt d).
Definition with_lastRun (t : option Z) (d : JobDoc) : JobDoc :=
  mkJobDoc (name d) (description d) (cronSchedule d) (type d) (status d) t
           (nextRun d) (updatedAt d).
Definition with_nextRun (t : option Z) (d : JobDoc) : JobDoc :=
  mkJobDoc (name d) (description d) (cronSchedule d) (type d) (status d)
           (lastRun d) t (updatedAt d).
Definition with_updatedAt (t : Z) (d : JobDoc) : JobDoc :=
  mkJobDoc (name d) (description d) (cronSchedule d) (type d) (status d)
           (lastRun d) (nextRun d) t.

Module JobModel.
Section WithEnv.
Context `{Environment} `{Deployment}.

(** One database round trip. *)
Definition awaitIO : M unit := sleep ioLatency.

(** [Job.findById(id)] *)
Definition findById (id : string) : M (option Job) :=
  awaitIO;;
  gets (λ w, mkJob id <$> store w !! id).

(** *** The validators of [jobSchema]

    Mongoose runs the validators of a path in order, [required] first,
    and reports the first one that fails, with the message of its
    template. *)

(** [required: true] on a string path: refused when missing or empty. *)
Definition required (path v : string) : option Error :=
  if String.eqb v "" then Some ("Path `" +:+ path +:+ "` is required.")
  else None.

(** [maxlength: n]; [shown] is [n] as the message prints it. *)
Definition maxlength (path : string) (n : nat) (shown v : string) : option Error :=
  if (String.length v <=? n)%nat then None
  else Some ("Path `" +:+ path +:+ "` (`" +:+ v
             +:+ "`) is longer than the maximum allowed length (" +:+ shown +:+ ").").

(** The [enum] of the [type] path: the corrected revision adds
    ['reminder']. *)
Definition typeEnum : list string :=
  match jobModelRevision with
  | Original => ["email"; "data-processing"; "report"; "notification"]
  | Corrected => ["email"; "data-processing"; "report"; "notification"; "reminder"]
  end.

Definition enum (path : string) (values : list string) (v : string) : option Error :=
  if existsb (String.eqb v) values then None
  else Some ("`" +:+ v +:+ "` is not a valid enum value for path `" +:+ path +:+ "`.").

(** The [validator] of [cronSchedule], which only the original revision
    declares: [v.trim().split(/\s+/).length === 5]. *)
Definition fiveFields (v : string) : bool :=
  (length (splitWhiteSpace (trim v)) =? 5)%nat.

Definition cronScheduleValidator (v : string) : option Error :=
  match jobModelRevision with
  | Original =>
      if fiveFields v then None
      else Some "Invalid cron schedule format (use 5 fields: minute hour day month weekday)"
  | Corrected => None
  end.

(** The paths that declare validators, in schema order, each with its
    validators.  [status] is an [enum] path too; the type [Status] holds
    its four values only. *)
Definition validators (this : JobDoc) : list (string * list (option Error)) :=
  [ ("name", [required "name" (name this);
              maxlength "name" 255 "255" (name this)]);
    ("description", [required "description" (description this);
                     maxlength "description" 500 "500" (description this)]);
    ("cronSchedule", [required "cronSchedule" (cronSchedule this);
                      cronScheduleValidator (cronSchedule this)]);
    ("type", [required "type" (type this);
              enum "type" typeEnum (type this)]) ].

(** The failing paths, each with the message of its first failure. *)
Definition validationErrors (this : JobDoc) : list (string * Error) :=
  omap (λ p : string * list (option Error),
          (λ e, (p.1, e)) <$> head (omap id p.2))
       (validators this).

(** [this.validate()]: a [ValidationError] that lists the failing paths,
    or nothing. *)
Definition validate (this : JobDoc) : Error + unit :=
  match validationErrors this with
  | [] => inr tt
  | errors =>
      inl ("Job validation failed: "
           +:+ String.concat ", " ((λ p, p.1 +:+ ": " +:+ p.2) <$> errors))
  end.

(** [this.save()].  A document built by [new Job(...)] ([isNew]) is
    inserted; its validation is taken with its construction (see
    [Mongoose]).  A document loaded from the collection is validated
    against the schema, on every path it was loaded with, and refused
    with a [ValidationError] before anything is written; then the
    [pre('save')] hook stamps [updatedAt] and the record of its [_id] is
    updated, a [DocumentNotFoundError] being thrown when the collection
    holds no such record any more.  Mongoose sends the modified paths
    only; the repository saves a document as [findById] has just loaded
    it, no other write coming in between, so that the updated record is
    the document in memory. *)
Definition save (isNew : bool) (this : Job) : M Job :=
  (if isNew then mret tt else liftE (validate this));;
  now ← newDate;
  let this := mkJob (_id this) (with_updatedAt now this) in
  let write : M Job :=
    modify (λ w, set_store (<[_id this := fields this]> (store w)) w);;
    awaitIO;;
    mret this in
  stored ← gets (λ w, store w !! _id this);
  match stored with
  | Some _ => write
  | None =>
      if isNew then write
      else
        awaitIO;;
        mthrow ("No document found for query "
                +:+ quoted ("{ _id: new ObjectId('" +:+ _id this +:+ "') }")
                +:+ " on model " +:+ quoted "Job")
  end.

(** [Job.findByIdAndUpdate(id, update, { new: true })] *)
Definition findByIdAndUpdate (id : string) (update : JobDoc → JobDoc)
  : M (option Job) :=
  awaitIO;;
  found ← gets (λ w, store w !! id);
  match found with
  | Some d =>
      modify (λ w, set_store (<[id := update d]> (store w)) w);;
      mret (Some (mkJob id (update d)))
  | None => mret None
  end.

(** [jobSchema.statics.findActiveJobs]: [this.find({ status: 'active' })] *)
Definition findActiveJobs : M (list Job) :=
  awaitIO;;
  gets (λ w, filter (λ j : Job, status j = active)
                    ((λ p, mkJob p.1 p.2) <$> map_to_list (store w))).

(** [jobSchema.methods.markCompleted] (the same in both revisions) *)
Definition markCompleted (this : Job) : M Job :=
  now ← newDate;
  save false (mkJob (_id this) (with_lastRun (Some now) (with_status active this))).

(** [jobSchema.methods.markFailed].  The original revision keeps the job
    [active]; the corrected revision records [failed]. *)
Definition markFailed (this : Job) : M Job :=
  let s := match jobModelRevision with Original => active | Corrected => failed end in
  now ← newDate;
  save false (mkJob (_id this) (with_lastRun (Some now) (with_status s this))).

(** [jobSchema.methods.completeAndStop] (original revision) *)
Definition completeAndStop (this : Job) : M Job :=
  now ← newDate;
  save false
    (mkJob (_id this) (with_lastRun (Some now) (with_status completed this))).

(** [Job.findByIdAndDelete(id)] *)
Definition findByIdAndDelete (id : string) : M (option Job) :=
  awaitIO;;
  found ← gets (λ w, store w !! id);
  match found with
  | Some d =>
      modify (λ w, set_store (delete id (store w)) w);;
      mret (Some (mkJob id d))
  | None => mret None
  end.
End WithEnv.
End JobModel.

Arguments JobModel.validate : simpl never.

(* ===================================================================== *)
(** ** JobRepository and JobService *)
(* ===================================================================== *)

Module JobRepository.
Section WithEnv.
Context `{Environment} `{Deployment}.

Definition findActiveJobs : M (list Job) :=
  try_catch
    (jobs ← JobModel.findActiveJobs;
     logger DEBUG (RepositoryLog "findActiveJobs" "");;
     mret jobs)
    (λ error,
       logger ERROR (RepositoryError "findActiveJobs" "" error);;
       mthrow error).

Definition markCompleted (id : string) : M Job :=
  try_catch
    (job ← JobModel.findById id;
     match job with
     | None => mthrow "Job not found"
     | Some job =>
         job ← JobModel.markCompleted job;
         logger INFO (RepositoryLog "markCompleted" id);;
         mret job
     end)
    (λ error,
       logger ERROR (RepositoryError "markCompleted" id error);;
       mthrow error).

Definition markFailed (id : string) : M Job :=
  try_catch
    (job ← JobModel.findById id;
     match job with
     | None => mthrow "Job not found"
     | Some job =>
         job ← JobModel.markFailed job;
         logger INFO (RepositoryLog "markFailed" id);;
         mret job
     end)
    (λ error,
       logger ERROR (RepositoryError "markFailed" id error);;
       mthrow error).

Definition updateNextRun (id : string) (nextRun : Z) : M Job :=
  try_catch
    (now ← newDate;
     job ← JobModel.findByIdAndUpdate id
             (λ d, with_updatedAt now (with_nextRun (Some nextRun) d));
     match job with
     | None => mthrow "Job not found"
     | Some job => mret job
     end)
    (λ error,
       logger ERROR (RepositoryError "updateNextRun" id error);;
       mthrow error).

Definition findById (id : string) : M Job :=
  try_catch
    (job ← JobModel.findById id;
     match job with
     | None => mthrow "Job not found"
     | Some job => mret job
     end)
    (λ error,
       logger ERROR (RepositoryError "findById" id error);;
       mthrow error).

Definition create `{Mongoose} (jobData : JsValue) : M Job :=
  try_catch
    (w ← gets (λ w, w);
     job ← liftE (newJob jobData w);
     savedJob ← JobModel.save true job;
     logger INFO (RepositoryLog "create" (_id savedJob));;
     mret savedJob)
    (λ error,
       logger ERROR (RepositoryError "create" "" error);;
       mthrow error).

(** [delete(id)] of the earlier repository revision *)
Definition delete (id : string) : M Job :=
  try_catch
    (job ← JobModel.findByIdAndDelete id;
     match job with
     | None => mthrow "Job not found"
     | Some job =>
         logger INFO (RepositoryLog "delete" id);;
         mret job
     end)
    (λ error,
       logger ERROR (RepositoryError "delete" id error);;
       mthrow error).
End WithEnv.
End JobRepository.

Module JobService.
Section WithEnv.
Context `{Environment} `{Deployment}.

Definition getActiveJobs : M (list Job) :=
  try_catch JobRepository.findActiveJobs
    (λ err, logger ERROR (ServiceError "getActiveJobs" "");; mthrow err).

Definition markJobCompleted (id : string) : M Job :=
  try_catch (JobRepository.markCompleted id)
    (λ err, logger ERROR (ServiceError "markJobCompleted" id);; mthrow err).

Definition markJobFailed (id : string) : M Job :=
  try_catch (JobRepository.markFailed id)
    (λ err, logger ERROR (ServiceError "markJobFailed" id);; mthrow err).

Definition updateNextRun (id : string) (nextRun : Z) : M Job :=
  try_catch (JobRepository.updateNextRun id nextRun)
    (λ err, logger ERROR (ServiceError "updateNextRun" id);; mthrow err).

Definition getById (id : string) : M Job :=
  try_catch (JobRepository.findById id)
    (λ err, logger ERROR (ServiceError "getById" id);; mthrow err).

Definition create `{Mongoose} (data : JsValue) : M Job :=
  try_catch (JobRepository.create data)
    (λ err, logger ERROR (ServiceError "create" "");; mthrow err).
End WithEnv.
End JobService.

(* ===================================================================== *)
(** ** JobValidator *)
(* ===================================================================== *)

Module JobValidator.
Section WithEnv.
Context `{CronParser}.

(** [seconds: cronSchedule.split(' ').length === 6] *)
Definition hasSixFields (cronSchedule : string) : bool :=
  (length (split " "%char cronSchedule) =? 6)%nat.

Definition validateCronSchedule (cronSchedule : string) : M unit :=
  if String.eqb cronSchedule "" then
    mthrow "Cron schedule must be a non-empty string."
  else
    try_catch
      (now ← newDate;
       let options := mkOptions (Some now) (Some (hasSixFields cronSchedule)) in
       liftE (parseExpression cronSchedule options now);;
       mret tt)
      (λ error, mthrow ("Invalid cron schedule format. Error: " +:+ error)).

Definition calculateNextRunTime (cronSchedule : string) : M Z :=
  try_catch
    (now ← newDate;
     let options := mkOptions (Some now) (Some (hasSixFields cronSchedule)) in
     interval ← liftE (parseExpression cronSchedule options now);
     liftE (next interval))
    (λ error,
       logger ERROR (NextRunFailed cronSchedule error);;
       mthrow ("Failed to calculate next run time. Error: " +:+ error)).
End WithEnv.
End JobValidator.

(* ===================================================================== *)
(** ** JobExecutor *)
(* ===================================================================== *)

Module JobExecutor.
Section WithEnv.
Context `{CronParser} `{Environment} `{Deployment}.

(** The body of a simulated handler after its log line: the work it
    stands for fails with the environment's fault, or takes [ms]. *)
Definition simulateWork (handler : string) (job : Job) (ms : Z) : M unit :=
  match handlerFault handler job with
  | Some e => mthrow e
  | None => sleep ms
  end.

Definition sendEmail (job : Job) : M unit :=
  logger INFO (HandlerLog "sendEmail" (_id job));;
  simulateWork "sendEmail" job 100.

Definition sendReminder (job : Job) : M unit :=
  logger INFO (HandlerLog "sendReminder" (_id job));;
  simulateWork "sendReminder" job 50.

Definition performGenericTask (job : Job) : M unit :=
  logger INFO (HandlerLog "performGenericTask" (_id job));;
  simulateWork "performGenericTask" job 50.

(** The handler [execute] selects by [job.type]. *)
Definition handlerOf (job : Job) : string :=
  if String.eqb (type job) "email" then "sendEmail"
  else if String.eqb (type job) "reminder" then "sendReminder"
  else "performGenericTask".

(** [JobExecutor.execute] *)
Definition execute (job : Job) : M unit :=
  try_catch
    ((if String.eqb (type job) "email" then sendEmail job
      else if String.eqb (type job) "reminder" then sendReminder job
      else performGenericTask job);;
     lastRun ← newDate;
     nextRun ← JobValidator.calculateNextRunTime (cronSchedule job);
     JobService.markJobCompleted (_id job);;
     JobService.updateNextRun (_id job) nextRun;;
     logger INFO (JobExecuted (_id job) lastRun nextRun))
    (λ error,
       logger ERROR (JobExecutionFailed (_id job) error);;
       JobService.markJobFailed (_id job);;
       mret tt).

(** *** The earlier executor *)

Definition calculateNextRunTime (cronSchedule : string) : M Z :=
  try_catch
    (now ← newDate;
     interval ← liftE (parseExpression cronSchedule noOptions now);
     liftE (next interval))
    (λ error,
       logger ERROR (NextRunFailed cronSchedule error);;
       mthrow ("Invalid cron schedule: " +:+ error)).

Definition simulateDelay (minMs maxMs : Z) : M unit :=
  sleep (randomDelay minMs maxMs).

(** One branch of [executeJobLogic]: reading [data.*] for the log line
    throws when the payload is missing (the environment's fault), then
    the delay. *)
Definition simulatedBranch (kind : string) (job : Job) (minMs maxMs : Z)
  : M unit :=
  match handlerFault kind job with
  | Some e => mthrow e
  | None =>
      logger INFO (HandlerLog kind (_id job));;
      simulateDelay minMs maxMs
  end.

Definition executeJobLogic (job : Job) : M unit :=
  if String.eqb (type job) "email" then simulatedBranch "email" job 1000 2000
  else if String.eqb (type job) "data-processing" then
    simulatedBranch "data-processing" job 2000 5000
  else if String.eqb (type job) "report" then simulatedBranch "report" job 3000 6000
  else if String.eqb (type job) "notification" then
    simulatedBranch "notification" job 500 1500
  else logger WARN (HandlerLog "unknown" (_id job)).

Definition executeJob (job : Job) (instanceId : string) : M unit :=
  try_catch
    (startTime ← newDate;
     nextRunTime ← calculateNextRunTime (cronSchedule job);
     logger INFO (ExecutingJob (_id job) nextRunTime);;
     executeJobLogic job;;
     JobService.markJobCompleted (_id job);;
     JobService.updateNextRun (_id job) nextRunTime;;
     endTime ← newDate;
     logger INFO (JobCompleted (_id job)))
    (λ error,
       logger ERROR (JobExecutionFailed (_id job) error);;
       JobService.markJobFailed (_id job);;
       mret tt).
End WithEnv.
End JobExecutor.

(* ===================================================================== *)
(** ** JobDiscovery *)
(* ===================================================================== *)

(** The part of [SchedulerManager] that [JobDiscovery] receives through
    its constructor. *)
Record ManagerInterface := mkManager {
    sm_scheduleJob : Job → M unit;
    sm_unscheduleJob : string → M unit;
    sm_getScheduledJobIds : M (list string);
    sm_getScheduledJobCount : M nat
  }.

Module JobDiscovery.
Section WithManager.
Context `{Environment} `{Deployment}.
Variable schedulerManager : ManagerInterface.

(** [start()]: [setInterval] issues a fresh handle. *)
Definition start : M unit :=
  running ← gets isRunning;
  if running : bool then logger WARN DiscoveryAlreadyRunning
  else
    modify (λ w, set_discovery true (Some (intervalSeq w)) (S (intervalSeq w)) w);;
    logger INFO DiscoveryStarted.

(** [stop()]: [clearInterval] when a handle is held, then both fields
    are reset. *)
Definition stop : M unit :=
  modify (λ w, set_discovery false None (intervalSeq w) w);;
  logger INFO DiscoveryStopped.

Definition discoverAndScheduleJobs : M unit :=
  activeJobs ← JobService.getActiveJobs;
  scheduled ← sm_getScheduledJobIds schedulerManager;
  let currentJobIds : gset string := list_to_set scheduled in
  let activeJobIds : gset string := list_to_set (_id <$> activeJobs) in
  let newJobs := filter (λ job : Job, _id job ∉ currentJobIds) activeJobs in
  (if (0 <? length newJobs)%nat
   then forEach newJobs (λ job, sm_scheduleJob schedulerManager job)
   else mret tt);;
  let jobsToUnschedule :=
    filter (λ jobId, jobId ∉ activeJobIds) (elements currentJobIds) in
  (if (0 <? length jobsToUnschedule)%nat
   then forEach jobsToUnschedule (λ jobId, sm_unscheduleJob schedulerManager jobId)
   else mret tt);;
  if (0 <? length newJobs)%nat || (0 <? length jobsToUnschedule)%nat
  then logger INFO (DiscoveryCompleted (length newJobs) (length jobsToUnschedule))
  else mret tt.

(** The [setInterval] callback; a cleared interval no longer calls it. *)
Definition onInterval : M unit :=
  installed ← gets intervalId;
  match installed with
  | None => mret tt
  | Some _ =>
      shuttingDown ← gets isShuttingDown;
      if shuttingDown : bool then mret tt
      else try_catch discoverAndScheduleJobs
             (λ error, logger ERROR (DiscoveryError error))
  end.

(** [getStatus()]; [discoveryInterval], a constant read from the process
    environment, is left out of the report. *)
Record DiscoveryStatus := mkDiscoveryStatus {
    ds_isRunning : bool;
    ds_hasInterval : bool
  }.

Definition getStatus : M DiscoveryStatus :=
  running ← gets isRunning;
  installed ← gets intervalId;
  mret (mkDiscoveryStatus running (bool_decide (is_Some installed))).
End WithManager.
End JobDiscovery.

(* ===================================================================== *)
(** ** SchedulerManager *)
(* ===================================================================== *)

Definition stopTask (t : ScheduledTask) : ScheduledTask :=
  mkTask (task_job t) (task_expression t) false.

Module SchedulerManager.
Section WithEnv.
Context `{CronParser} `{NodeCron} `{Environment} `{Deployment}.

Definition instanceId : string := "scheduler".

(** [task.stop()] *)
Definition task_stop (task : nat) : M unit :=
  modify (λ w, set_cronTasks (alter stopTask task (cronTasks w)) w).

(** [cron.schedule(expression, callback, { scheduled: true, ... })]: a
    new running task whose callback closes over [job]. *)
Definition cron_schedule (expression : string) (job : Job) : M nat :=
  if validate expression then
    task ← gets (λ w, length (cronTasks w));
    modify (λ w, set_cronTasks (cronTasks w ++ [mkTask job expression true]) w);;
    mret task
  else mthrow "pattern is invalid".

Definition unscheduleJob (jobId : string) : M unit :=
  found ← gets (λ w, scheduledTasks w !! jobId);
  match found with
  | Some task =>
      task_stop task;;
      modify (λ w, set_scheduledTasks (delete jobId (scheduledTasks w)) w);;
      logger INFO (JobUnscheduled jobId)
  | None => mret tt
  end.

(** The options [scheduleJob] gives the parser: none in the original
    revision, the [seconds] flag in the corrected one. *)
Definition parserOptions (cronSchedule : string) : ParserOptions :=
  match schedulerManagerRevision with
  | Original => noOptions
  | Corrected => mkOptions None (Some (JobValidator.hasSixFields cronSchedule))
  end.

(** The callback [scheduleJob] hands to [cron.schedule]. *)
Definition onTick (job : Job) : M unit :=
  shuttingDown ← gets isShuttingDown;
  if shuttingDown : bool then logger WARN (SkipExecutionShutdown (_id job))
  else
    match schedulerManagerRevision with
    | Original => JobExecutor.executeJob job instanceId
    | Corrected => JobExecutor.execute job
    end.

Definition scheduleJob (job : Job) : M unit :=
  shuttingDown ← gets isShuttingDown;
  if shuttingDown : bool then logger WARN (SkipSchedulingShutdown (_id job))
  else
    unscheduleJob (_id job);;
    if negb (bool_decide (status job = active)) then
      logger INFO (JobNotActive (_id job))
    else
      try_catch
        (now ← newDate;
         interval ← liftE (parseExpression (cronSchedule job)
                                           (parserOptions (cronSchedule job)) now);
         nextRunTime ← liftE (next interval);
         task ← cron_schedule (cronSchedule job) job;
         modify (λ w, set_scheduledTasks (<[_id job := task]> (scheduledTasks w)) w);;
         logger INFO (JobScheduled (_id job) nextRunTime))
        (λ error, logger ERROR (FailedToSchedule (_id job) error)).

(** node-cron calls the callback of a task that has not been stopped. *)
Definition fire (task : nat) : M unit :=
  t ← gets (λ w, cronTasks w !! task);
  match t with
  | Some t => if task_running t then onTick (task_job t) else mret tt
  | None => mret tt
  end.

Definition stop : M unit :=
  logger INFO StoppingScheduler;;
  tasks ← gets (λ w, map_to_list (scheduledTasks w));
  forEach tasks (λ entry, task_stop entry.2;; logger INFO (StoppedJob entry.1));;
  modify (set_scheduledTasks ∅);;
  logger INFO SchedulerStopped.

Definition getScheduledJobIds : M (list string) :=
  gets (λ w, (map_to_list (scheduledTasks w)).*1).

Definition getScheduledJobCount : M nat :=
  gets (λ w, size (scheduledTasks w)).

Definition this : ManagerInterface :=
  mkManager scheduleJob unscheduleJob getScheduledJobIds getScheduledJobCount.

Definition start : M unit :=
  logger INFO StartingScheduler;;
  try_catch
    (activeJobs ← JobService.getActiveJobs;
     logger INFO (FoundActiveJobs (length activeJobs));;
     forEach activeJobs scheduleJob;;
     JobDiscovery.start;;
     logger INFO SchedulerStarted)
    (λ error, logger ERROR (FailedToStart error);; mthrow error).

Definition shutdown : M unit :=
  logger INFO ShutdownInitiated;;
  modify (set_isShuttingDown true);;
  JobDiscovery.stop;;
  stop;;
  sleep 1000;;
  logger INFO ShutdownCompleted.

(** The reconciliation pass and the interval callback of the
    [JobDiscovery] this manager constructs. *)
Definition discoverAndScheduleJobs : M unit :=
  JobDiscovery.discoverAndScheduleJobs this.

Definition onInterval : M unit := JobDiscovery.onInterval this.

(** [getStatus()]; [uptime], which is [process.uptime()], is left out of
    the report. *)
Record SchedulerStatus := mkSchedulerStatus {
    st_instanceId : string;
    totalScheduledTasks : nat;
    scheduledJobIds : list string;
    st_isShuttingDown : bool;
    discovery : JobDiscovery.DiscoveryStatus
  }.

Definition getStatus : M SchedulerStatus :=
  total ← gets (λ w, size (scheduledTasks w));
  ids ← gets (λ w, (map_to_list (scheduledTasks w)).*1);
  flag ← gets isShuttingDown;
  report ← JobDiscovery.getStatus;
  mret (mkSchedulerStatus instanceId total ids flag report).
End WithEnv.
End SchedulerManager.

(* ===================================================================== *)
(** ** The job controller of /api/jobs *)
(* ===================================================================== *)

(** The controller and [JobValidator.validateJobData] run over the core
    state, the response object of the request being served, and the lines
    they log themselves (kept apart from the lines of the scheduling
    core, so the order between the two is not recorded). *)
Module Http.

Inductive ResponseBody :=
  | ErrorBody (error : string)
  | JobBody (data : Job).

(** The response object [res]: the status set so far and what was sent. *)
Record Res := mkRes {
    statusCode : Z;
    sent : option ResponseBody
  }.

Definition freshRes : Res := mkRes 200 None.

Inductive ApiLogEvent :=
  | IncompleteEmailJob (jobName : string)
  | ControllerError (message : string) (error : Error).

Record Server := mkServer {
    core : World;
    res : Res;
    apiLogs : list (LogLevel * ApiLogEvent)
  }.

Definition Api (A : Type) : Type := Server → Result A * Server.

#[export] Instance Api_ret : MRet Api := λ A a sv, (Ok a, sv).
#[export] Instance Api_bind : MBind Api := λ A B f m sv,
  match m sv with
  | (Ok a, sv') => f a sv'
  | (Throw e, sv') => (Throw e, sv')
  end.
#[export] Instance Api_throw : MThrow Error Api := λ A e sv, (Throw e, sv).

Definition tryCatch {A} (body : Api A) (handler : Error → Api A) : Api A :=
  λ sv, match body sv with
        | (Ok a, sv') => (Ok a, sv')
        | (Throw e, sv') => handler e sv'
        end.

(** A call into the scheduling core. *)
Definition liftM {A} (m : M A) : Api A :=
  λ sv, match m (core sv) with
        | (r, w) => (r, mkServer w (res sv) (apiLogs sv))
        end.

Definition apiLogger (lvl : LogLevel) (e : ApiLogEvent) : Api unit :=
  λ sv, (Ok tt, mkServer (core sv) (res sv) (apiLogs sv ++ [(lvl, e)])).

(** [res.status(code)] *)
Definition status (code : Z) : Api unit :=
  λ sv, (Ok tt, mkServer (core sv) (mkRes code (sent (res sv))) (apiLogs sv)).

(** [res.json(body)]: sends the response; express throws when one has
    been sent already. *)
Definition json (body : ResponseBody) : Api unit :=
  λ sv, match sent (res sv) with
        | None => (Ok tt, mkServer (core sv) (mkRes (statusCode (res sv)) (Some body))
                            (apiLogs sv))
        | Some _ => (Throw "ERR_HTTP_HEADERS_SENT", sv)
        end.

(** [res.headersSent] *)
Definition headersSent : Api bool :=
  λ sv, (Ok (bool_decide (is_Some (sent (res sv)))), sv).

Definition doubleQuoted (s : string) : string :=
  String (ascii_of_nat 34) s +:+ String (ascii_of_nat 34) "".

Section WithEnv.
Context `{CronParser} `{NodeCron} `{Environment} `{Deployment} `{Mongoose}.

(** [!v || typeof v !== 'string' || v.trim() === ''] *)
Definition blank (v : JsValue) : bool :=
  negb (truthy v) || negb (isString v) || String.eqb (trim (stringOf v)) "".

(** [['active', 'paused', 'completed', 'failed'].includes(v)] *)
Definition knownStatus (v : JsValue) : bool :=
  match v with
  | JsString s => bool_decide (s ∈ ["active"; "paused"; "completed"; "failed"])
  | _ => false
  end.

(** [JobValidator.validateJobData] *)
Definition validateJobData (jobData : JsValue) : Api unit :=
  if negb (truthy jobData) then mthrow "Job data cannot be empty."
  else if blank (prop jobData "name") then
    mthrow "Job name is required and must be a non-empty string."
  else if blank (prop jobData "cronSchedule") then
    mthrow "Cron schedule is required and must be a non-empty string."
  else if blank (prop jobData "type") then
    mthrow "Job type is required and must be a non-empty string."
  else
    liftM (JobValidator.validateCronSchedule (stringOf (prop jobData "cronSchedule")));;
    (if String.eqb (stringOf (prop jobData "type")) "email" &&
        (negb (truthy (prop jobData "data")) ||
         negb (truthy (prop (prop jobData "data") "to")) ||
         negb (truthy (prop (prop jobData "data") "subject")))
     then apiLogger WARN (IncompleteEmailJob (stringOf (prop jobData "name")))
     else mret tt);;
    if truthy (prop jobData "status") && negb (knownStatus (prop jobData "status"))
    then mthrow ("Invalid job status. Must be " +:+ doubleQuoted "active" +:+ ", "
                 +:+ doubleQuoted "paused" +:+ ", " +:+ doubleQuoted "completed"
                 +:+ ", or " +:+ doubleQuoted "failed" +:+ ".")
    else mret tt.

(** [logError]: a failure of the logger itself is ignored. *)
Definition logError (message : string) (err : Error) : Api unit :=
  tryCatch (apiLogger ERROR (ControllerError message err)) (λ _, mret tt).

Definition handleError (err : Error) (message : string) (code : Z) : Api unit :=
  logError message err;;
  alreadySent ← headersSent;
  if alreadySent : bool then mret tt
  else status code;; json (ErrorBody message).

(** [getJob(req, res)], [id] being [req.params.id].  The service of
    [res.locals] is the [JobService] instance, so [getById] is a function;
    the document it resolves to is an object, so [!job] is false. *)
Definition getJob (id : option string) : Api unit :=
  tryCatch
    (match id with
     | None => status 400;; json (ErrorBody "id param required")
     | Some id =>
         if String.eqb id "" then status 400;; json (ErrorBody "id param required")
         else
           job ← liftM (JobService.getById id);
           json (JobBody job)
     end)
    (λ err, handleError err "Failed to get job" 500).

(** [createJob(req, res)], [body] being [req.body].  The inner [try]
    yields the payload with [nextRun] set, or nothing once the 400 has
    been sent; [res.locals] holds the service and the scheduler manager. *)
Definition createJob (body : JsValue) : Api unit :=
  tryCatch
    (let payload := if truthy body then body else JsObject [] in
     validated ←
       tryCatch
         (validateJobData payload;;
          nextRun ← liftM (JobValidator.calculateNextRunTime
                             (stringOf (prop payload "cronSchedule")));
          match setProp payload "nextRun" (JsDate nextRun) with
          | inl e => mthrow e
          | inr payload => mret (Some payload)
          end)
         (λ validationError,
            status 400;; json (ErrorBody validationError);; mret None);
     match validated with
     | None => mret tt
     | Some payload =>
         created ← liftM (JobService.create payload);
         liftM (SchedulerManager.scheduleJob created);;
         status 201;; json (JobBody created)
     end)
    (λ err, handleError err "Failed to create job" 500).
End WithEnv.
End Http.

(* ===================================================================== *)
(** ** The Redis shim *)
(* ===================================================================== *)

(** The in-memory client the shim exports when the job cache module
    offers no [get], [set], [del] or [exists] of its own (it exports the
    [JobCache] class only): a map with time-to-live, kept with
    [setTimeout].  The state is the module's two maps and, of the event
    loop, the clock and the timeouts that are pending. *)
Module RedisShim.

Record State := mkState {
    now : Z;
    store : gmap string JsValue;
    timers : gmap string nat;            (* key to timeout handle *)
    timeouts : gmap nat (Z * string);    (* handle to due time and key *)
    timeoutSeq : nat                     (* handles issued by setTimeout *)
  }.

Definition initial : State := mkState 0 ∅ ∅ ∅ 0.

(** Node.js runs a timeout whose delay is above [2^31 - 1] ms, or below
    1 ms, after 1 ms. *)
Definition timeoutDelay (ms : Z) : Z :=
  if (2147483647 <? ms) || (ms <? 1) then 1 else ms.

(** [if (timers.has(key)) { clearTimeout(timers.get(key)); timers.delete(key); }] *)
Definition clearTimer (key : string) (s : State) : State :=
  match timers s !! key with
  | Some t =>
      mkState (now s) (store s) (delete key (timers s)) (delete t (timeouts s))
              (timeoutSeq s)
  | None => s
  end.

(** [typeof ttlSeconds === 'number' && ttlSeconds > 0], for a whole
    number of seconds. *)
Definition positiveNumber (v : JsValue) : option Z :=
  match v with
  | JsNumber n => if 0 <? n then Some n else None
  | _ => None
  end.

Definition fallbackSet (key : string) (value ttlSeconds : JsValue) (s : State)
  : JsValue * State :=
  let s := mkState (now s) (<[key := value]> (store s)) (timers s) (timeouts s)
                   (timeoutSeq s) in
  let s := clearTimer key s in
  let s :=
    match positiveNumber ttlSeconds with
    | Some ttl =>
        let t := timeoutSeq s in
        mkState (now s) (store s) (<[key := t]> (timers s))
                (<[t := (now s + timeoutDelay (ttl * 1000), key)]> (timeouts s))
                (S t)
    | None => s
    end in
  (JsString "OK", s).

Definition fallbackGet (key : string) (s : State) : JsValue * State :=
  (match store s !! key with Some v => v | None => JsNull end, s).

Definition fallbackDel (key : string) (s : State) : JsValue * State :=
  let s := clearTimer key s in
  let removed := bool_decide (is_Some (store s !! key)) in
  (JsNumber (if removed then 1 else 0),
   mkState (now s) (delete key (store s)) (timers s) (timeouts s) (timeoutSeq s)).

(** [client.exists]: [v == null ? 0 : 1] on what [get] resolves to. *)
Definition client_exists (key : string) (s : State) : JsValue * State :=
  let (v, s) := fallbackGet key s in
  (JsNumber (match v with JsNull | JsUndefined => 0 | _ => 1 end), s).

(** The callback of the timeout set for [key]. *)
Definition expire (key : string) (s : State) : State :=
  mkState (now s) (delete key (store s)) (delete key (timers s)) (timeouts s)
          (timeoutSeq s).

(** [ms] milliseconds pass: the event loop runs the callbacks that have
    come due.  A callback only deletes the entries of its key, so the
    order in which they run does not show. *)
Definition elapse (ms : N) (s : State) : State :=
  let t := now s + Z.of_N ms in
  let due := filter (λ p : nat * (Z * string), p.2.1 ≤ t) (timeouts s) in
  let s := mkState t (store s) (timers s)
                   (filter (λ p : nat * (Z * string), ¬ p.2.1 ≤ t) (timeouts s))
                   (timeoutSeq s) in
  foldr (λ p s, expire p.2.2 s) s (map_to_list due).

(** What a user of the client can do, and time passing. *)
Inductive Call :=
  | CallSet (key : string) (value ttlSeconds : JsValue)
  | CallGet (key : string)
  | CallDel (key : string)
  | CallExists (key : string)
  | TimePasses (ms : N).

Definition step (s : State) (c : Call) : State :=
  match c with
  | CallSet key value ttlSeconds => (fallbackSet key value ttlSeconds s).2
  | CallGet key => (fallbackGet key s).2
  | CallDel key => (fallbackDel key s).2
  | CallExists key => (client_exists key s).2
  | TimePasses ms => elapse ms s
  end.

Definition run (calls : list Call) (s : State) : State := foldl step s calls.

(** The two maps and the pending timeouts agree: a key has a timer
    exactly when a timeout is pending for it, under that handle; a
    pending timeout is not due yet; and only stored keys have timers. *)
Record coherent (s : State) : Prop := mkCoherent {
    timer_pending : ∀ k t, timers s !! k = Some t →
      ∃ due, timeouts s !! t = Some (due, k);
    pending_timer : ∀ t due k, timeouts s !! t = Some (due, k) →
      timers s !! k = Some t;
    pending_later : ∀ t due k, timeouts s !! t = Some (due, k) → now s < due;
    pending_issued : ∀ t p, timeouts s !! t = Some p → (t < timeoutSeq s)%nat;
    timer_stored : ∀ k t, timers s !! k = Some t → is_Some (store s !! k)
  }.
End RedisShim.

(* ===================================================================== *)
(** ** The cron expression evaluator *)
(* ===================================================================== *)

(** Modelled from the spec: the Cron Expression Evaluator.  Its code is
    the npm package cron-parser, which is not among the sources; the
    definitions of [CronSpec] follow section 4.1 of the specification: a
    cron string of five fields (minute, hour, day of month, month, day of
    week) or six (seconds first), each field resolving to a valid range
    for its position, and as output the earliest instant strictly after
    the reference time that satisfies all fields, in UTC.  Instants are
    milliseconds since the epoch, as in a JavaScript [Date]. *)
Module CronSpec.

(** Modelled from the spec: the values each of the fields admits. *)
Record Fields := mkFields {
    f_second : list Z;
    f_minute : list Z;
    f_hour : list Z;
    f_dayOfMonth : list Z;
    f_month : list Z;
    f_dayOfWeek : list Z
  }.

(** *** Reading an expression *)

(** Modelled from the spec: the field syntax is the usual one of cron
    ([*], [a], [a-b], a step [/n], lists with commas), the one the
    examples of the specification and of the README use. *)
Definition digitOf (c : ascii) : option Z :=
  let n := Z.of_N (N_of_ascii c) in
  if (48 <=? n) && (n <=? 57) then Some (n - 48) else None.

Fixpoint parseDigits (acc : Z) (s : string) : option Z :=
  match s with
  | EmptyString => Some acc
  | String c s' => d ← digitOf c; parseDigits (10 * acc + d) s'
  end.

Definition parseNumber (s : string) : option Z :=
  match s with
  | EmptyString => None
  | _ => parseDigits 0 s
  end.

(** [a, a+step, ...] up to [b]. *)
Definition rangeStep (a b step : Z) : list Z :=
  (λ i, a + i * step) <$> seqZ 0 ((b - a) / step + 1).

(** [*], [a] or [a-b]; with a step, [a] alone runs to the top of the
    field. *)
Definition parseRange (lo hi : Z) (stepped : bool) (s : string)
  : option (Z * Z) :=
  if String.eqb s "*" then Some (lo, hi)
  else match split "-"%char s with
       | [a] => a ← parseNumber a; Some (a, if stepped then hi else a)
       | [a; b] => a ← parseNumber a; b ← parseNumber b; Some (a, b)
       | _ => None
       end.

(** One list item: a range, optionally followed by [/step]. *)
Definition parseItem (lo hi : Z) (s : string) : option (list Z) :=
  match split "/"%char s with
  | [r] => r ← parseRange lo hi false r; Some (rangeStep r.1 r.2 1)
  | [r; k] =>
      r ← parseRange lo hi true r;
      k ← parseNumber k;
      if 0 <? k then Some (rangeStep r.1 r.2 k) else None
  | _ => None
  end.

(** A field: items separated by commas. *)
Definition parseField (lo hi : Z) (s : string) : option (list Z) :=
  items ← mapM (parseItem lo hi) (split ","%char s);
  Some (mjoin items).

Definition inRange (lo hi : Z) (l : list Z) : bool :=
  negb (bool_decide (l = [])) && forallb (λ v, (lo <=? v) && (v <=? hi)) l.

(** Modelled from the spec: every field resolves to a valid range for
    its position. *)
Definition wellFormed (e : Fields) : bool :=
  inRange 0 59 (f_second e) && inRange 0 59 (f_minute e) &&
  inRange 0 23 (f_hour e) && inRange 1 31 (f_dayOfMonth e) &&
  inRange 1 12 (f_month e) && inRange 0 6 (f_dayOfWeek e).

Definition build (sec mi h dom mo dow : string) : option Fields :=
  sec ← parseField 0 59 sec;
  mi ← parseField 0 59 mi;
  h ← parseField 0 23 h;
  dom ← parseField 1 31 dom;
  mo ← parseField 1 12 mo;
  dow ← parseField 0 7 dow;
  if forallb (λ v, (0 <=? v) && (v <=? 7)) dow then
    (* Sunday is 0 or 7 *)
    let e := mkFields sec mi h dom mo ((λ v, v mod 7) <$> dow) in
    if wellFormed e then Some e else None
  else None.

(** Modelled from the spec: [validate]; five fields, or six with the
    seconds first; anything else is an [InvalidExpression]. *)
Definition parse (s : string) : option Fields :=
  match filter (λ t, t ≠ "") (split " "%char s) with
  | [mi; h; dom; mo; dow] => build "0" mi h dom mo dow
  | [sec; mi; h; dom; mo; dow] => build sec mi h dom mo dow
  | _ => None
  end.

(** *** The UTC calendar of a day number (days since 1970-01-01) *)

(** Modelled from the spec: the fixed reference timezone is UTC; day of
    month, month and day of week of a day number follow the proleptic
    Gregorian calendar. *)
Definition daysPerCycle : Z := 146097.   (* 400 Gregorian years *)

Definition dayOfWeek (day : Z) : Z := (day + 4) mod 7.

(** Day within the 400-year cycle that starts on a 1 March. *)
Definition dayOfEra (day : Z) : Z := (day + 719468) mod daysPerCycle.

Definition yearOfEra (doe : Z) : Z :=
  (doe - doe / 1460 + doe / 36524 - doe / 146096) / 365.

(** Day within the year that starts on 1 March. *)
Definition dayOfYear (doe : Z) : Z :=
  let yoe := yearOfEra doe in
  doe - (365 * yoe + yoe / 4 - yoe / 100).

Definition monthIndex (doe : Z) : Z := (5 * dayOfYear doe + 2) / 153.

Definition dayOfMonth (day : Z) : Z :=
  let doe := dayOfEra day in
  dayOfYear doe - (153 * monthIndex doe + 2) / 5 + 1.

Definition month (day : Z) : Z :=
  let mp := monthIndex (dayOfEra day) in
  if mp <? 10 then mp + 3 else mp - 9.

(** *** Satisfying all fields *)

Definition inb (x : Z) (l : list Z) : bool := existsb (Z.eqb x) l.

Definition dayMatches (e : Fields) (day : Z) : bool :=
  inb (dayOfMonth day) (f_dayOfMonth e) &&
  inb (month day) (f_month e) &&
  inb (dayOfWeek day) (f_dayOfWeek e).

(** Modelled from the spec: the instant [t] is a whole second and
    satisfies all fields. *)
Definition satisfies (e : Fields) (t : Z) : bool :=
  (t mod 1000 =? 0) &&
  inb ((t / 1000) mod 60) (f_second e) &&
  inb ((t / 60000) mod 60) (f_minute e) &&
  inb ((t / 3600000) mod 24) (f_hour e) &&
  dayMatches e (t / 86400000).

(** *** The next trigger *)

(** The seconds of a day at which hour, minute and second match. *)
Definition timesOfDay (e : Fields) : list Z :=
  h ← f_hour e; m ← f_minute e; s ← f_second e; [3600 * h + 60 * m + s].

Definition minimum (l : list Z) : option Z :=
  foldr (λ x acc, Some (from_option (Z.min x) x acc)) None l.

(** The earliest matching second of a day not before second [k]. *)
Definition firstFrom (e : Fields) (k : Z) : option Z :=
  minimum (filter (λ s, k ≤ s) (timesOfDay e)).

(** The earliest matching day among [fuel] days from [day]. *)
Fixpoint findDay (e : Fields) (fuel : nat) (day : Z) : option Z :=
  match fuel with
  | O => None
  | S fuel => if dayMatches e day then Some day else findDay e fuel (day + 1)
  end.

(** The earliest matching whole second not before second [c]; the
    calendar repeats after [daysPerCycle] days, so the search for a day
    stops there. *)
Definition nextSecond (e : Fields) (c : Z) : option Z :=
  let day := c / 86400 in
  match (if dayMatches e day then firstFrom e (c mod 86400) else None) with
  | Some s => Some (86400 * day + s)
  | None =>
      d ← findDay e (Z.to_nat daysPerCycle) (day + 1);
      s ← firstFrom e 0;
      Some (86400 * d + s)
  end.

(** Modelled from the spec: [nextTrigger], the earliest instant strictly
    after [ref] that satisfies all fields; none when no day of the
    calendar cycle satisfies the day fields. *)
Definition nextTrigger (e : Fields) (ref : Z) : option Z :=
  c ← nextSecond e (ref / 1000 + 1); Some (1000 * c).

(** Modelled from the spec: the library interface with this behaviour.
    The interval object holds the fields and its current date; the
    [seconds] option is not needed, the number of fields decides. *)
Definition cronParser : CronParser := {|
    CronExpression := Fields * Z;
    parseExpression s options now :=
      match parse s with
      | Some e => inr (e, default now (currentDate options))
      | None => inl "InvalidExpression"
      end;
    next i :=
      match nextTrigger i.1 i.2 with
      | Some t => inr t
      | None => inl "InvalidExpression: no trigger instant"
      end
  |}.

(** A valid recurring expression: some calendar day satisfies its day
    fields. *)
Definition recurring (e : Fields) : Prop := ∃ day, dayMatches e day = true.

(** *** Notions of the proofs about the search *)

(** A whole second [c] (seconds since the epoch) matches. *)
Definition secondMatches (e : Fields) (c : Z) : Prop :=
  dayMatches e (c / 86400) = true ∧ c mod 86400 ∈ timesOfDay e.

(** What the search needs of a well-formed expression. *)
Record ranges (e : Fields) : Prop := mkRanges {
    second_range : ∀ v, v ∈ f_second e → 0 ≤ v ≤ 59;
    minute_range : ∀ v, v ∈ f_minute e → 0 ≤ v ≤ 59;
    hour_range : ∀ v, v ∈ f_hour e → 0 ≤ v ≤ 23;
    second_some : f_second e ≠ [];
    minute_some : f_minute e ≠ [];
    hour_some : f_hour e ≠ []
  }.

(** The fields [*/5 * * * *] expands to. *)
Definition everyFiveMinutes : Fields :=
  mkFields [0] (rangeStep 0 59 5) (rangeStep 0 23 1) (rangeStep 1 31 1)
           (rangeStep 1 12 1) ((λ v, v mod 7) <$> rangeStep 0 7 1).

End CronSpec.

(* ===================================================================== *)
(** ** Notions used in the statements *)
(* ===================================================================== *)

(** The fields of [SchedulerManager] and [JobDiscovery], and the timers. *)
Definition schedulerState (w : World)
  : list ScheduledTask * gmap string nat * bool * bool * option nat * nat :=
  (cronTasks w, scheduledTasks w, isShuttingDown w, isRunning w,
   intervalId w, intervalSeq w).

(** [listRegisteredIds()] and [count()] of the timer registry. *)
Definition registeredIds (w : World) : list string :=
  (map_to_list (scheduledTasks w)).*1.

Definition registeredCount (w : World) : nat := size (scheduledTasks w).

(** A live entry of a job: a node-cron task of that job that has not been
    stopped. *)
Definition isLive (jobId : string) (t : ScheduledTask) : bool :=
  task_running t && String.eqb (_id (task_job t)) jobId.

Definition liveCount (jobId : string) (w : World) : nat :=
  length (filter (λ t, isLive jobId t = true) (cronTasks w)).

(** The ids of the jobs the store holds with [status = active]. *)
Definition activeIds (s : gmap string JobDoc) : gset string :=
  dom (filter (λ p, status p.2 = active) s).

(** The registry and the timers agree: every registered handle is a live
    task of that job, every live task is the registered one of its job,
    and once shutting down nothing is registered. *)
Record consistent (w : World) : Prop := mkConsistent {
    registered_live : ∀ id h, scheduledTasks w !! id = Some h →
      ∃ t, cronTasks w !! h = Some t ∧ task_running t = true ∧ _id (task_job t) = id;
    live_registered : ∀ h t, cronTasks w !! h = Some t → task_running t = true →
      scheduledTasks w !! _id (task_job t) = Some h;
    shutdown_empty : isShuttingDown w = true → scheduledTasks w = ∅
  }.

Section Derived.
Context `{CronParser} `{NodeCron} `{Environment} `{Deployment}.

(** What [JobValidator.calculateNextRunTime] asks of the evaluator at
    time [now]. *)
Definition evaluate (cronSchedule : string) (now : Z) : Error + Z :=
  match parseExpression cronSchedule
          (mkOptions (Some now) (Some (JobValidator.hasSixFields cronSchedule)))
          now with
  | inl e => inl e
  | inr interval => next interval
  end.

(** What the [try] block of [scheduleJob] checks at time [now] before it
    installs a task: the parser accepts the expression, a next run
    exists, and node-cron accepts the pattern. *)
Definition validation (cronSchedule : string) (now : Z) : Error + Z :=
  match parseExpression cronSchedule
          (SchedulerManager.parserOptions cronSchedule) now with
  | inl e => inl e
  | inr interval =>
      match next interval with
      | inl e => inl e
      | inr t => if validate cronSchedule then inr t else inl "pattern is invalid"
      end
  end.

(** The simulated duration of the handler [execute] selects. *)
Definition handlerDelay (job : Job) : Z :=
  if String.eqb (type job) "email" then 100 else 50.

(** What can happen to a running scheduler, one atomic step each. *)
Inductive Event :=
  | CallScheduleJob (job : Job)
  | CallUnscheduleJob (jobId : string)
  | CallStart
  | CallStop
  | CallShutdown
  | TimerFires (task : nat)
  | IntervalFires
  | StoreChanges (s : gmap string JobDoc)
  | TimePasses (ms : Z).

Definition step (w : World) (ev : Event) : World :=
  match ev with
  | CallScheduleJob job => (SchedulerManager.scheduleJob job w).2
  | CallUnscheduleJob jobId => (SchedulerManager.unscheduleJob jobId w).2
  | CallStart => (SchedulerManager.start w).2
  | CallStop => (SchedulerManager.stop w).2
  | CallShutdown => (SchedulerManager.shutdown w).2
  | TimerFires task => (SchedulerManager.fire task w).2
  | IntervalFires => (SchedulerManager.onInterval w).2
  | StoreChanges s => set_store s w
  | TimePasses ms => set_clock (clock w + ms) w
  end.

Definition run (evs : list Event) (w : World) : World := foldl step w evs.
(** The status [markFailed] writes in the deployed model revision. *)
Definition failureStatus : Status :=
  match jobModelRevision with Original => active | Corrected => failed end.

(** The handler [execute] selects, run on its own. *)
Definition runHandler (job : Job) : M unit :=
  if String.eqb (type job) "email" then JobExecutor.sendEmail job
  else if String.eqb (type job) "reminder" then JobExecutor.sendReminder job
  else JobExecutor.performGenericTask job.
End Derived.

(** The documents [findActiveJobs] returns from a store. *)
Definition activeJobs (s : gmap string JobDoc) : list Job :=
  filter (λ j : Job, status j = active) ((λ p, mkJob p.1 p.2) <$> map_to_list s).

(** Stopping a list of task handles. *)
Definition stopAll (hs : list nat) (tasks : list ScheduledTask) : list ScheduledTask :=
  foldl (λ ts h, alter stopTask h ts) tasks hs.

(** A property of the world that an effect keeps. *)
Definition stable {A} (I : World → Prop) (m : M A) : Prop :=
  ∀ w, I w → I (m w).2.

(** An effect that leaves the scheduler's own state alone. *)
Definition framed {A} (m : M A) : Prop :=
  ∀ w, schedulerState (m w).2 = schedulerState w.

Definition sameScheduler (w0 w : World) : Prop :=
  schedulerState w = schedulerState w0.

Definition shuttingDown (w : World) : Prop := isShuttingDown w = true.

(** The store holds a record under [id], and the schema of the deployed
    job model accepts it. *)
Definition validRecord `{Deployment} (id : string) (w : World) : Prop :=
  ∃ d, store w !! id = Some d ∧ JobModel.validate d = inr tt.

(** Node-cron tasks are never removed and never given another job, and a
    stopped task is never started again: [l'] continues [l]. *)
Definition tasksExtend (l l' : list ScheduledTask) : Prop :=
  ∀ h t, l !! h = Some t →
    ∃ t', l' !! h = Some t' ∧ task_job t' = task_job t ∧
          task_expression t' = task_expression t ∧
          (task_running t' = true → task_running t = true).

(** An effect confined to the registry and the timers: the store, the
    clock, the shutdown flag and the discovery fields are as before. *)
Record registryOnly (w w' : World) : Prop := mkRegistryOnly {
    ro_store : store w' = store w;
    ro_clock : clock w' = clock w;
    ro_flag : isShuttingDown w' = isShuttingDown w;
    ro_discovery : (isRunning w', intervalId w', intervalSeq w') =
                   (isRunning w, intervalId w, intervalSeq w);
    ro_tasks : tasksExtend (cronTasks w) (cronTasks w')
  }.

(** The discovery loop's flag and its interval handle agree, and a held
    handle is one [setInterval] has issued. *)
Definition intervalCoherent (w : World) : Prop :=
  (isRunning w = true ↔ is_Some (intervalId w)) ∧
  ∀ i, intervalId w = Some i → (i < intervalSeq w)%nat.

Section Accepts.
Context `{CronParser} `{NodeCron} `{Deployment}.

(** The [try] block of [scheduleJob] goes through at time [now]. *)
Definition accepted (cronSchedule : string) (now : Z) : Prop :=
  ∃ t, validation cronSchedule now = inr t.
End Accepts.

Section EarlierExecutor.
Context `{CronParser}.

(** What the earlier executor's [calculateNextRunTime] asks of the
    evaluator at time [now]: the expression, with no options. *)
Definition evaluateDefault (cronSchedule : string) (now : Z) : Error + Z :=
  match parseExpression cronSchedule noOptions now with
  | inl e => inl e
  | inr interval => next interval
  end.

(** The case [executeJobLogic] selects for a job: its kind and the bounds
    of its simulated delay, or none for a type it does not know. *)
Definition logicBranch (job : Job) : option (string * Z * Z) :=
  if String.eqb (type job) "email" then Some ("email", 1000, 2000)
  else if String.eqb (type job) "data-processing" then
    Some ("data-processing", 2000, 5000)
  else if String.eqb (type job) "report" then Some ("report", 3000, 6000)
  else if String.eqb (type job) "notification" then
    Some ("notification", 500, 1500)
  else None.
End EarlierExecutor.

(** A step of the controller that leaves the store, the scheduler, the
    clock and the response object as they were. *)
Definition quiet (sv sv' : Http.Server) : Prop :=
  store (Http.core sv') = store (Http.core sv) ∧
  schedulerState (Http.core sv') = schedulerState (Http.core sv) ∧
  clock (Http.core sv') = clock (Http.core sv) ∧
  Http.res sv' = Http.res sv.

(** How often the character [c] occurs in [s]. *)
Fixpoint occurrences (c : ascii) (s : string) : nat :=
  match s with
  | EmptyString => 0%nat
  | String a s' => ((if Ascii.eqb a c then 1 else 0) + occurrences c s')%nat
  end.

(** The store agrees with [s] outside the record of [jobId], and holds
    records under the same ids as [s]. *)
Definition storeAgrees (s : gmap string JobDoc) (jobId : string) (w : World) : Prop :=
  (∀ id, id ≠ jobId → store w !! id = s !! id) ∧ dom (store w) = dom s.

(* ===================================================================== *)
(** ** Sample environments and data *)
(* ===================================================================== *)

Definition permissiveNodeCron : NodeCron := {| validate := λ _, true |}.

Definition quietEnvironment : Environment :=
  {| ioLatency := 5; handlerFault := λ _ _, None; randomDelay := λ lo _, lo |}.

Definition failingEnvironment : Environment :=
  {| ioLatency := 5;
     handlerFault := λ _ _, Some "handler failed";
     randomDelay := λ lo _, lo |}.

Definition correctedDeployment : Deployment :=
  {| jobModelRevision := Corrected; schedulerManagerRevision := Corrected |}.

Definition originalDeployment : Deployment :=
  {| jobModelRevision := Original; schedulerManagerRevision := Original |}.

Definition emailDoc : JobDoc :=
  mkJobDoc "A" "Every five minutes" "*/5 * * * *" "email" active None (Some 300000) 0.

Definition brokenDoc : JobDoc :=
  mkJobDoc "B" "Broken schedule" "not-a-cron" "email" active None None 0.

Definition pausedDoc : JobDoc :=
  mkJobDoc "A" "Every five minutes" "*/5 * * * *" "email" paused None (Some 300000) 0.

(** A five-field expression whose minute is out of range. *)
Definition lateMinuteDoc : JobDoc :=
  mkJobDoc "D" "Minute out of range" "61 * * * *" "email" active None None 0.

(** A record whose [type] is in the [enum] of neither revision. *)
Definition cleanupDoc : JobDoc :=
  mkJobDoc "C" "Clean up" "*/5 * * * *" "cleanup" active None (Some 300000) 0.

Definition emailJob : Job := mkJob "j1" emailDoc.
Definition brokenJob : Job := mkJob "j2" brokenDoc.
Definition pausedJob : Job := mkJob "j1" pausedDoc.
Definition cleanupJob : Job := mkJob "j3" cleanupDoc.
Definition lateMinuteJob : Job := mkJob "j4" lateMinuteDoc.

Definition emailStore : gmap string JobDoc := {["j1" := emailDoc]}.
Definition brokenStore : gmap string JobDoc := {["j2" := brokenDoc]}.
Definition cleanupStore : gmap string JobDoc := {["j3" := cleanupDoc]}.
Definition lateMinuteStore : gmap string JobDoc := {["j4" := lateMinuteDoc]}.

(** A scheduler with the job ["j1"] registered. *)
Definition registeredWorld : World :=
  (@SchedulerManager.scheduleJob CronSpec.cronParser permissiveNodeCron
     correctedDeployment emailJob (initialWorld 0 emailStore)).2.

Definition pausedStore : gmap string JobDoc := {["j1" := pausedDoc]}.

(** The scheduler with job ["j1"] registered, once its job has been
    paused in the store, and once its discovery loop has been started. *)
Definition pausedWorld : World := set_store pausedStore registeredWorld.

Definition startedWorld : World :=
  (@SchedulerManager.start CronSpec.cronParser permissiveNodeCron quietEnvironment
     correctedDeployment (initialWorld 0 emailStore)).2.

(** A mongoose that accepts every payload and names the document ["j9"]. *)
Definition permissiveMongoose : Mongoose :=
  {| newJob := λ data w,
       inr (mkJob "j9"
              (mkJobDoc (stringOf (prop data "name"))
                        (stringOf (prop data "description"))
                        (stringOf (prop data "cronSchedule"))
                        (stringOf (prop data "type")) active None
                        (match prop data "nextRun" with
                         | JsDate t => Some t
                         | _ => None
                         end)
                        (clock w))) |}.

Definition emailPayload : JsValue :=
  JsObject [("name", JsString "A"); ("description", JsString "Every five minutes");
            ("cronSchedule", JsString "*/5 * * * *"); ("type", JsString "email")].

(** The fields of [0 9 * * 1-5] and of [0 0 31 4,6,9,11 *]. *)
Definition weekdaysAtNine : CronSpec.Fields :=
  CronSpec.mkFields [0] [0] [9] (CronSpec.rangeStep 1 31 1)
    (CronSpec.rangeStep 1 12 1) [1; 2; 3; 4; 5].

Definition shortMonths31 : CronSpec.Fields :=
  CronSpec.mkFields [0] [0] [0] [31] [4; 6; 9; 11]
    ((λ v, v mod 7) <$> CronSpec.rangeStep 0 7 1).

(* ===================================================================== *)
(** * Proofs *)
(* ===================================================================== *)

Import CronSpec.

Ltac munfold :=
  unfold mbind, mret, mthrow, M_bind, M_ret, M_throw, try_catch, gets,
         modify, liftE, logger, newDate, sleep in *.

Section Stable.
Context {A B : Type} (I : World → Prop).

Lemma stable_ret (a : A) : stable I (mret a).
Proof. intros w Hw. exact Hw. Qed.

Lemma stable_throw (e : Error) : stable I (mthrow e : M A).
Proof. intros w Hw. exact Hw. Qed.

Lemma stable_gets (f : World → A) : stable I (gets f).
Proof. intros w Hw. exact Hw. Qed.

Lemma stable_liftE (r : Error + A) : stable I (liftE r).
Proof. destruct r; intros w Hw; exact Hw. Qed.

Lemma stable_modify (f : World → World) :
  (∀ w, I w → I (f w)) → stable I (modify f).
Proof. intros Hf w Hw. apply Hf, Hw. Qed.

Lemma stable_bind (m : M A) (f : A → M B) :
  stable I m → (∀ a, stable I (f a)) → stable I (m ≫= f).
Proof.
  intros Hm Hf w Hw. specialize (Hm w Hw). munfold.
  destruct (m w) as [[a|e] w']; simpl in *; [apply Hf, Hm | exact Hm].
Qed.

Lemma stable_try_catch (m : M A) (h : Error → M A) :
  stable I m → (∀ e, stable I (h e)) → stable I (try_catch m h).
Proof.
  intros Hm Hh w Hw. specialize (Hm w Hw). munfold.
  destruct (m w) as [[a|e] w']; simpl in *; [exact Hm | apply Hh, Hm].
Qed.
End Stable.

Lemma stable_forEach {A} (I : World → Prop) (l : list A) (f : A → M unit) :
  (∀ x, stable I (f x)) → stable I (forEach l f).
Proof.
  intros Hf. induction l as [|x l IH]; simpl.
  - apply stable_ret.
  - apply stable_bind; [apply Hf | intros _; exact IH].
Qed.

Section Registry.
Context `{CronParser} `{NodeCron} `{Environment} `{Deployment}.
Import SchedulerManager.

Lemma getScheduledJobIds_run (w : World) :
  getScheduledJobIds w = (Ok (registeredIds w), w).
Proof. reflexivity. Qed.

Lemma getScheduledJobCount_run (w : World) :
  getScheduledJobCount w = (Ok (registeredCount w), w).
Proof. reflexivity. Qed.

Lemma unscheduleJob_absent_run (jobId : string) (w : World) :
  scheduledTasks w !! jobId = None → unscheduleJob jobId w = (Ok tt, w).
Proof.
  intros Hnone. unfold unscheduleJob. munfold. rewrite Hnone. reflexivity.
Qed.

Lemma unscheduleJob_present_run (jobId : string) (h : nat) (w : World) :
  scheduledTasks w !! jobId = Some h →
  unscheduleJob jobId w =
    (Ok tt,
     add_log (INFO, JobUnscheduled jobId)
       (set_scheduledTasks (delete jobId (scheduledTasks w))
          (set_cronTasks (alter stopTask h (cronTasks w)) w))).
Proof.
  intros Hsome. unfold unscheduleJob, task_stop. munfold. rewrite Hsome.
  reflexivity.
Qed.

Lemma unscheduleJob_ok jobId w : (unscheduleJob jobId w).1 = Ok tt.
Proof.
  destruct (scheduledTasks w !! jobId) as [h|] eqn:E.
  - by rewrite (unscheduleJob_present_run _ _ _ E).
  - by rewrite (unscheduleJob_absent_run _ _ E).
Qed.

Lemma unscheduleJob_registry jobId w :
  scheduledTasks (unscheduleJob jobId w).2 = delete jobId (scheduledTasks w).
Proof.
  destruct (scheduledTasks w !! jobId) as [h|] eqn:E.
  - by rewrite (unscheduleJob_present_run _ _ _ E).
  - rewrite (unscheduleJob_absent_run _ _ E). simpl.
    symmetry. by apply delete_id.
Qed.

Lemma unscheduleJob_clock jobId w : clock (unscheduleJob jobId w).2 = clock w.
Proof.
  destruct (scheduledTasks w !! jobId) as [h|] eqn:E.
  - by rewrite (unscheduleJob_present_run _ _ _ E).
  - by rewrite (unscheduleJob_absent_run _ _ E).
Qed.

Lemma scheduleJob_run (job : Job) (w : World) :
  scheduleJob job w =
    if isShuttingDown w then (Ok tt, add_log (WARN, SkipSchedulingShutdown (_id job)) w)
    else
      let w1 := (unscheduleJob (_id job) w).2 in
      if bool_decide (status job = active) then
        match validation (cronSchedule job) (clock w) with
        | inr t =>
            (Ok tt,
             add_log (INFO, JobScheduled (_id job) t)
               (set_scheduledTasks
                  (<[_id job := length (cronTasks w1)]> (scheduledTasks w1))
                  (set_cronTasks (cronTasks w1 ++ [mkTask job (cronSchedule job) true]) w1)))
        | inl e => (Ok tt, add_log (ERROR, FailedToSchedule (_id job) e) w1)
        end
      else (Ok tt, add_log (INFO, JobNotActive (_id job)) w1).
Proof.
  unfold scheduleJob. munfold. destruct (isShuttingDown w); [reflexivity|].
  pose proof (unscheduleJob_ok (_id job) w) as Hok.
  rewrite <- (unscheduleJob_clock (_id job) w).
  destruct (unscheduleJob (_id job) w) as [r w1]. simpl in *. subst r.
  destruct (bool_decide (status job = active)); simpl; [|reflexivity].
  unfold validation, cron_schedule. munfold.
  destruct (parseExpression _ _ _) as [e|iv]; simpl; [reflexivity|].
  destruct (next iv) as [e|t]; simpl; [reflexivity|].
  destruct (validate _); reflexivity.
Qed.
End Registry.

Lemma framed_stable {A} (m : M A) :
  (∀ w0, stable (λ w, schedulerState w = schedulerState w0) m) → framed m.
Proof. intros Hst w. by apply (Hst w). Qed.

Lemma stable_logger I lvl ev :
  (∀ w, I w → I (add_log (lvl, ev) w)) → stable I (logger lvl ev).
Proof. intros Hf. by apply stable_modify. Qed.

Lemma stable_sleep I ms :
  (∀ w t, I w → I (set_clock t w)) → stable I (sleep ms).
Proof. intros Hf. apply stable_modify. intros w Hw. by apply Hf. Qed.

(** One structural step of a stability proof.  The shape of the effect is
    matched before a rule is applied; an effect the rules do not know is
    left to [known]. *)
Ltac stable_with known :=
  lazymatch goal with
  | |- stable _ (mbind _ _) => apply stable_bind; [|intros ?]
  | |- stable _ (try_catch _ _) => apply stable_try_catch; [|intros ?]
  | |- stable _ (mret _) => apply stable_ret
  | |- stable _ (mthrow _) => apply stable_throw
  | |- stable _ (gets _) => apply stable_gets
  | |- stable _ newDate => apply stable_gets
  | |- stable _ (liftE _) => apply stable_liftE
  | |- stable _ (logger _ _) => apply stable_logger; intros ? ?; assumption
  | |- stable _ (sleep _) => apply stable_sleep; intros ? ? ?; assumption
  | |- stable _ (modify _) => apply stable_modify; intros ? ?; assumption
  | |- stable _ (match ?x with _ => _ end) => destruct x
  | |- stable _ _ => known
  end.

Ltac stable_step := stable_with fail.

Section SchedulerUntouched.
Context `{CronParser} `{Environment} `{Deployment}.

Variable w0 : World.

Lemma stable_markJobCompleted id :
  stable (sameScheduler w0) (JobService.markJobCompleted id).
Proof.
  unfold JobService.markJobCompleted, JobRepository.markCompleted,
    JobModel.markCompleted, JobModel.findById, JobModel.save, JobModel.awaitIO.
  repeat stable_step.
Qed.

Lemma stable_markJobFailed id :
  stable (sameScheduler w0) (JobService.markJobFailed id).
Proof.
  unfold JobService.markJobFailed, JobRepository.markFailed,
    JobModel.markFailed, JobModel.findById, JobModel.save, JobModel.awaitIO.
  repeat stable_step.
Qed.

Lemma stable_updateNextRun id t :
  stable (sameScheduler w0) (JobService.updateNextRun id t).
Proof.
  unfold JobService.updateNextRun, JobRepository.updateNextRun,
    JobModel.findByIdAndUpdate, JobModel.awaitIO.
  repeat stable_step.
Qed.

Lemma stable_getActiveJobs : stable (sameScheduler w0) JobService.getActiveJobs.
Proof.
  unfold JobService.getActiveJobs, JobRepository.findActiveJobs,
    JobModel.findActiveJobs, JobModel.awaitIO.
  repeat stable_step.
Qed.

Lemma stable_execute job : stable (sameScheduler w0) (JobExecutor.execute job).
Proof.
  unfold JobExecutor.execute, JobExecutor.sendEmail, JobExecutor.sendReminder,
    JobExecutor.performGenericTask, JobExecutor.simulateWork,
    JobValidator.calculateNextRunTime.
  repeat stable_with
    ltac:(first [ apply stable_markJobCompleted | apply stable_markJobFailed
                | apply stable_updateNextRun ]).
Qed.

Lemma stable_executeJob job i :
  stable (sameScheduler w0) (JobExecutor.executeJob job i).
Proof.
  unfold JobExecutor.executeJob, JobExecutor.executeJobLogic,
    JobExecutor.simulatedBranch, JobExecutor.simulateDelay,
    JobExecutor.calculateNextRunTime.
  repeat stable_with
    ltac:(first [ apply stable_markJobCompleted | apply stable_markJobFailed
                | apply stable_updateNextRun ]).
Qed.
End SchedulerUntouched.

Section FramedEffects.
Context `{CronParser} `{Environment} `{Deployment}.
Lemma execute_framed job : framed (JobExecutor.execute job).
Proof. apply framed_stable. intros w0. apply stable_execute. Qed.

Lemma executeJob_framed job i : framed (JobExecutor.executeJob job i).
Proof. apply framed_stable. intros w0. apply stable_executeJob. Qed.

Lemma getActiveJobs_framed : framed JobService.getActiveJobs.
Proof. apply framed_stable. intros w0. apply stable_getActiveJobs. Qed.
End FramedEffects.

Lemma lookup_stopAll hs tasks h :
  stopAll hs tasks !! h =
    (if bool_decide (h ∈ hs) then stopTask else id) <$> tasks !! h.
Proof.
  revert tasks. induction hs as [|h' hs IH]; intros tasks; simpl.
  - by destruct (tasks !! h).
  - rewrite IH. destruct (decide (h' = h)) as [->|Hne].
    + rewrite list_lookup_alter_eq. rewrite (bool_decide_eq_true_2 (h ∈ h :: hs)) by left.
      destruct (tasks !! h); simpl; [|done].
      by case_bool_decide.
    + rewrite list_lookup_alter_ne by done.
      destruct (tasks !! h); simpl; [|done].
      case_bool_decide as Hin; case_bool_decide as Hin'; try done.
      * exfalso. apply Hin'. by right.
      * exfalso. apply elem_of_cons in Hin' as [?|?]; [congruence|done].
Qed.

Lemma consistent_log w e : consistent w → consistent (add_log e w).
Proof. intros [? ? ?]. by constructor. Qed.

Lemma consistent_frame w w' :
  schedulerState w' = schedulerState w → consistent w → consistent w'.
Proof.
  unfold schedulerState. intros Heq [H1 H2 H3].
  injection Heq as Ht Hr Hs _ _ _.
  constructor; rewrite ?Ht, ?Hr, ?Hs; assumption.
Qed.

Section Invariant.
Context `{CronParser} `{NodeCron} `{Environment} `{Deployment}.
Import SchedulerManager.

Lemma consistent_unscheduleJob jobId w :
  consistent w → consistent (unscheduleJob jobId w).2.
Proof.
  intros Hc. destruct (scheduledTasks w !! jobId) as [h|] eqn:E.
  2: { by rewrite (unscheduleJob_absent_run _ _ E). }
  rewrite (unscheduleJob_present_run _ _ _ E). simpl.
  apply consistent_log.
  destruct Hc as [Hrl Hlr Hsd].
  destruct (Hrl _ _ E) as (t & Ht & Hrun & Hid).
  constructor; simpl.
  - intros id' h' Hlook.
    apply lookup_delete_Some in Hlook as [Hne Hlook].
    destruct (Hrl _ _ Hlook) as (t' & Ht' & Hrun' & Hid').
    exists t'. split_and!; try done.
    rewrite list_lookup_alter_ne; [done|].
    intros ->. congruence.
  - intros h' t' Ht' Hrun'.
    destruct (decide (h = h')) as [->|Hne].
    + rewrite list_lookup_alter_eq, Ht in Ht'. simpl in Ht'.
      injection Ht' as <-. done.
    + rewrite list_lookup_alter_ne in Ht' by done.
      pose proof (Hlr _ _ Ht' Hrun') as Hreg.
      rewrite lookup_delete_ne; [done|].
      intros Heq. rewrite <- Heq in Hreg. congruence.
  - intros Hs. rewrite (Hsd Hs) in E. by rewrite lookup_empty in E.
Qed.

Lemma shutdown_flag_unscheduleJob jobId w :
  isShuttingDown (unscheduleJob jobId w).2 = isShuttingDown w.
Proof.
  destruct (scheduledTasks w !! jobId) as [h|] eqn:E.
  - by rewrite (unscheduleJob_present_run _ _ _ E).
  - by rewrite (unscheduleJob_absent_run _ _ E).
Qed.

(** Installing a fresh running task for an id that is not registered. *)
Lemma consistent_install job w :
  consistent w → isShuttingDown w = false →
  scheduledTasks w !! _id job = None →
  consistent
    (set_scheduledTasks (<[_id job := length (cronTasks w)]> (scheduledTasks w))
       (set_cronTasks (cronTasks w ++ [mkTask job (cronSchedule job) true]) w)).
Proof.
  intros [Hrl Hlr Hsd] Hflag Hfree. constructor; simpl.
  - intros id' h' Hlook.
    apply lookup_insert_Some in Hlook as [[<- <-]|[Hne Hlook]].
    + exists (mkTask job (cronSchedule job) true). split_and!; [|done|done].
      rewrite lookup_app_r by lia. by rewrite Nat.sub_diag.
    + destruct (Hrl _ _ Hlook) as (t' & Ht' & Hrun' & Hid').
      exists t'. split_and!; try done.
      rewrite lookup_app_l; [done|]. by eapply lookup_lt_Some.
  - intros h' t' Ht' Hrun'.
    apply lookup_app_Some in Ht' as [Ht'|[Hge Ht']].
    + pose proof (Hlr _ _ Ht' Hrun') as Hreg.
      rewrite lookup_insert_ne; [done|].
      intros Heq. rewrite Heq in Hfree. congruence.
    + apply list_lookup_singleton_Some in Ht' as [Hz <-]. simpl.
      replace h' with (length (cronTasks w)) by lia.
      by rewrite lookup_insert_eq.
  - intros Hs. congruence.
Qed.

Lemma consistent_scheduleJob job w :
  consistent w → consistent (scheduleJob job w).2.
Proof.
  intros Hc. rewrite scheduleJob_run.
  destruct (isShuttingDown w) eqn:Hflag; simpl.
  { by apply consistent_log. }
  pose proof (consistent_unscheduleJob (_id job) w Hc) as Hc1.
  pose proof (unscheduleJob_registry (_id job) w) as Hreg.
  pose proof (shutdown_flag_unscheduleJob (_id job) w) as Hfl.
  destruct (unscheduleJob (_id job) w) as [r w1]. simpl in *.
  case_bool_decide; [|by apply consistent_log].
  destruct (validation _ _) as [e|t]; simpl; [by apply consistent_log|].
  apply consistent_log. apply consistent_install; [done|congruence|].
  rewrite Hreg. apply lookup_delete_eq.
Qed.
End Invariant.

Section Lifecycle.
Context `{CronParser} `{NodeCron} `{Environment} `{Deployment}.
Import SchedulerManager.

(** What [forEach] over the registry entries does in [stop]. *)
Lemma stop_loop_run (entries : list (string * nat)) (w : World) :
  ∃ w', forEach entries
          (λ entry, task_stop entry.2;; logger INFO (StoppedJob entry.1)) w
        = (Ok tt, w') ∧
    cronTasks w' = stopAll entries.*2 (cronTasks w) ∧
    scheduledTasks w' = scheduledTasks w ∧
    isShuttingDown w' = isShuttingDown w ∧
    (isRunning w', intervalId w', intervalSeq w') =
      (isRunning w, intervalId w, intervalSeq w) ∧
    store w' = store w ∧ clock w' = clock w.
Proof.
  revert w. induction entries as [|[id h] entries IH]; intros w.
  - exists w. by split_and!.
  - simpl. unfold task_stop at 1. munfold. simpl.
    edestruct IH as (w' & -> & Ht & Hr & Hs & Hd & Hst & Hc).
    exists w'. split_and!; [done|..]; simpl in *; by rewrite ?Ht, ?Hr, ?Hs, ?Hd, ?Hst, ?Hc.
Qed.

Lemma stop_run (w : World) :
  ∃ w', stop w = (Ok tt, w') ∧
    cronTasks w' = stopAll (map_to_list (scheduledTasks w)).*2 (cronTasks w) ∧
    scheduledTasks w' = ∅ ∧
    isShuttingDown w' = isShuttingDown w ∧
    (isRunning w', intervalId w', intervalSeq w') =
      (isRunning w, intervalId w, intervalSeq w) ∧
    store w' = store w ∧ clock w' = clock w.
Proof.
  destruct (stop_loop_run (map_to_list (scheduledTasks w))
              (add_log (INFO, StoppingScheduler) w))
    as (w' & Hrun & Ht & Hr & Hs & Hd & Hst & Hc).
  unfold stop. munfold. simpl in *. rewrite Hrun.
  eexists. split; [reflexivity|]. simpl. by split_and!.
Qed.

Lemma shutdown_run (w : World) :
  ∃ w', shutdown w = (Ok tt, w') ∧
    cronTasks w' = stopAll (map_to_list (scheduledTasks w)).*2 (cronTasks w) ∧
    scheduledTasks w' = ∅ ∧
    isShuttingDown w' = true ∧
    isRunning w' = false ∧ intervalId w' = None ∧
    store w' = store w ∧ clock w' = clock w + 1000.
Proof.
  unfold shutdown, JobDiscovery.stop. munfold. simpl.
  match goal with |- context [stop ?w1] =>
    destruct (stop_run w1) as (w' & Hrun & Ht & Hr & Hs & Hd & Hst & Hc) end.
  rewrite Hrun.
  eexists. split; [reflexivity|]. simpl in *.
  injection Hd as Hd1 Hd2 Hd3.
  split_and!; try done. by rewrite Hc.
Qed.

(** A registered task is stopped by [stopAll] over the registry. *)
Lemma stopAll_registry_stopped (w : World) id h t :
  scheduledTasks w !! id = Some h →
  stopAll (map_to_list (scheduledTasks w)).*2 (cronTasks w) !! h = Some t →
  task_running t = false.
Proof.
  intros Hreg. rewrite lookup_stopAll.
  rewrite bool_decide_eq_true_2.
  - destruct (cronTasks w !! h) as [t0|]; simpl; [|done]. by intros [= <-].
  - apply list_elem_of_fmap. exists (id, h). split; [done|].
    by apply elem_of_map_to_list.
Qed.

Lemma stopAll_consistent_none_running (w : World) h t :
  consistent w →
  stopAll (map_to_list (scheduledTasks w)).*2 (cronTasks w) !! h = Some t →
  task_running t = false.
Proof.
  intros [Hrl Hlr Hsd]. rewrite lookup_stopAll.
  destruct (cronTasks w !! h) as [t0|] eqn:Et; simpl; [|done].
  case_bool_decide as Hin; intros [= <-]; [done|].
  destruct (task_running t0) eqn:Hrun; [|done].
  exfalso. apply Hin. apply list_elem_of_fmap.
  exists (_id (task_job t0), h). split; [done|].
  apply elem_of_map_to_list. by apply Hlr.
Qed.

Lemma consistent_stop w : consistent w → consistent (stop w).2.
Proof.
  intros Hc. destruct (stop_run w) as (w' & -> & Ht & Hr & Hs & _). simpl.
  constructor.
  - intros id h Hl. rewrite Hr in Hl. by rewrite lookup_empty in Hl.
  - intros h t Hl Hrun. rewrite Ht in Hl.
    pose proof (stopAll_consistent_none_running _ _ _ Hc Hl). congruence.
  - done.
Qed.

Lemma consistent_shutdown w : consistent w → consistent (shutdown w).2.
Proof.
  intros Hc. destruct (shutdown_run w) as (w' & -> & Ht & Hr & Hs & _). simpl.
  constructor.
  - intros id h Hl. rewrite Hr in Hl. by rewrite lookup_empty in Hl.
  - intros h t Hl Hrun. rewrite Ht in Hl.
    pose proof (stopAll_consistent_none_running _ _ _ Hc Hl). congruence.
  - done.
Qed.

Lemma stable_consistent_framed {A} (m : M A) : framed m → stable consistent m.
Proof. intros Hf w Hc. eapply consistent_frame; [apply Hf | exact Hc]. Qed.

Lemma stable_consistent_scheduleJob job : stable consistent (scheduleJob job).
Proof. intros w. apply consistent_scheduleJob. Qed.

Lemma stable_consistent_unscheduleJob id : stable consistent (unscheduleJob id).
Proof. intros w. apply consistent_unscheduleJob. Qed.

Lemma stable_consistent_log lvl ev : stable consistent (logger lvl ev).
Proof. apply stable_modify. intros w. apply consistent_log. Qed.

Lemma stable_consistent_discovery_start : stable consistent JobDiscovery.start.
Proof.
  unfold JobDiscovery.start.
  repeat first [apply stable_consistent_log | stable_step].
  apply stable_modify. intros w [? ? ?]. by constructor.
Qed.

Lemma stable_consistent_onTick job : stable consistent (onTick job).
Proof.
  unfold onTick.
  repeat first
    [ apply stable_consistent_log
    | apply stable_consistent_framed, executeJob_framed
    | apply stable_consistent_framed, execute_framed
    | stable_step ].
Qed.

Lemma stable_consistent_fire task : stable consistent (fire task).
Proof.
  unfold fire. repeat first [apply stable_consistent_onTick | stable_step].
Qed.

Lemma stable_consistent_start : stable consistent start.
Proof.
  unfold start.
  repeat first
    [ apply stable_consistent_log
    | apply stable_consistent_discovery_start
    | apply stable_forEach; intros ?; apply stable_consistent_scheduleJob
    | apply stable_consistent_framed, getActiveJobs_framed
    | stable_step ].
Qed.

Lemma stable_consistent_discover : stable consistent discoverAndScheduleJobs.
Proof.
  unfold discoverAndScheduleJobs, JobDiscovery.discoverAndScheduleJobs,
    this, getScheduledJobIds. simpl.
  repeat first
    [ apply stable_consistent_log
    | apply stable_forEach; intros ?; apply stable_consistent_scheduleJob
    | apply stable_forEach; intros ?; apply stable_consistent_unscheduleJob
    | apply stable_consistent_framed, getActiveJobs_framed
    | stable_step ].
Qed.

Lemma stable_consistent_onInterval : stable consistent onInterval.
Proof.
  unfold onInterval, JobDiscovery.onInterval.
  repeat first
    [ apply stable_consistent_log
    | apply stable_consistent_discover
    | stable_step ].
Qed.

Lemma consistent_step w ev : consistent w → consistent (step w ev).
Proof.
  intros Hc. destruct ev; simpl.
  - by apply consistent_scheduleJob.
  - by apply consistent_unscheduleJob.
  - by apply stable_consistent_start.
  - by apply consistent_stop.
  - by apply consistent_shutdown.
  - by apply stable_consistent_fire.
  - by apply stable_consistent_onInterval.
  - destruct Hc. by constructor.
  - destruct Hc. by constructor.
Qed.

Lemma consistent_initial now s : consistent (initialWorld now s).
Proof. constructor; simpl; [|done..]. intros id h. by rewrite lookup_empty. Qed.

Lemma consistent_run evs w : consistent w → consistent (run evs w).
Proof.
  revert w. induction evs as [|ev evs IH]; intros w Hc; simpl; [done|].
  apply IH. by apply consistent_step.
Qed.
End Lifecycle.

Lemma filter_unique_length {A} (P : A → Prop) `{!∀ x, Decision (P x)} (l : list A) :
  (∀ i j x y, l !! i = Some x → l !! j = Some y → P x → P y → i = j) →
  (length (filter P l) ≤ 1)%nat.
Proof.
  induction l as [|a l IH]; intros Huniq; simpl; [lia|].
  rewrite filter_cons. destruct (decide (P a)) as [Ha|Ha].
  - assert (filter P l = []) as ->; [|simpl; lia].
    destruct (filter P l) as [|y l'] eqn:E; [done|].
    assert (y ∈ filter P l) as Hy by (rewrite E; left).
    apply list_elem_of_filter in Hy as [Hy Hin].
    apply list_elem_of_lookup in Hin as [j Hj].
    specialize (Huniq 0%nat (S j) a y eq_refl Hj Ha Hy). lia.
  - apply IH. intros i j x y Hi Hj Hx Hy.
    specialize (Huniq (S i) (S j) x y Hi Hj Hx Hy). lia.
Qed.

Lemma filter_exists_length {A} (P : A → Prop) `{!∀ x, Decision (P x)} (l : list A) x :
  x ∈ l → P x → (1 ≤ length (filter P l))%nat.
Proof.
  intros Hin Hx.
  assert (x ∈ filter P l) as Hf by (by apply list_elem_of_filter).
  destruct (filter P l); [by apply not_elem_of_nil in Hf | simpl; lia].
Qed.

Lemma isLive_true id t :
  isLive id t = true ↔ task_running t = true ∧ _id (task_job t) = id.
Proof.
  unfold isLive. rewrite andb_true_iff, String.eqb_eq. done.
Qed.

Lemma liveCount_le_1 id w : consistent w → (liveCount id w ≤ 1)%nat.
Proof.
  intros [Hrl Hlr Hsd]. unfold liveCount. apply filter_unique_length.
  intros i j x y Hi Hj [Hrx Hix]%isLive_true [Hry Hiy]%isLive_true.
  pose proof (Hlr _ _ Hi Hrx) as H1. pose proof (Hlr _ _ Hj Hry) as H2.
  rewrite Hix in H1. rewrite Hiy in H2. congruence.
Qed.

Lemma liveCount_registered id h w :
  consistent w → scheduledTasks w !! id = Some h → liveCount id w = 1%nat.
Proof.
  intros Hc Hreg. pose proof (liveCount_le_1 id w Hc) as Hle.
  destruct Hc as [Hrl Hlr Hsd].
  destruct (Hrl _ _ Hreg) as (t & Ht & Hrun & Hid).
  assert (1 ≤ liveCount id w)%nat; [|lia].
  unfold liveCount. eapply filter_exists_length.
  - eapply list_elem_of_lookup_2, Ht.
  - by apply isLive_true.
Qed.

Lemma liveCount_unregistered id w :
  consistent w → scheduledTasks w !! id = None → liveCount id w = 0%nat.
Proof.
  intros [Hrl Hlr Hsd] Hreg. unfold liveCount.
  destruct (filter _ _) as [|t l] eqn:E; [done|].
  assert (t ∈ filter (λ t, isLive id t = true) (cronTasks w)) as Hin
    by (rewrite E; left).
  apply list_elem_of_filter in Hin as [[Hrun Hid]%isLive_true Hin].
  apply list_elem_of_lookup in Hin as [h Hh].
  pose proof (Hlr _ _ Hh Hrun) as Hx. rewrite Hid in Hx. congruence.
Qed.

Lemma registeredIds_once id h w :
  scheduledTasks w !! id = Some h →
  length (filter (λ x, x = id) (registeredIds w)) = 1%nat.
Proof.
  intros Hreg. unfold registeredIds.
  assert (NoDup (map_to_list (scheduledTasks w)).*1) as Hnd
    by apply NoDup_fst_map_to_list.
  assert (id ∈ (map_to_list (scheduledTasks w)).*1) as Hin.
  { apply list_elem_of_fmap. exists (id, h). split; [done|].
    by apply elem_of_map_to_list. }
  revert Hnd Hin. generalize ((map_to_list (scheduledTasks w)).*1) as l.
  induction l as [|a l IH]; intros Hnd Hin; [by apply not_elem_of_nil in Hin|].
  apply NoDup_cons in Hnd as [Hna Hnd]. rewrite filter_cons.
  destruct (decide (a = id)) as [->|Hne]; simpl.
  - f_equal. destruct (filter _ l) as [|y l'] eqn:E; [done|].
    assert (y ∈ filter (λ x, x = id) l) as Hy by (rewrite E; left).
    apply list_elem_of_filter in Hy as [-> Hy]. done.
  - apply IH; [done|]. apply elem_of_cons in Hin as [?|?]; [congruence|done].
Qed.

Section Registration.
Context `{CronParser} `{NodeCron} `{Environment} `{Deployment}.
Import SchedulerManager.

(** C9: cancelling a job id that is not registered is a no-op:
    [unscheduleJob] returns normally and leaves the world, and with it the
    registry's entry map, unchanged. *)
Theorem unscheduleJob_unregistered_noop (jobId : string) (w : World) :
  scheduledTasks w !! jobId = None →
  unscheduleJob jobId w = (Ok tt, w).
Proof. apply unscheduleJob_absent_run. Qed.

(** C10: with the scheduler not shutting down, [scheduleJob] on a job
    whose status is not [active] returns without error and is the
    unschedule of that id followed by one log line: the entry of the id is
    deleted from the registry, the task it pointed to is stopped, no task
    is installed, and no timer of the job stays live. *)
Theorem scheduleJob_not_active_unschedules (job : Job) (w : World) :
  isShuttingDown w = false →
  status job ≠ active →
  let w1 := (unscheduleJob (_id job) w).2 in
  scheduleJob job w = (Ok tt, add_log (INFO, JobNotActive (_id job)) w1) ∧
  scheduledTasks (scheduleJob job w).2 = delete (_id job) (scheduledTasks w) ∧
  (∀ h t, scheduledTasks w !! _id job = Some h →
          cronTasks (scheduleJob job w).2 !! h = Some t → task_running t = false) ∧
  length (cronTasks (scheduleJob job w).2) = length (cronTasks w) ∧
  (consistent w → liveCount (_id job) (scheduleJob job w).2 = 0%nat).
Proof.
  intros Hflag Hst w1.
  assert (scheduleJob job w = (Ok tt, add_log (INFO, JobNotActive (_id job)) w1)) as Hrun.
  { rewrite scheduleJob_run, Hflag. simpl. by rewrite bool_decide_eq_false_2. }
  assert (consistent w → liveCount (_id job) (scheduleJob job w).2 = 0%nat) as Hlive.
  { intros Hc. apply liveCount_unregistered; [by apply consistent_scheduleJob|].
    rewrite Hrun. simpl. subst w1.
    rewrite unscheduleJob_registry. apply lookup_delete_eq. }
  refine (conj Hrun (conj _ (conj _ (conj _ Hlive)))); rewrite Hrun; simpl; subst w1.
  - apply unscheduleJob_registry.
  - intros h t Hreg. rewrite (unscheduleJob_present_run _ _ _ Hreg). simpl.
    rewrite list_lookup_alter_eq.
    destruct (cronTasks w !! h); simpl; [|done]. by intros [= <-].
  - destruct (scheduledTasks w !! _id job) as [h0|] eqn:E.
    + rewrite (unscheduleJob_present_run _ _ _ E). simpl. by rewrite length_alter.
    + by rewrite (unscheduleJob_absent_run _ _ E).
Qed.

(** C4: at any point of any run, [scheduleJob] on a job whose
    cronSchedule fails validation returns normally and registers nothing:
    the job id is absent from the registry afterwards, no timer of the job
    is live, no task has been installed, and when scheduling was attempted
    (not shutting down, job active) the failure is logged. *)
Theorem scheduleJob_invalid_not_registered
    (evs : list Event) (now : Z) (s : gmap string JobDoc) (job : Job) (e : Error) :
  let w := run evs (initialWorld now s) in
  validation (cronSchedule job) (clock w) = inl e →
  (scheduleJob job w).1 = Ok tt ∧
  scheduledTasks (scheduleJob job w).2 !! _id job = None ∧
  liveCount (_id job) (scheduleJob job w).2 = 0%nat ∧
  length (cronTasks (scheduleJob job w).2) = length (cronTasks w) ∧
  (isShuttingDown w = false → status job = active →
   ∃ w1, (scheduleJob job w).2 = add_log (ERROR, FailedToSchedule (_id job) e) w1).
Proof.
  intros w Hinv.
  assert (consistent w) as Hc by apply consistent_run, consistent_initial.
  assert (scheduledTasks (scheduleJob job w).2 !! _id job = None) as Hnone.
  { rewrite scheduleJob_run.
    destruct (isShuttingDown w) eqn:Hflag; simpl.
    { rewrite (shutdown_empty _ Hc Hflag). apply lookup_empty. }
    pose proof (unscheduleJob_registry (_id job) w) as Hreg.
    destruct (unscheduleJob (_id job) w) as [r w1]. simpl in *.
    rewrite Hinv. case_bool_decide; simpl; rewrite Hreg; apply lookup_delete_eq. }
  split_and!.
  - rewrite scheduleJob_run. destruct (isShuttingDown w); [done|]. simpl.
    case_bool_decide; [|done]. by rewrite Hinv.
  - done.
  - apply liveCount_unregistered; [|done]. by apply consistent_scheduleJob.
  - rewrite scheduleJob_run. destruct (isShuttingDown w); [done|]. simpl.
    assert (length (cronTasks (unscheduleJob (_id job) w).2) = length (cronTasks w)) as Hlen.
    { destruct (scheduledTasks w !! _id job) as [h0|] eqn:E.
      - rewrite (unscheduleJob_present_run _ _ _ E). simpl. by rewrite length_alter.
      - by rewrite (unscheduleJob_absent_run _ _ E). }
    case_bool_decide; [|done]. by rewrite Hinv.
  - intros Hflag Hact. rewrite scheduleJob_run, Hflag. simpl.
    rewrite bool_decide_eq_true_2 by done. rewrite Hinv. by eexists.
Qed.
End Registration.

Ltac flag_step :=
  first
    [ apply stable_modify; intros ? ?; reflexivity
    | stable_step ].

Section Shutdown.
Context `{CronParser} `{NodeCron} `{Environment} `{Deployment}.
Import SchedulerManager.

Lemma stable_down_framed {A} (m : M A) : framed m → stable shuttingDown m.
Proof.
  intros Hf w Hw. specialize (Hf w). unfold schedulerState in Hf.
  unfold shuttingDown in *. congruence.
Qed.

Lemma stable_down_unscheduleJob id : stable shuttingDown (unscheduleJob id).
Proof. unfold unscheduleJob, task_stop. repeat flag_step. Qed.

Lemma stable_down_scheduleJob job : stable shuttingDown (scheduleJob job).
Proof.
  unfold scheduleJob, cron_schedule.
  repeat first [apply stable_down_unscheduleJob | flag_step].
Qed.

Lemma stable_down_step w ev : shuttingDown w → shuttingDown (step w ev).
Proof.
  intros Hw. destruct ev; simpl.
  - by apply stable_down_scheduleJob.
  - by apply stable_down_unscheduleJob.
  - revert w Hw. change (stable shuttingDown start). unfold start, JobDiscovery.start.
    repeat first
      [ apply stable_forEach; intros ?; apply stable_down_scheduleJob
      | apply stable_down_framed, getActiveJobs_framed
      | flag_step ].
  - revert w Hw. change (stable shuttingDown stop). unfold stop, task_stop.
    repeat first [ apply stable_forEach; intros ? | flag_step ].
  - by destruct (shutdown_run w) as (w' & -> & _ & _ & ? & _).
  - revert w Hw. change (stable shuttingDown (fire task)). unfold fire, onTick.
    repeat first
      [ apply stable_down_framed, executeJob_framed
      | apply stable_down_framed, execute_framed
      | flag_step ].
  - revert w Hw. change (stable shuttingDown onInterval).
    unfold onInterval, JobDiscovery.onInterval,
      JobDiscovery.discoverAndScheduleJobs, this, getScheduledJobIds. simpl.
    repeat first
      [ apply stable_forEach; intros ?; apply stable_down_scheduleJob
      | apply stable_forEach; intros ?; apply stable_down_unscheduleJob
      | apply stable_down_framed, getActiveJobs_framed
      | flag_step ].
  - done.
  - done.
Qed.

Lemma down_run evs w : shuttingDown w → shuttingDown (run evs w).
Proof.
  revert w. induction evs as [|ev evs IH]; intros w Hw; simpl; [done|].
  apply IH. by apply stable_down_step.
Qed.

Lemma fire_shutting_down task w :
  isShuttingDown w = true →
  fire task w = (Ok tt, w) ∨
  ∃ id, fire task w = (Ok tt, add_log (WARN, SkipExecutionShutdown id) w).
Proof.
  intros Hflag. unfold fire, onTick. munfold.
  destruct (cronTasks w !! task) as [t|]; [|by left].
  destruct (task_running t); [|by left].
  rewrite Hflag. right. by eexists.
Qed.

Lemma onInterval_shutting_down w :
  isShuttingDown w = true → onInterval w = (Ok tt, w).
Proof.
  intros Hflag. unfold onInterval, JobDiscovery.onInterval. munfold.
  destruct (intervalId w); [|done]. by rewrite Hflag.
Qed.

Lemma onInterval_cleared w :
  intervalId w = None → onInterval w = (Ok tt, w).
Proof.
  intros Hnone. unfold onInterval, JobDiscovery.onInterval. munfold.
  by rewrite Hnone.
Qed.

(** C8: [shutdown] returns normally with the flag set, the discovery
    loop stopped (its interval cleared, so its callback does nothing), the
    registry empty ([count()] is 0), every task that was registered
    stopped, and the clock advanced by the fixed grace period of 1000 ms.
    With the flag set, every [scheduleJob] call only logs and registers
    nothing, and every timer firing is rejected before the executor is
    called.  After [shutdown], whatever happens next, the flag stays set,
    the registry stays empty and no timer is live. *)
Theorem shutdown_rejects_and_cancels :
  (∀ w, ∃ w',
      shutdown w = (Ok tt, w') ∧
      isShuttingDown w' = true ∧
      isRunning w' = false ∧ intervalId w' = None ∧
      onInterval w' = (Ok tt, w') ∧
      scheduledTasks w' = ∅ ∧ registeredCount w' = 0%nat ∧
      (∀ id h t, scheduledTasks w !! id = Some h →
                 cronTasks w' !! h = Some t → task_running t = false) ∧
      clock w' = clock w + 1000) ∧
  (∀ w, isShuttingDown w = true →
      (∀ job, scheduleJob job w =
                (Ok tt, add_log (WARN, SkipSchedulingShutdown (_id job)) w)) ∧
      (∀ task, fire task w = (Ok tt, w) ∨
               ∃ id, fire task w =
                       (Ok tt, add_log (WARN, SkipExecutionShutdown id) w))) ∧
  (∀ w evs, consistent w →
      let w' := run evs (shutdown w).2 in
      isShuttingDown w' = true ∧ scheduledTasks w' = ∅ ∧
      registeredCount w' = 0%nat ∧ ∀ id, liveCount id w' = 0%nat).
Proof.
  split_and!.
  - intros w. destruct (shutdown_run w) as (w' & Hrun & Ht & Hr & Hs & Hd & Hi & Hst & Hc).
    exists w'. split_and!; try done.
    + by apply onInterval_cleared.
    + unfold registeredCount. by rewrite Hr, map_size_empty.
    + intros id h t Hreg Hl. rewrite Ht in Hl.
      by eapply stopAll_registry_stopped.
  - intros w Hflag. split.
    + intros job. by rewrite scheduleJob_run, Hflag.
    + intros task. by apply fire_shutting_down.
  - intros w evs Hc w'.
    assert (consistent w') as Hc'.
    { apply consistent_run. by apply consistent_shutdown. }
    assert (isShuttingDown w' = true) as Hflag.
    { apply down_run. by destruct (shutdown_run w) as (w1 & -> & _ & _ & ? & _). }
    pose proof (shutdown_empty _ Hc' Hflag) as Hempty.
    split_and!; try done.
    + unfold registeredCount. by rewrite Hempty, map_size_empty.
    + intros id. apply liveCount_unregistered; [done|].
      by rewrite Hempty, lookup_empty.
Qed.

Lemma scheduleJob_valid_run (job : Job) (w : World) :
  isShuttingDown w = false → status job = active →
  (∀ now, ∃ t, validation (cronSchedule job) now = inr t) →
  (scheduleJob job w).1 = Ok tt ∧
  isShuttingDown (scheduleJob job w).2 = false ∧
  (∃ h, scheduledTasks (scheduleJob job w).2 = <[_id job := h]> (scheduledTasks w)).
Proof.
  intros Hflag Hact Hvalid. rewrite scheduleJob_run, Hflag. simpl.
  rewrite bool_decide_eq_true_2 by done.
  pose proof (unscheduleJob_registry (_id job) w) as Hreg.
  pose proof (shutdown_flag_unscheduleJob (_id job) w) as Hfl.
  destruct (unscheduleJob (_id job) w) as [r w1]. simpl in *.
  destruct (Hvalid (clock w)) as [t ->]. simpl.
  split_and!; [done|congruence|].
  eexists. rewrite Hreg. apply insert_delete_eq.
Qed.

(** C5: at every point of every run there is at most one live timer
    entry per job id; and from any such point, with the scheduler not
    shutting down, registering an active job with a valid cron expression
    twice succeeds both times and leaves exactly one live entry for its
    id, listed exactly once by [listRegisteredIds]. *)
Theorem scheduleJob_twice_one_live_entry
    (evs : list Event) (now : Z) (s : gmap string JobDoc) :
  let w := run evs (initialWorld now s) in
  (∀ id, (liveCount id w ≤ 1)%nat) ∧
  ∀ job : Job,
    isShuttingDown w = false → status job = active →
    (∀ now, ∃ t, validation (cronSchedule job) now = inr t) →
    let w1 := (scheduleJob job w).2 in
    let w2 := (scheduleJob job w1).2 in
    (scheduleJob job w).1 = Ok tt ∧ (scheduleJob job w1).1 = Ok tt ∧
    liveCount (_id job) w1 = 1%nat ∧
    liveCount (_id job) w2 = 1%nat ∧
    length (filter (λ x, x = _id job) (registeredIds w2)) = 1%nat ∧
    (∀ id, (liveCount id w2 ≤ 1)%nat).
Proof.
  intros w.
  assert (consistent w) as Hc by apply consistent_run, consistent_initial.
  split; [intros id; by apply liveCount_le_1|].
  intros job Hflag Hact Hvalid w1 w2.
  destruct (scheduleJob_valid_run job w Hflag Hact Hvalid) as (Hok1 & Hflag1 & h1 & Hreg1).
  fold w1 in Hflag1, Hreg1.
  destruct (scheduleJob_valid_run job w1 Hflag1 Hact Hvalid) as (Hok2 & Hflag2 & h2 & Hreg2).
  fold w2 in Hflag2, Hreg2.
  assert (consistent w1) as Hc1 by by apply consistent_scheduleJob.
  assert (consistent w2) as Hc2 by by apply consistent_scheduleJob.
  split_and!; try done.
  - eapply liveCount_registered; [done|]. rewrite Hreg1. apply lookup_insert_eq.
  - eapply liveCount_registered; [done|]. rewrite Hreg2. apply lookup_insert_eq.
  - eapply registeredIds_once. rewrite Hreg2. apply lookup_insert_eq.
  - intros id. by apply liveCount_le_1.
Qed.
End Shutdown.

Lemma activeJobs_elem (s : gmap string JobDoc) (job : Job) :
  job ∈ activeJobs s ↔ s !! _id job = Some (fields job) ∧ status job = active.
Proof.
  unfold activeJobs. rewrite list_elem_of_filter, list_elem_of_fmap. split.
  - intros [Hact ([id d] & -> & Hin)]. simpl in *.
    split; [by apply elem_of_map_to_list|done].
  - intros [Hl Hact]. split; [done|]. exists (_id job, fields job).
    split; [by destruct job|]. by apply elem_of_map_to_list.
Qed.

Lemma activeJobs_ids (s : gmap string JobDoc) :
  list_to_set (_id <$> activeJobs s) = activeIds s.
Proof.
  apply set_eq. intros id. unfold activeIds.
  rewrite elem_of_list_to_set, list_elem_of_fmap, elem_of_dom. split.
  - intros (job & -> & [Hl Hact]%activeJobs_elem).
    exists (fields job). by apply map_lookup_filter_Some.
  - intros [d [Hl Hact]%map_lookup_filter_Some]. simpl in *.
    exists (mkJob id d). split; [done|]. by apply activeJobs_elem.
Qed.

Lemma forEach_guard {A} (l : list A) (f : A → M unit) :
  (if (0 <? length l)%nat then forEach l f else mret tt) = forEach l f.
Proof. by destruct l. Qed.

Section Discovery.
Context `{CronParser} `{NodeCron} `{Environment} `{Deployment}.
Import SchedulerManager.

Lemma getActiveJobs_run (w : World) :
  ∃ w1, JobService.getActiveJobs w = (Ok (activeJobs (store w)), w1) ∧
        schedulerState w1 = schedulerState w ∧ store w1 = store w.
Proof.
  unfold JobService.getActiveJobs, JobRepository.findActiveJobs,
    JobModel.findActiveJobs, JobModel.awaitIO. munfold. simpl.
  eexists. split; [reflexivity|]. by split.
Qed.

Lemma forEach_scheduleJob_dom (l : list Job) (w : World) :
  isShuttingDown w = false →
  (∀ job : Job, job ∈ l → status job = active ∧
     ∀ now, ∃ t, validation (cronSchedule job) now = inr t) →
  ∃ w', forEach l (λ job, scheduleJob job) w = (Ok tt, w') ∧
        isShuttingDown w' = false ∧
        dom (scheduledTasks w') = dom (scheduledTasks w) ∪ list_to_set (_id <$> l).
Proof.
  revert w. induction l as [|job l IH]; intros w Hflag Hvalid.
  - exists w. split_and!; [done..|].
    rewrite fmap_nil, list_to_set_nil. by rewrite (right_id_L ∅ (∪)).
  - destruct (Hvalid job) as [Hact Hv]; [left|].
    destruct (scheduleJob_valid_run job w Hflag Hact Hv) as (Hok & Hflag1 & h & Hreg).
    destruct (scheduleJob job w) as [r w1] eqn:E. simpl in *. subst r.
    destruct (IH w1 Hflag1) as (w' & Hrun & Hflag' & Hdom).
    { intros j Hj. apply Hvalid. by right. }
    exists w'. split_and!; [|done|].
    + munfold. by rewrite E.
    + rewrite Hdom, Hreg, dom_insert_L.
      rewrite (comm_L (∪) {[_id job]} (dom (scheduledTasks w))).
      by rewrite <- (assoc_L (∪)).
Qed.

Lemma forEach_unscheduleJob_dom (l : list string) (w : World) :
  ∃ w', forEach l (λ jobId, unscheduleJob jobId) w = (Ok tt, w') ∧
        isShuttingDown w' = isShuttingDown w ∧
        dom (scheduledTasks w') = dom (scheduledTasks w) ∖ list_to_set l.
Proof.
  revert w. induction l as [|id l IH]; intros w.
  - exists w. split_and!; [done..|].
    by rewrite list_to_set_nil, difference_empty_L.
  - pose proof (unscheduleJob_ok id w) as Hok.
    pose proof (unscheduleJob_registry id w) as Hreg.
    pose proof (shutdown_flag_unscheduleJob id w) as Hfl.
    destruct (unscheduleJob id w) as [r w1] eqn:E. simpl in *. subst r.
    destruct (IH w1) as (w' & Hrun & Hflag' & Hdom).
    exists w'. split_and!; [|congruence|].
    + munfold. by rewrite E.
    + rewrite Hdom, Hreg, dom_delete_L.
      by rewrite difference_difference_l_L.
Qed.

Lemma registeredIds_dom (w : World) :
  list_to_set (registeredIds w) = dom (scheduledTasks w).
Proof.
  apply set_eq. intros id. unfold registeredIds.
  rewrite elem_of_list_to_set, list_elem_of_fmap, elem_of_dom. split.
  - intros ([i h] & -> & Hin). exists h. by apply elem_of_map_to_list.
  - intros [h Hl]. exists (id, h). split; [done|]. by apply elem_of_map_to_list.
Qed.

(** C2, as amended: with the scheduler not shutting down and every
    active job of the store carrying a cronSchedule that passes the
    validation of [scheduleJob], one reconciliation pass returns normally
    and the set of registered job ids then equals the set of ids of the
    jobs with [status = active] in the store. *)
Theorem discovery_converges_on_valid_store (w : World) :
  isShuttingDown w = false →
  (∀ id d, store w !! id = Some d → status d = active →
     ∀ now, ∃ t, validation (cronSchedule d) now = inr t) →
  ∃ w', discoverAndScheduleJobs w = (Ok tt, w') ∧
        list_to_set (registeredIds w') = activeIds (store w).
Proof.
  intros Hflag Hvalid.
  unfold discoverAndScheduleJobs, JobDiscovery.discoverAndScheduleJobs.
  destruct (getActiveJobs_run w) as (w1 & Hget & Hfr & Hst).
  unfold schedulerState in Hfr. injection Hfr as Ht Hr Hs _ _ _.
  pose proof (@forEach_guard Job) as G1.
  pose proof (@forEach_guard string) as G2.
  munfold. rewrite Hget. simpl.
  rewrite G1, G2. clear G1 G2.
  change (map_to_list (scheduledTasks w1)).*1 with (registeredIds w1).
  set (current := list_to_set (registeredIds w1) : gset string).
  set (newJobs := filter (λ job : Job, _id job ∉ current) (activeJobs (store w))).
  set (gone := filter (λ jobId, jobId ∉ (list_to_set (_id <$> activeJobs (store w)) : gset string))
                      (elements current)).
  destruct (forEach_scheduleJob_dom newJobs w1) as (w2 & Hrun2 & Hflag2 & Hdom2).
  { congruence. }
  { intros job [Hnew [Hl Hact]%activeJobs_elem]%list_elem_of_filter.
    split; [done|]. by eapply Hvalid. }
  rewrite Hrun2.
  destruct (forEach_unscheduleJob_dom gone w2) as (w3 & Hrun3 & Hflag3 & Hdom3).
  rewrite Hrun3.
  assert (list_to_set (registeredIds w3) = activeIds (store w)) as Hgoal.
  { rewrite registeredIds_dom, Hdom3, Hdom2.
    assert (current = dom (scheduledTasks w1)) as Hcur by apply registeredIds_dom.
    rewrite <- Hcur. rewrite <- activeJobs_ids.
    apply set_eq. intros id.
    rewrite elem_of_difference, elem_of_union.
    rewrite !(elem_of_list_to_set (C:=gset string)).
    subst newJobs gone.
    rewrite !list_elem_of_fmap.
    rewrite list_elem_of_filter, elem_of_elements.
    rewrite (elem_of_list_to_set (C:=gset string)), list_elem_of_fmap.
    split.
    - intros [[Hin|(job & -> & [Hnew Hact]%list_elem_of_filter)] Hnot].
      + destruct (decide (id ∈ _id <$> activeJobs (store w))) as [Hyes|Hno].
        * by apply list_elem_of_fmap in Hyes.
        * exfalso. apply Hnot. split; [|done].
          intros Hx. apply Hno. by apply list_elem_of_fmap.
      + by exists job.
    - intros (job & -> & Hact). split.
      + destruct (decide (_id job ∈ current)) as [Hyes|Hno]; [by left|].
        right. exists job. split; [done|]. by apply list_elem_of_filter.
      + intros [Hnot _]. apply Hnot. by exists job. }
  destruct (_ || _); simpl; eexists; (split; [reflexivity|]); done.
Qed.
End Discovery.

Section StoreOperations.
Context `{CronParser} `{Environment} `{Deployment}.

(** The instance methods change [status] and [lastRun], which the schema
    always accepts: the document is valid after them when it was before. *)
Lemma validate_marked (t : option Z) (s : Status) (d : JobDoc) :
  JobModel.validate (with_lastRun t (with_status s d)) = JobModel.validate d.
Proof. reflexivity. Qed.

Lemma validate_rescheduled (t : Z) (n : option Z) (d : JobDoc) :
  JobModel.validate (with_updatedAt t (with_nextRun n d)) = JobModel.validate d.
Proof. reflexivity. Qed.

Lemma validate_stamped (t : Z) (d : JobDoc) :
  JobModel.validate (with_updatedAt t d) = JobModel.validate d.
Proof. reflexivity. Qed.

Lemma markJobFailed_run (id : string) (d : JobDoc) (w : World) :
  store w !! id = Some d →
  JobModel.validate d = inr tt →
  let t := clock w + ioLatency in
  ∃ r w', JobService.markJobFailed id w = (Ok r, w') ∧
    store w' = <[id := with_updatedAt t (with_lastRun (Some t) (with_status failureStatus d))]> (store w) ∧
    clock w' = t + ioLatency.
Proof.
  intros Hd Hv t.
  unfold JobService.markJobFailed, JobRepository.markFailed, JobModel.findById,
    JobModel.markFailed, JobModel.save, JobModel.awaitIO. munfold. simpl.
  rewrite Hd. simpl. rewrite validate_marked, Hv. simpl. rewrite Hd. simpl.
  do 2 eexists. split; [reflexivity|]. simpl. by split.
Qed.

Lemma markJobFailed_logs (id : string) (d : JobDoc) (w : World) :
  store w !! id = Some d →
  JobModel.validate d = inr tt →
  logs (JobService.markJobFailed id w).2
    = logs w ++ [(INFO, RepositoryLog "markFailed" id)].
Proof.
  intros Hd Hv.
  unfold JobService.markJobFailed, JobRepository.markFailed, JobModel.findById,
    JobModel.markFailed, JobModel.save, JobModel.awaitIO. munfold. simpl.
  rewrite Hd. simpl. rewrite validate_marked, Hv. simpl. rewrite Hd. reflexivity.
Qed.

(** A record the schema refuses is not written: the [ValidationError]
    of [save] passes through the repository and the service. *)
Lemma markJobFailed_invalid_run (id : string) (d : JobDoc) (e : Error) (w : World) :
  store w !! id = Some d →
  JobModel.validate d = inl e →
  ∃ w', JobService.markJobFailed id w = (Throw e, w') ∧
    store w' = store w ∧ schedulerState w' = schedulerState w.
Proof.
  intros Hd Hv.
  unfold JobService.markJobFailed, JobRepository.markFailed, JobModel.findById,
    JobModel.markFailed, JobModel.save, JobModel.awaitIO. munfold. simpl.
  rewrite Hd. simpl. rewrite validate_marked, Hv. simpl.
  eexists. by split_and!.
Qed.

Lemma markJobFailed_missing (id : string) (w : World) :
  store w !! id = None →
  (JobService.markJobFailed id w).1 = Throw "Job not found".
Proof.
  intros Hd.
  unfold JobService.markJobFailed, JobRepository.markFailed, JobModel.findById,
    JobModel.awaitIO. munfold. simpl. by rewrite Hd.
Qed.

Lemma markJobCompleted_run (id : string) (d : JobDoc) (w : World) :
  store w !! id = Some d →
  JobModel.validate d = inr tt →
  let t := clock w + ioLatency in
  ∃ r w', JobService.markJobCompleted id w = (Ok r, w') ∧
    store w' = <[id := with_updatedAt t (with_lastRun (Some t) (with_status active d))]> (store w) ∧
    clock w' = t + ioLatency.
Proof.
  intros Hd Hv t.
  unfold JobService.markJobCompleted, JobRepository.markCompleted, JobModel.findById,
    JobModel.markCompleted, JobModel.save, JobModel.awaitIO. munfold. simpl.
  rewrite Hd. simpl. rewrite validate_marked, Hv. simpl. rewrite Hd. simpl.
  do 2 eexists. split; [reflexivity|]. simpl. by split.
Qed.

Lemma markJobCompleted_invalid_run (id : string) (d : JobDoc) (e : Error) (w : World) :
  store w !! id = Some d →
  JobModel.validate d = inl e →
  ∃ w', JobService.markJobCompleted id w = (Throw e, w') ∧
    store w' = store w ∧ schedulerState w' = schedulerState w.
Proof.
  intros Hd Hv.
  unfold JobService.markJobCompleted, JobRepository.markCompleted, JobModel.findById,
    JobModel.markCompleted, JobModel.save, JobModel.awaitIO. munfold. simpl.
  rewrite Hd. simpl. rewrite validate_marked, Hv. simpl.
  eexists. by split_and!.
Qed.

Lemma markJobCompleted_missing_run (id : string) (w : World) :
  store w !! id = None →
  ∃ w', JobService.markJobCompleted id w = (Throw "Job not found", w') ∧
        store w' = store w ∧ schedulerState w' = schedulerState w.
Proof.
  intros Hd.
  unfold JobService.markJobCompleted, JobRepository.markCompleted, JobModel.findById,
    JobModel.awaitIO. munfold. simpl. rewrite Hd. simpl.
  eexists. by split_and!.
Qed.

Lemma markJobFailed_missing_run (id : string) (w : World) :
  store w !! id = None →
  ∃ w', JobService.markJobFailed id w = (Throw "Job not found", w') ∧
        store w' = store w ∧ schedulerState w' = schedulerState w.
Proof.
  intros Hd.
  unfold JobService.markJobFailed, JobRepository.markFailed, JobModel.findById,
    JobModel.awaitIO. munfold. simpl. rewrite Hd. simpl.
  eexists. by split_and!.
Qed.

Lemma updateNextRun_missing_run (id : string) (n : Z) (w : World) :
  store w !! id = None →
  ∃ w', JobService.updateNextRun id n w = (Throw "Job not found", w') ∧
        store w' = store w.
Proof.
  intros Hd.
  unfold JobService.updateNextRun, JobRepository.updateNextRun,
    JobModel.findByIdAndUpdate, JobModel.awaitIO. munfold. simpl. rewrite Hd. simpl.
  eexists. by split_and!.
Qed.

Lemma updateNextRun_run (id : string) (n : Z) (d : JobDoc) (w : World) :
  store w !! id = Some d →
  ∃ r w', JobService.updateNextRun id n w = (Ok r, w') ∧
    store w' = <[id := with_updatedAt (clock w) (with_nextRun (Some n) d)]> (store w) ∧
    clock w' = clock w + ioLatency.
Proof.
  intros Hd.
  unfold JobService.updateNextRun, JobRepository.updateNextRun,
    JobModel.findByIdAndUpdate, JobModel.awaitIO. munfold. simpl.
  rewrite Hd. simpl. do 2 eexists. split; [reflexivity|]. simpl. by split.
Qed.

Lemma calculateNextRunTime_run (cron : string) (w : World) :
  JobValidator.calculateNextRunTime cron w =
    match evaluate cron (clock w) with
    | inr t => (Ok t, w)
    | inl e => (Throw ("Failed to calculate next run time. Error: " +:+ e),
                add_log (ERROR, NextRunFailed cron e) w)
    end.
Proof.
  unfold JobValidator.calculateNextRunTime, evaluate. munfold. simpl.
  destruct (parseExpression _ _ _) as [e|iv]; simpl; [done|].
  by destruct (next iv).
Qed.

Lemma runHandler_fault (job : Job) (e : Error) (w : World) :
  handlerFault (JobExecutor.handlerOf job) job = Some e →
  runHandler job w =
    (Throw e, add_log (INFO, HandlerLog (JobExecutor.handlerOf job) (_id job)) w).
Proof.
  unfold runHandler, JobExecutor.handlerOf, JobExecutor.sendEmail,
    JobExecutor.sendReminder, JobExecutor.performGenericTask,
    JobExecutor.simulateWork.
  intros Hf. munfold.
  destruct (String.eqb (type job) "email"); [by rewrite Hf|].
  destruct (String.eqb (type job) "reminder"); by rewrite Hf.
Qed.

Lemma runHandler_ok (job : Job) (w : World) :
  handlerFault (JobExecutor.handlerOf job) job = None →
  runHandler job w =
    (Ok tt, set_clock (clock w + handlerDelay job)
              (add_log (INFO, HandlerLog (JobExecutor.handlerOf job) (_id job)) w)).
Proof.
  unfold runHandler, JobExecutor.handlerOf, JobExecutor.sendEmail,
    JobExecutor.sendReminder, JobExecutor.performGenericTask,
    JobExecutor.simulateWork, handlerDelay.
  intros Hf. munfold.
  destruct (String.eqb (type job) "email"); [by rewrite Hf|].
  destruct (String.eqb (type job) "reminder"); by rewrite Hf.
Qed.

Lemma execute_unfold (job : Job) :
  JobExecutor.execute job =
  try_catch
    (runHandler job;;
     lastRun ← newDate;
     nextRun ← JobValidator.calculateNextRunTime (cronSchedule job);
     JobService.markJobCompleted (_id job);;
     JobService.updateNextRun (_id job) nextRun;;
     logger INFO (JobExecuted (_id job) lastRun nextRun))
    (λ error,
       logger ERROR (JobExecutionFailed (_id job) error);;
       JobService.markJobFailed (_id job);;
       mret tt).
Proof. reflexivity. Qed.

(** C1, as amended: in the corrected job model, when the handler of a
    job raises and the job's record in the store passes the validation of
    the schema, [execute] returns normally and the record then has
    [status = failed], [lastRun] set to an instant [t] of the execution
    (between its start and its end), and [nextRun] (like name,
    description, schedule and type) as before. *)
Theorem execute_handler_failure_marks_failed
    (job : Job) (d : JobDoc) (e : Error) (w : World) :
  jobModelRevision = Corrected →
  0 ≤ ioLatency →
  store w !! _id job = Some d →
  JobModel.validate d = inr tt →
  handlerFault (JobExecutor.handlerOf job) job = Some e →
  ∃ w' t,
    JobExecutor.execute job w = (Ok tt, w') ∧
    clock w ≤ t ≤ clock w' ∧
    store w' !! _id job =
      Some (mkJobDoc (name d) (description d) (cronSchedule d) (type d) failed
                     (Some t) (nextRun d) t).
Proof.
  intros Hrev Hlat Hd Hv Hfault.
  rewrite execute_unfold. unfold try_catch.
  assert (∀ k : unit → M unit, (runHandler job ≫= k) w =
     (Throw e, add_log (INFO, HandlerLog (JobExecutor.handlerOf job) (_id job)) w)) as ->.
  { intros k. munfold. by rewrite (runHandler_fault _ _ _ Hfault). }
  match goal with |- context [JobService.markJobFailed _] => idtac end.
  set (w1 := add_log (ERROR, JobExecutionFailed (_id job) e)
               (add_log (INFO, HandlerLog (JobExecutor.handlerOf job) (_id job)) w)).
  destruct (markJobFailed_run (_id job) d w1 Hd Hv) as (r & w' & Hrun & Hst & Hcl).
  exists w', (clock w + ioLatency). split_and!.
  - munfold. simpl. fold w1. by rewrite Hrun.
  - lia.
  - rewrite Hcl. simpl. lia.
  - rewrite Hst, lookup_insert_eq. unfold failureStatus. by rewrite Hrev.
Qed.
End StoreOperations.

Section Executor.
Context `{CronParser} `{Environment} `{Deployment}.

Lemma handlerDelay_nonneg job : 0 ≤ handlerDelay job.
Proof. unfold handlerDelay. destruct (String.eqb _ _); lia. Qed.

(** C3, as amended: when the handler of a job succeeds, the job's
    record in the store passes the validation of the schema, and the
    evaluator yields the next trigger [n] for the job's cronSchedule at
    the instant [now] the handler returns, [execute] returns normally and
    the record then has [status = active], [lastRun] set to an instant
    [t] of the execution (not before [now], not after its end), and
    [nextRun = n]. *)
Theorem execute_handler_success_reschedules
    (job : Job) (d : JobDoc) (n : Z) (w : World) :
  0 ≤ ioLatency →
  store w !! _id job = Some d →
  JobModel.validate d = inr tt →
  handlerFault (JobExecutor.handlerOf job) job = None →
  let now := clock w + handlerDelay job in
  evaluate (cronSchedule job) now = inr n →
  ∃ w' t u,
    JobExecutor.execute job w = (Ok tt, w') ∧
    clock w ≤ now ∧ now ≤ t ∧ t ≤ clock w' ∧
    store w' !! _id job =
      Some (mkJobDoc (name d) (description d) (cronSchedule d) (type d) active
                     (Some t) (Some n) u).
Proof.
  intros Hlat Hd Hv Hfault now Heval.
  pose proof (handlerDelay_nonneg job) as Hdelay.
  rewrite execute_unfold. unfold try_catch.
  set (w1 := set_clock now
               (add_log (INFO, HandlerLog (JobExecutor.handlerOf job) (_id job)) w)).
  assert (store w1 !! _id job = Some d) as Hd1 by done.
  destruct (markJobCompleted_run (_id job) d w1 Hd1 Hv)
    as (r2 & w2 & Hrun2 & Hst2 & Hcl2).
  assert (store w2 !! _id job =
            Some (with_updatedAt (now + ioLatency)
                    (with_lastRun (Some (now + ioLatency)) (with_status active d)))) as Hd2.
  { rewrite Hst2. apply lookup_insert_eq. }
  destruct (updateNextRun_run (_id job) n _ w2 Hd2) as (r3 & w3 & Hrun3 & Hst3 & Hcl3).
  exists (add_log (INFO, JobExecuted (_id job) now n) w3), (now + ioLatency), (clock w2).
  split_and!.
  - munfold. rewrite (runHandler_ok _ _ Hfault). fold now. fold w1. simpl.
    pose proof (calculateNextRunTime_run (cronSchedule job) w1) as Hcalc.
    simpl in Hcalc. rewrite Heval in Hcalc. rewrite Hcalc.
    rewrite Hrun2, Hrun3. reflexivity.
  - lia.
  - lia.
  - simpl. rewrite Hcl3, Hcl2. simpl. lia.
  - simpl. rewrite Hst3, lookup_insert_eq. reflexivity.
Qed.

Section Valid.
Variable id : string.

Lemma stable_valid_markJobCompleted i :
  stable (validRecord id) (JobService.markJobCompleted i).
Proof.
  intros w (d & Hd & Hv).
  destruct (store w !! i) as [d'|] eqn:E.
  - destruct (JobModel.validate d') as [e|[]] eqn:Ev.
    + destruct (markJobCompleted_invalid_run i d' e w E Ev) as (w' & -> & Hst & _).
      exists d. simpl. by rewrite Hst.
    + destruct (markJobCompleted_run i d' w E Ev) as (r & w' & -> & Hst & _).
      simpl. unfold validRecord. rewrite Hst.
      destruct (decide (i = id)) as [->|Hne].
      * eexists. rewrite lookup_insert_eq. split; [done|].
        rewrite validate_stamped, validate_marked. congruence.
      * exists d. by rewrite lookup_insert_ne.
  - destruct (markJobCompleted_missing_run i w E) as (w' & -> & Hst & _).
    exists d. simpl. by rewrite Hst.
Qed.

Lemma stable_valid_updateNextRun i t :
  stable (validRecord id) (JobService.updateNextRun i t).
Proof.
  intros w (d & Hd & Hv).
  destruct (store w !! i) as [d'|] eqn:E.
  - destruct (updateNextRun_run i t d' w E) as (r & w' & -> & Hst & _).
    simpl. unfold validRecord. rewrite Hst.
    destruct (decide (i = id)) as [->|Hne].
    + eexists. rewrite lookup_insert_eq. split; [done|].
      rewrite validate_rescheduled. congruence.
    + exists d. by rewrite lookup_insert_ne.
  - destruct (updateNextRun_missing_run i t w E) as (w' & -> & Hst).
    exists d. simpl. by rewrite Hst.
Qed.

Lemma stable_valid_execute_body job :
  stable (validRecord id)
    (runHandler job;;
     lastRun ← newDate;
     nextRun ← JobValidator.calculateNextRunTime (cronSchedule job);
     JobService.markJobCompleted (_id job);;
     JobService.updateNextRun (_id job) nextRun;;
     logger INFO (JobExecuted (_id job) lastRun nextRun)).
Proof.
  unfold runHandler, JobExecutor.sendEmail, JobExecutor.sendReminder,
    JobExecutor.performGenericTask, JobExecutor.simulateWork,
    JobValidator.calculateNextRunTime.
  repeat first [ apply stable_valid_markJobCompleted
               | apply stable_valid_updateNextRun | stable_step ].
Qed.

Lemma stable_valid_executeJob_body job :
  stable (validRecord id)
    (startTime ← newDate;
     nextRunTime ← JobExecutor.calculateNextRunTime (cronSchedule job);
     logger INFO (ExecutingJob (_id job) nextRunTime);;
     JobExecutor.executeJobLogic job;;
     JobService.markJobCompleted (_id job);;
     JobService.updateNextRun (_id job) nextRunTime;;
     endTime ← newDate;
     logger INFO (JobCompleted (_id job))).
Proof.
  unfold JobExecutor.executeJobLogic, JobExecutor.simulatedBranch,
    JobExecutor.simulateDelay, JobExecutor.calculateNextRunTime.
  repeat first [ apply stable_valid_markJobCompleted
               | apply stable_valid_updateNextRun | stable_step ].
Qed.
End Valid.

Lemma failure_branch_ok (job : Job) (e : Error) (w : World) :
  validRecord (_id job) w →
  ((logger ERROR (JobExecutionFailed (_id job) e);;
    JobService.markJobFailed (_id job);; mret tt) w).1 = Ok tt.
Proof.
  intros (d & Hd & Hv). munfold. simpl.
  set (w1 := add_log _ w).
  destruct (markJobFailed_run (_id job) d w1 Hd Hv) as (r & w' & Hrun & _).
  by rewrite Hrun.
Qed.

(** C7, as amended: whatever the handler does, [execute] (and the
    earlier [executeJob]) leaves the registry, the timers and the other
    scheduler fields exactly as they were; and for a job whose record is
    in the store and passes the validation of the schema the call returns
    normally. *)
Theorem execute_contains_handler_errors (job : Job) (w : World) :
  schedulerState (JobExecutor.execute job w).2 = schedulerState w ∧
  (∀ d, store w !! _id job = Some d → JobModel.validate d = inr tt →
        (JobExecutor.execute job w).1 = Ok tt) ∧
  ∀ instanceId,
    schedulerState (JobExecutor.executeJob job instanceId w).2 = schedulerState w ∧
    (∀ d, store w !! _id job = Some d → JobModel.validate d = inr tt →
          (JobExecutor.executeJob job instanceId w).1 = Ok tt).
Proof.
  split_and!.
  - apply execute_framed.
  - intros d Hd Hv. rewrite execute_unfold. unfold try_catch.
    assert (validRecord (_id job) w) as Hp by by exists d.
    pose proof (stable_valid_execute_body (_id job) job w Hp) as Hp'.
    match goal with
    | |- context [match ?x with _ => _ end] =>
        destruct x as [[[]|e] w1]
    end; [done|].
    by apply failure_branch_ok.
  - intros i. split; [apply executeJob_framed|].
    intros d Hd Hv. unfold JobExecutor.executeJob, try_catch.
    assert (validRecord (_id job) w) as Hp by by exists d.
    pose proof (stable_valid_executeJob_body (_id job) job w Hp) as Hp'.
    match goal with
    | |- context [match ?x with _ => _ end] =>
        destruct x as [[[]|e] w1]
    end; [done|].
    by apply failure_branch_ok.
Qed.

(** The earlier model revision keeps a failed job [active]. *)
Lemma execute_handler_failure_original_model
    (job : Job) (d : JobDoc) (e : Error) (w : World) :
  jobModelRevision = Original →
  store w !! _id job = Some d →
  JobModel.validate d = inr tt →
  handlerFault (JobExecutor.handlerOf job) job = Some e →
  ∃ w' t,
    JobExecutor.execute job w = (Ok tt, w') ∧
    store w' !! _id job =
      Some (mkJobDoc (name d) (description d) (cronSchedule d) (type d) active
                     (Some t) (nextRun d) t).
Proof.
  intros Hrev Hd Hv Hfault.
  rewrite execute_unfold. unfold try_catch.
  assert (∀ k : unit → M unit, (runHandler job ≫= k) w =
     (Throw e, add_log (INFO, HandlerLog (JobExecutor.handlerOf job) (_id job)) w)) as ->.
  { intros k. munfold. by rewrite (runHandler_fault _ _ _ Hfault). }
  set (w1 := add_log (ERROR, JobExecutionFailed (_id job) e)
               (add_log (INFO, HandlerLog (JobExecutor.handlerOf job) (_id job)) w)).
  destruct (markJobFailed_run (_id job) d w1 Hd Hv) as (r & w' & Hrun & Hst & Hcl).
  exists w', (clock w + ioLatency). split.
  - munfold. simpl. fold w1. by rewrite Hrun.
  - rewrite Hst, lookup_insert_eq. unfold failureStatus. by rewrite Hrev.
Qed.
End Executor.

Ltac euclid := Z.to_euclidean_division_equations; lia.

Lemma inb_elem (x : Z) (l : list Z) : inb x l = true ↔ x ∈ l.
Proof.
  unfold inb. rewrite existsb_exists. split.
  - intros (y & Hin & ->%Z.eqb_eq). by apply list_elem_of_In.
  - intros Hin. exists x. split; [by apply list_elem_of_In | apply Z.eqb_refl].
Qed.

Lemma inRange_spec lo hi l :
  inRange lo hi l = true → l ≠ [] ∧ ∀ v, v ∈ l → lo ≤ v ≤ hi.
Proof.
  unfold inRange. rewrite andb_true_iff, negb_true_iff, bool_decide_eq_false.
  rewrite forallb_forall. intros [Hne Hall]. split; [done|].
  intros v Hv%list_elem_of_In. specialize (Hall v Hv). lia.
Qed.

Lemma minimum_Some l m :
  minimum l = Some m → m ∈ l ∧ ∀ x, x ∈ l → m ≤ x.
Proof.
  revert m. induction l as [|a l IH]; intros m; simpl; [done|].
  intros [= <-]. destruct (minimum l) as [m'|] eqn:E; simpl.
  - destruct (IH m' eq_refl) as [Hin Hle]. split.
    + destruct (Z.min_spec a m') as [[_ ->]|[_ ->]]; [left|by right].
    + intros x [->|Hx]%elem_of_cons; [lia|]. specialize (Hle x Hx). lia.
  - split; [left|]. intros x [->|Hx]%elem_of_cons; [lia|].
    destruct l; [by apply not_elem_of_nil in Hx | done].
Qed.

Lemma minimum_None l : minimum l = None → l = [].
Proof. by destruct l. Qed.

Lemma firstFrom_Some e k s :
  firstFrom e k = Some s →
  s ∈ timesOfDay e ∧ k ≤ s ∧ ∀ x, x ∈ timesOfDay e → k ≤ x → s ≤ x.
Proof.
  unfold firstFrom. intros [Hin Hle]%minimum_Some.
  apply list_elem_of_filter in Hin as [Hk Hin]. split_and!; [done..|].
  intros x Hx Hkx. apply Hle. by apply list_elem_of_filter.
Qed.

Lemma firstFrom_None e k x :
  firstFrom e k = None → x ∈ timesOfDay e → x < k.
Proof.
  unfold firstFrom. intros Hnil%minimum_None Hx.
  destruct (decide (k ≤ x)) as [Hk|]; [|lia].
  assert (x ∈ filter (λ s, k ≤ s) (timesOfDay e)) as Hf
    by by apply list_elem_of_filter.
  rewrite Hnil in Hf. by apply not_elem_of_nil in Hf.
Qed.

Lemma elem_of_timesOfDay e x :
  x ∈ timesOfDay e ↔
  ∃ h m s, h ∈ f_hour e ∧ m ∈ f_minute e ∧ s ∈ f_second e ∧
           x = 3600 * h + 60 * m + s.
Proof.
  unfold timesOfDay. rewrite list_elem_of_bind. split.
  - intros (h & Hx & Hh). apply list_elem_of_bind in Hx as (m & Hx & Hm).
    apply list_elem_of_bind in Hx as (s & Hx & Hs).
    apply list_elem_of_singleton in Hx. by exists h, m, s.
  - intros (h & m & s & Hh & Hm & Hs & ->). exists h. split; [|done].
    apply list_elem_of_bind. exists m. split; [|done].
    apply list_elem_of_bind. exists s. split; [|done].
    by apply list_elem_of_singleton.
Qed.

Lemma wellFormed_ranges e : wellFormed e = true → ranges e.
Proof.
  unfold wellFormed. rewrite !andb_true_iff.
  intros [[[[[Hs Hm] Hh] _] _] _].
  apply inRange_spec in Hs as [? ?], Hm as [? ?], Hh as [? ?].
  by constructor.
Qed.

Lemma parseField_build_wellFormed sec mi h dom mo dow e :
  build sec mi h dom mo dow = Some e → wellFormed e = true.
Proof.
  unfold build. intros Hb.
  repeat match type of Hb with
         | (_ ≫= _) = Some _ => apply bind_Some in Hb as (? & _ & Hb)
         end.
  destruct (forallb _ _); [|done].
  destruct (wellFormed _) eqn:E; [|done]. by injection Hb as <-.
Qed.

Lemma parse_wellFormed s e : parse s = Some e → wellFormed e = true.
Proof.
  unfold parse.
  destruct (filter _ _) as [|a [|b [|c [|d [|f [|g [|? ?]]]]]]]; try done;
    apply parseField_build_wellFormed.
Qed.

Lemma timesOfDay_range e x :
  ranges e → x ∈ timesOfDay e → 0 ≤ x < 86400.
Proof.
  intros [Hs Hm Hh _ _ _] (h & m & s & Hh' & Hm' & Hs' & ->)%elem_of_timesOfDay.
  specialize (Hs _ Hs'). specialize (Hm _ Hm'). specialize (Hh _ Hh'). lia.
Qed.

Lemma timesOfDay_some e : ranges e → ∃ x, x ∈ timesOfDay e.
Proof.
  intros [_ _ _ Hs Hm Hh].
  destruct (f_second e) as [|s ?] eqn:Es; [done|].
  destruct (f_minute e) as [|m ?] eqn:Em; [done|].
  destruct (f_hour e) as [|h ?] eqn:Eh; [done|].
  exists (3600 * h + 60 * m + s). apply elem_of_timesOfDay.
  exists h, m, s. rewrite Es, Em, Eh. split_and!; [left..|done].
Qed.

Lemma satisfies_second e t :
  ranges e →
  satisfies e t = true ↔ t mod 1000 = 0 ∧ secondMatches e (t / 1000).
Proof.
  intros He. unfold satisfies, secondMatches.
  rewrite !andb_true_iff, Z.eqb_eq, !inb_elem.
  rewrite elem_of_timesOfDay.
  destruct He as [Hs Hm Hh _ _ _].
  split.
  - intros [[[[Hms Hsec] Hmin] Hhour] Hday]. split; [done|]. split.
    + replace (t / 1000 / 86400) with (t / 86400000) by euclid. done.
    + exists ((t / 3600000) mod 24), ((t / 60000) mod 60), ((t / 1000) mod 60).
      split_and!; [done..|]. euclid.
  - intros [Hms [Hday (h & m & s & Hh' & Hm' & Hs' & Heq)]].
    specialize (Hs _ Hs'). specialize (Hm _ Hm'). specialize (Hh _ Hh').
    replace ((t / 1000) mod 60) with s by euclid.
    replace ((t / 60000) mod 60) with m by euclid.
    replace ((t / 3600000) mod 24) with h by euclid.
    replace (t / 86400000) with (t / 1000 / 86400) by euclid.
    done.
Qed.

Lemma findDay_Some e fuel d0 d :
  findDay e fuel d0 = Some d →
  d0 ≤ d ∧ dayMatches e d = true ∧ ∀ x, d0 ≤ x < d → dayMatches e x = false.
Proof.
  revert d0. induction fuel as [|fuel IH]; intros d0; simpl; [done|].
  destruct (dayMatches e d0) eqn:E.
  - intros [= <-]. split_and!; [lia|done|]. intros x Hx. lia.
  - intros (Hle & Hm & Hbefore)%IH. split_and!; [lia|done|].
    intros x Hx. destruct (decide (x = d0)) as [->|]; [done|].
    apply Hbefore. lia.
Qed.

Lemma findDay_None e fuel d0 x :
  findDay e fuel d0 = None → d0 ≤ x < d0 + Z.of_nat fuel →
  dayMatches e x = false.
Proof.
  revert d0. induction fuel as [|fuel IH]; intros d0; simpl; [lia|].
  destruct (dayMatches e d0) eqn:E; [done|].
  intros Hnone Hx. destruct (decide (x = d0)) as [->|]; [done|].
  apply (IH (d0 + 1)); [done|lia].
Qed.

Lemma nextSecond_spec e c c' :
  ranges e →
  nextSecond e c = Some c' →
  c ≤ c' ∧ secondMatches e c' ∧ ∀ x, c ≤ x < c' → ¬ secondMatches e x.
Proof.
  intros He. unfold nextSecond.
  destruct (dayMatches e (c / 86400)) eqn:Eday;
    [destruct (firstFrom e (c mod 86400)) as [s|] eqn:Efirst|].
  - (* a later second of the same day *)
    intros [= <-].
    destruct (firstFrom_Some _ _ _ Efirst) as (Hin & Hle & Hmin).
    pose proof (timesOfDay_range _ _ He Hin) as Hr.
    assert ((86400 * (c / 86400) + s) / 86400 = c / 86400) as Hd by euclid.
    assert ((86400 * (c / 86400) + s) mod 86400 = s) as Hm by euclid.
    split_and!.
    + euclid.
    + unfold secondMatches. by rewrite Hd, Hm.
    + intros x Hx [_ Hxin].
      assert (c mod 86400 ≤ x mod 86400) as Hk by euclid.
      specialize (Hmin _ Hxin Hk). euclid.
  - (* nothing left today *)
    intros Hb. apply bind_Some in Hb as (d & Hfind & Hb).
    apply bind_Some in Hb as (s & Hzero & [= <-]).
    destruct (findDay_Some _ _ _ _ Hfind) as (Hdle & Hdm & Hdbefore).
    destruct (firstFrom_Some _ _ _ Hzero) as (Hin & _ & Hmin).
    pose proof (timesOfDay_range _ _ He Hin) as Hr.
    assert ((86400 * d + s) / 86400 = d) as Hd by euclid.
    assert ((86400 * d + s) mod 86400 = s) as Hm by euclid.
    split_and!.
    + euclid.
    + unfold secondMatches. by rewrite Hd, Hm.
    + intros x Hx [Hxday Hxin].
      pose proof (timesOfDay_range _ _ He Hxin) as Hxr.
      destruct (decide (x / 86400 = c / 86400)) as [Heq|Hne].
      * pose proof (firstFrom_None _ _ _ Efirst Hxin). euclid.
      * destruct (decide (x / 86400 = d)) as [Heqd|Hned].
        -- specialize (Hmin _ Hxin ltac:(lia)). euclid.
        -- rewrite Hdbefore in Hxday; [done|]. euclid.
  - (* today does not match *)
    intros Hb. apply bind_Some in Hb as (d & Hfind & Hb).
    apply bind_Some in Hb as (s & Hzero & [= <-]).
    destruct (findDay_Some _ _ _ _ Hfind) as (Hdle & Hdm & Hdbefore).
    destruct (firstFrom_Some _ _ _ Hzero) as (Hin & _ & Hmin).
    pose proof (timesOfDay_range _ _ He Hin) as Hr.
    assert ((86400 * d + s) / 86400 = d) as Hd by euclid.
    assert ((86400 * d + s) mod 86400 = s) as Hm by euclid.
    split_and!.
    + euclid.
    + unfold secondMatches. by rewrite Hd, Hm.
    + intros x Hx [Hxday Hxin].
      pose proof (timesOfDay_range _ _ He Hxin) as Hxr.
      destruct (decide (x / 86400 = c / 86400)) as [Heq|Hne].
      * congruence.
      * destruct (decide (x / 86400 = d)) as [Heqd|Hned].
        -- specialize (Hmin _ Hxin ltac:(lia)). euclid.
        -- rewrite Hdbefore in Hxday; [done|]. euclid.
Qed.

Lemma findDay_complete e fuel d0 x :
  d0 ≤ x < d0 + Z.of_nat fuel → dayMatches e x = true →
  ∃ d, findDay e fuel d0 = Some d.
Proof.
  intros Hx Hm. destruct (findDay e fuel d0) as [d|] eqn:E; [by exists d|].
  pose proof (findDay_None _ _ _ _ E Hx). congruence.
Qed.

(** The calendar of a day repeats every 400 years. *)
Lemma dayMatches_periodic e day k :
  dayMatches e (day + k * daysPerCycle) = dayMatches e day.
Proof.
  unfold dayMatches, dayOfMonth, month, dayOfWeek, dayOfEra.
  replace ((day + k * daysPerCycle + 719468) mod daysPerCycle)
    with ((day + 719468) mod daysPerCycle).
  2: { rewrite <- Z.add_assoc, (Z.add_comm (k * _)), Z.add_assoc.
       by rewrite Z.mod_add. }
  replace ((day + k * daysPerCycle + 4) mod 7) with ((day + 4) mod 7).
  2: { unfold daysPerCycle. replace (day + k * 146097 + 4) with (day + 4 + (k * 20871) * 7) by lia.
       by rewrite Z.mod_add. }
  done.
Qed.

Lemma recurring_within_cycle e d0 :
  recurring e → ∃ x, d0 ≤ x < d0 + daysPerCycle ∧ dayMatches e x = true.
Proof.
  intros [d Hd].
  exists (d + ((d0 - d) / daysPerCycle + 1) * daysPerCycle - daysPerCycle + (if decide ((d0 - d) mod daysPerCycle = 0) then 0 else daysPerCycle)).
  unfold daysPerCycle in *. split.
  - case_decide; Z.to_euclidean_division_equations; lia.
  - case_decide.
    + replace (d + ((d0 - d) / 146097 + 1) * 146097 - 146097 + 0)
        with (d + ((d0 - d) / 146097) * daysPerCycle) by (unfold daysPerCycle; lia).
      by rewrite dayMatches_periodic.
    + replace (d + ((d0 - d) / 146097 + 1) * 146097 - 146097 + 146097)
        with (d + ((d0 - d) / 146097 + 1) * daysPerCycle) by (unfold daysPerCycle; lia).
      by rewrite dayMatches_periodic.
Qed.

Lemma firstFrom_zero_total e : ranges e → ∃ s, firstFrom e 0 = Some s.
Proof.
  intros He. destruct (firstFrom e 0) as [s|] eqn:E; [by exists s|].
  destruct (timesOfDay_some e He) as [x Hx].
  pose proof (firstFrom_None _ _ _ E Hx).
  pose proof (timesOfDay_range _ _ He Hx). lia.
Qed.

Lemma nextSecond_total e c :
  ranges e → recurring e → ∃ c', nextSecond e c = Some c'.
Proof.
  intros He Hrec. unfold nextSecond.
  destruct (recurring_within_cycle e (c / 86400 + 1) Hrec) as (x & Hx & Hm).
  destruct (findDay_complete e (Z.to_nat daysPerCycle) (c / 86400 + 1) x) as [d Hd].
  { unfold daysPerCycle in *. lia. }
  { done. }
  destruct (firstFrom_zero_total e He) as [s Hs].
  destruct (if dayMatches e (c / 86400) then firstFrom e (c mod 86400) else None)
    as [s'|]; [by eexists|].
  rewrite Hd. simpl. rewrite Hs. simpl. by eexists.
Qed.

Lemma nextTrigger_spec e ref t :
  ranges e →
  nextTrigger e ref = Some t →
  ref < t ∧ satisfies e t = true ∧ ∀ u, ref < u < t → satisfies e u = false.
Proof.
  intros He. unfold nextTrigger. intros Hb.
  apply bind_Some in Hb as (c & Hnext & [= <-]).
  destruct (nextSecond_spec _ _ _ He Hnext) as (Hle & Hm & Hbefore).
  split_and!.
  - euclid.
  - apply satisfies_second; [done|]. split; [euclid|].
    by replace (1000 * c / 1000) with c by euclid.
  - intros u Hu. apply not_true_is_false.
    intros [Hms Hum]%satisfies_second; [|done].
    apply (Hbefore (u / 1000)); [euclid|done].
Qed.

Lemma nextTrigger_total e ref :
  ranges e → recurring e → ∃ t, nextTrigger e ref = Some t.
Proof.
  intros He Hrec. unfold nextTrigger.
  destruct (nextSecond_total e (ref / 1000 + 1) He Hrec) as [c ->].
  by eexists.
Qed.

(** Two earliest satisfying instants after the same reference agree. *)
Lemma earliest_unique e ref t t' :
  ref < t → satisfies e t = true → (∀ u, ref < u < t → satisfies e u = false) →
  ref < t' → satisfies e t' = true → (∀ u, ref < u < t' → satisfies e u = false) →
  t = t'.
Proof.
  intros H1 H2 H3 H1' H2' H3'.
  destruct (Z.lt_trichotomy t t') as [Hlt|[->|Hgt]]; [|done|].
  - rewrite H3' in H2; [done|lia].
  - rewrite H3 in H2'; [done|lia].
Qed.

(** *** The calendar stays in range *)

Lemma calendar_range day :
  1 ≤ dayOfMonth day ≤ 31 ∧ 1 ≤ month day ≤ 12 ∧ 0 ≤ dayOfWeek day ≤ 6.
Proof.
  unfold dayOfMonth, month, monthIndex, dayOfYear, yearOfEra, dayOfWeek, dayOfEra,
    daysPerCycle.
  match goal with
  | |- context [if ?a <? ?b then _ else _] => destruct (Z.ltb_spec a b)
  end; euclid.
Qed.

Lemma elem_of_rangeStep x a b k :
  x ∈ rangeStep a b k ↔ ∃ i, 0 ≤ i < (b - a) / k + 1 ∧ x = a + i * k.
Proof.
  unfold rangeStep. rewrite list_elem_of_fmap. split.
  - intros (i & -> & Hi%elem_of_seqZ). exists i. split; [lia|done].
  - intros (i & Hi & ->). exists i. split; [done|]. apply elem_of_seqZ. lia.
Qed.

Lemma parse_everyFiveMinutes : parse "*/5 * * * *" = Some everyFiveMinutes.
Proof. vm_compute. reflexivity. Qed.

Lemma everyFiveMinutes_days day : dayMatches everyFiveMinutes day = true.
Proof.
  destruct (calendar_range day) as (Hd & Hm & Hw).
  unfold dayMatches. rewrite !andb_true_iff, !inb_elem.
  unfold everyFiveMinutes.
  cbn [f_second f_minute f_hour f_dayOfMonth f_month f_dayOfWeek].
  split_and!.
  - apply elem_of_rangeStep. exists (dayOfMonth day - 1).
    change ((31 - 1) / 1 + 1) with 31. lia.
  - apply elem_of_rangeStep. exists (month day - 1).
    change ((12 - 1) / 1 + 1) with 12. lia.
  - apply list_elem_of_fmap. exists (dayOfWeek day). split.
    + symmetry. apply Z.mod_small. lia.
    + apply elem_of_rangeStep. exists (dayOfWeek day).
      change ((7 - 0) / 1 + 1) with 8. lia.
Qed.

Lemma everyFiveMinutes_satisfies t :
  satisfies everyFiveMinutes t = true ↔ t mod 300000 = 0.
Proof.
  unfold satisfies. rewrite everyFiveMinutes_days, andb_true_r.
  rewrite !andb_true_iff, Z.eqb_eq, !inb_elem.
  unfold everyFiveMinutes.
  cbn [f_second f_minute f_hour f_dayOfMonth f_month f_dayOfWeek].
  rewrite list_elem_of_singleton, !elem_of_rangeStep.
  change ((59 - 0) / 5 + 1) with 12. change ((23 - 0) / 1 + 1) with 24.
  split.
  - intros [[[Hms Hs] (i & Hi & Hmin)] _]. euclid.
  - intros Hmod. split_and!.
    + euclid.
    + euclid.
    + exists ((t / 60000) mod 60 / 5). euclid.
    + exists ((t / 3600000) mod 24). euclid.
Qed.

Lemma everyFiveMinutes_recurring : recurring everyFiveMinutes.
Proof. exists 0. apply everyFiveMinutes_days. Qed.

Lemma everyFiveMinutes_ranges : ranges everyFiveMinutes.
Proof.
  apply wellFormed_ranges, (parse_wellFormed "*/5 * * * *"),
    parse_everyFiveMinutes.
Qed.

Lemma everyFiveMinutes_next ref :
  ∃ t, nextTrigger everyFiveMinutes ref = Some t ∧ ref < t ∧ t mod 300000 = 0 ∧
       t - 300000 ≤ ref.
Proof.
  destruct (nextTrigger_total everyFiveMinutes ref everyFiveMinutes_ranges
              everyFiveMinutes_recurring) as [t Ht].
  destruct (nextTrigger_spec _ _ _ everyFiveMinutes_ranges Ht) as (Hlt & Hsat & Hmin).
  apply everyFiveMinutes_satisfies in Hsat.
  exists t. split_and!; try done.
  destruct (decide (t - 300000 ≤ ref)) as [|Hgt]; [done|].
  assert (satisfies everyFiveMinutes (t - 300000) = false) as Hno
    by (apply Hmin; lia).
  assert (satisfies everyFiveMinutes (t - 300000) = true) as Hyes.
  { apply everyFiveMinutes_satisfies. euclid. }
  congruence.
Qed.

Lemma everyFiveMinutes_advance ref :
  ∃ t, nextTrigger everyFiveMinutes ref = Some t ∧ ref < t ∧
       nextTrigger everyFiveMinutes t = Some (t + 300000).
Proof.
  destruct (everyFiveMinutes_next ref) as (t & Ht & Hlt & Hmod & _).
  destruct (everyFiveMinutes_next t) as (t' & Ht' & Hlt' & Hmod' & Hnear).
  exists t. split_and!; [done..|].
  rewrite Ht'. f_equal. euclid.
Qed.

(** *** The evaluator behind the validator and the executor *)

Lemma evaluate_spec (s : string) (now : Z) :
  @evaluate cronParser s now =
    match parse s with
    | Some e => match nextTrigger e now with
                | Some t => inr t
                | None => inl "InvalidExpression: no trigger instant"
                end
    | None => inl "InvalidExpression"
    end.
Proof. unfold evaluate. simpl. by destruct (parse s). Qed.

Lemma executor_calculateNextRunTime_run (s : string) (w : World) (e : Fields) (t : Z) :
  parse s = Some e → nextTrigger e (clock w) = Some t →
  @JobExecutor.calculateNextRunTime cronParser s w = (Ok t, w).
Proof.
  intros Hp Hn. unfold JobExecutor.calculateNextRunTime. munfold. simpl.
  rewrite Hp. simpl. by rewrite Hn.
Qed.

Lemma validator_calculateNextRunTime_run (s : string) (w : World) (e : Fields) (t : Z) :
  parse s = Some e → nextTrigger e (clock w) = Some t →
  @JobValidator.calculateNextRunTime cronParser s w = (Ok t, w).
Proof.
  intros Hp Hn. rewrite (@calculateNextRunTime_run cronParser), evaluate_spec, Hp.
  by rewrite Hn.
Qed.

(** C6, as amended: for every expression the evaluator accepts and that
    recurs (some calendar day satisfies its day fields), and every
    reference time (the clock of the world), [calculateNextRunTime] of the
    validator, like that of the earlier executor, returns an instant
    strictly later than the reference which satisfies all fields, with no
    satisfying instant in between; applied again at the returned instant
    it returns the next satisfying instant after it.  For [*/5 * * * *]
    the second result is the first plus exactly five minutes. *)
Theorem calculateNextRunTime_later_and_periodic :
  (∀ (s : string) (e : Fields) (w : World),
      parse s = Some e → recurring e →
      ∃ t1 t2,
        @JobValidator.calculateNextRunTime cronParser s w = (Ok t1, w) ∧
        @JobExecutor.calculateNextRunTime cronParser s w = (Ok t1, w) ∧
        clock w < t1 ∧ satisfies e t1 = true ∧
        (∀ u, clock w < u < t1 → satisfies e u = false) ∧
        @JobValidator.calculateNextRunTime cronParser s (set_clock t1 w)
          = (Ok t2, set_clock t1 w) ∧
        t1 < t2 ∧ satisfies e t2 = true ∧
        (∀ u, t1 < u < t2 → satisfies e u = false)) ∧
  (∀ w : World,
      ∃ t1,
        @JobValidator.calculateNextRunTime cronParser "*/5 * * * *" w = (Ok t1, w) ∧
        clock w < t1 ∧
        @JobValidator.calculateNextRunTime cronParser "*/5 * * * *" (set_clock t1 w)
          = (Ok (t1 + 300000), set_clock t1 w)).
Proof.
  split.
  - intros s e w Hp Hrec.
    pose proof (wellFormed_ranges _ (parse_wellFormed _ _ Hp)) as He.
    destruct (nextTrigger_total e (clock w) He Hrec) as [t1 H1].
    destruct (nextTrigger_total e t1 He Hrec) as [t2 H2].
    destruct (nextTrigger_spec _ _ _ He H1) as (? & ? & ?).
    destruct (nextTrigger_spec _ _ _ He H2) as (? & ? & ?).
    exists t1, t2. split_and!; try done.
    + by eapply validator_calculateNextRunTime_run.
    + by eapply executor_calculateNextRunTime_run.
    + by eapply validator_calculateNextRunTime_run.
  - intros w. destruct (everyFiveMinutes_advance (clock w)) as (t1 & H1 & Hlt & H2).
    exists t1. split_and!; [|done|].
    + eapply validator_calculateNextRunTime_run; [apply parse_everyFiveMinutes|done].
    + eapply validator_calculateNextRunTime_run; [apply parse_everyFiveMinutes|done].
Qed.

(* ===================================================================== *)
(** ** The theorems on sample data *)
(* ===================================================================== *)

(** 1970-01-01 was a Thursday, 2024-01-01 a Monday, 2024-02-29 a
    Thursday, 1969-12-31 a Wednesday. *)
Example calendar_examples :
  (dayOfMonth 0, month 0, dayOfWeek 0) = (1, 1, 4) ∧
  (dayOfMonth 19723, month 19723, dayOfWeek 19723) = (1, 1, 1) ∧
  (dayOfMonth 19782, month 19782, dayOfWeek 19782) = (29, 2, 4) ∧
  (dayOfMonth (-1), month (-1), dayOfWeek (-1)) = (31, 12, 3).
Proof. vm_compute. by split_and!. Qed.

(** The run of the API guide: a job on [*/2 * * * *] that runs on
    2024-12-20 at 10:30:00 has its next run at 10:32:00; and a job on
    [*/1 * * * *] created at [T] has the next whole minute as next run. *)
Example nextTrigger_examples :
  (parse "*/2 * * * *" ≫= λ e, nextTrigger e 1734690600000) = Some 1734690720000 ∧
  (parse "*/1 * * * *" ≫= λ e, nextTrigger e 1734690612345) = Some 1734690660000 ∧
  parse "not-a-cron" = None.
Proof. vm_compute. by split_and!. Qed.

Lemma short_months day :
  month day = 4 ∨ month day = 6 ∨ month day = 9 ∨ month day = 11 →
  dayOfMonth day ≤ 30.
Proof.
  unfold dayOfMonth, month, monthIndex, dayOfYear, yearOfEra, dayOfEra,
    daysPerCycle.
  match goal with
  | |- context [if ?a <? ?b then _ else _] => destruct (Z.ltb_spec a b)
  end; euclid.
Qed.

Lemma shortMonths31_no_day day : dayMatches shortMonths31 day = false.
Proof.
  apply not_true_is_false. unfold dayMatches.
  rewrite !andb_true_iff, !inb_elem. unfold shortMonths31.
  cbn [f_dayOfMonth f_month f_dayOfWeek].
  rewrite list_elem_of_singleton. intros [[Hd Hm] _].
  assert (dayOfMonth day ≤ 30); [|lia].
  apply short_months.
  repeat (apply elem_of_cons in Hm as [Hm|Hm]; [tauto|]).
  by apply not_elem_of_nil in Hm.
Qed.

Lemma findDay_never e fuel day :
  (∀ d, dayMatches e d = false) → findDay e fuel day = None.
Proof.
  intros Hno. revert day. induction fuel as [|fuel IH]; intros day; simpl; [done|].
  by rewrite Hno.
Qed.

(** An expression for which the evaluator has produced a next run once,
    as [scheduleJob] requires before it registers a job, is a valid
    recurring expression. *)
Lemma evaluate_success_recurring (s : string) (now n : Z) :
  @evaluate cronParser s now = inr n → ∃ e, parse s = Some e ∧ recurring e.
Proof.
  rewrite evaluate_spec. destruct (parse s) as [e|] eqn:Hp; [|done].
  destruct (nextTrigger e now) as [t|] eqn:Hn; [|done]. intros _.
  exists e. split; [done|].
  pose proof (wellFormed_ranges _ (parse_wellFormed _ _ Hp)) as He.
  destruct (nextTrigger_spec _ _ _ He Hn) as (_ & Hs & _).
  apply satisfies_second in Hs as [_ [Hday _]]; [|done].
  by eexists.
Qed.

(** The 31st of a month of thirty days: every field is in range, the
    validator accepts the expression, and no instant satisfies it, so
    [calculateNextRunTime] returns no instant. *)
Lemma calculateNextRunTime_no_trigger_instant :
  let s := "0 0 31 4,6,9,11 *" in
  let w := initialWorld 0 ∅ in
  parse s = Some shortMonths31 ∧
  (@JobValidator.validateCronSchedule cronParser s w).1 = Ok tt ∧
  ∀ t, (@JobValidator.calculateNextRunTime cronParser s w).1 ≠ Ok t.
Proof.
  intros s w.
  assert (parse s = Some shortMonths31) as Hp by (vm_compute; reflexivity).
  split_and!; [done| |].
  - unfold JobValidator.validateCronSchedule. munfold.
    cbn [parseExpression cronParser String.eqb].
    change (String.eqb s "") with false. cbv iota. cbn [clock w initialWorld].
    by rewrite Hp.
  - intros t. rewrite (@calculateNextRunTime_run cronParser), evaluate_spec, Hp.
    assert (nextTrigger shortMonths31 (clock w) = None) as ->; [|done].
    unfold nextTrigger, nextSecond.
    rewrite shortMonths31_no_day, findDay_never by apply shortMonths31_no_day. done.
Qed.

Lemma validation_spec `{Deployment} (s : string) (now : Z) :
  @validation cronParser permissiveNodeCron _ s now =
    match parse s with
    | Some e => match nextTrigger e now with
                | Some t => inr t
                | None => inl "InvalidExpression: no trigger instant"
                end
    | None => inl "InvalidExpression"
    end.
Proof.
  unfold validation.
  cbn [parseExpression next cronParser validate permissiveNodeCron].
  destruct (parse s) as [e|]; [|done].
  cbn [fst snd]. replace (default now _) with now.
  - by destruct (nextTrigger e now).
  - unfold SchedulerManager.parserOptions. by destruct schedulerManagerRevision.
Qed.

Lemma validation_everyFiveMinutes `{Deployment} now :
  ∃ t, @validation cronParser permissiveNodeCron _ "*/5 * * * *" now = inr t.
Proof.
  destruct (everyFiveMinutes_next now) as (t & Ht & _).
  exists t. rewrite validation_spec, parse_everyFiveMinutes. by rewrite Ht.
Qed.

(* C9 witness *)
Lemma unscheduleJob_unregistered_noop_witness :
  scheduledTasks (initialWorld 0 emailStore) !! "j1" = None ∧
  SchedulerManager.unscheduleJob "j1" (initialWorld 0 emailStore)
    = (Ok tt, initialWorld 0 emailStore).
Proof.
  assert (scheduledTasks (initialWorld 0 emailStore) !! "j1" = None) as Hnone
    by reflexivity.
  split; [exact Hnone|].
  exact (unscheduleJob_unregistered_noop "j1" (initialWorld 0 emailStore) Hnone).
Defined.

(* C10 witness *)
Lemma scheduleJob_not_active_unschedules_witness :
  isShuttingDown registeredWorld = false ∧
  status pausedJob ≠ active ∧
  scheduledTasks registeredWorld !! "j1" = Some 0%nat ∧
  scheduledTasks
    (@SchedulerManager.scheduleJob cronParser permissiveNodeCron correctedDeployment
       pausedJob registeredWorld).2 = delete "j1" (scheduledTasks registeredWorld).
Proof.
  assert (isShuttingDown registeredWorld = false) as Hflag by (vm_compute; reflexivity).
  assert (status pausedJob ≠ active) as Hst by (simpl; discriminate).
  split_and!; [exact Hflag | exact Hst | vm_compute; reflexivity |].
  exact (proj1 (proj2 (@scheduleJob_not_active_unschedules cronParser permissiveNodeCron
           correctedDeployment pausedJob registeredWorld Hflag Hst))).
Defined.

(* C4 witness *)
Lemma scheduleJob_invalid_not_registered_witness :
  let w := @run cronParser permissiveNodeCron quietEnvironment correctedDeployment
             [CallScheduleJob emailJob] (initialWorld 0 brokenStore) in
  @validation cronParser permissiveNodeCron correctedDeployment
    (cronSchedule brokenJob) (clock w) = inl "InvalidExpression" ∧
  scheduledTasks
    (@SchedulerManager.scheduleJob cronParser permissiveNodeCron correctedDeployment
       brokenJob w).2 !! "j2" = None.
Proof.
  intros w.
  assert (@validation cronParser permissiveNodeCron correctedDeployment
            (cronSchedule brokenJob) (clock w) = inl "InvalidExpression") as Hbad
    by reflexivity.
  split; [exact Hbad|].
  exact (proj1 (proj2 (@scheduleJob_invalid_not_registered cronParser permissiveNodeCron
           quietEnvironment correctedDeployment [CallScheduleJob emailJob] 0 brokenStore
           brokenJob "InvalidExpression" Hbad))).
Defined.

(* C5 witness *)
Lemma scheduleJob_twice_one_live_entry_witness :
  let w := initialWorld 0 emailStore in
  let w2 := (@SchedulerManager.scheduleJob cronParser permissiveNodeCron correctedDeployment
               emailJob
               (@SchedulerManager.scheduleJob cronParser permissiveNodeCron
                  correctedDeployment emailJob w).2).2 in
  isShuttingDown w = false ∧ status emailJob = active ∧
  liveCount "j1" w2 = 1%nat ∧
  length (filter (λ x, x = "j1") (registeredIds w2)) = 1%nat.
Proof.
  intros w w2.
  assert (isShuttingDown w = false) as Hflag by reflexivity.
  assert (status emailJob = active) as Hact by reflexivity.
  pose proof (proj2 (@scheduleJob_twice_one_live_entry cronParser permissiveNodeCron
                       quietEnvironment correctedDeployment [] 0 emailStore)
                emailJob Hflag Hact (λ now, validation_everyFiveMinutes now))
    as (_ & _ & _ & Hlive & Honce & _).
  split_and!; [exact Hflag | exact Hact | exact Hlive | exact Honce].
Defined.

(* C8 witness *)
Lemma shutdown_rejects_and_cancels_witness :
  let w := (@SchedulerManager.shutdown registeredWorld).2 in
  isShuttingDown w = true ∧ registeredCount w = 0%nat ∧
  @SchedulerManager.scheduleJob cronParser permissiveNodeCron correctedDeployment
    emailJob w = (Ok tt, add_log (WARN, SkipSchedulingShutdown "j1") w).
Proof.
  intros w.
  assert (isShuttingDown w = true) as Hflag by (vm_compute; reflexivity).
  split_and!; [exact Hflag | vm_compute; reflexivity |].
  exact (proj1 (proj1 (proj2 (@shutdown_rejects_and_cancels cronParser permissiveNodeCron
           quietEnvironment correctedDeployment)) w Hflag) emailJob).
Defined.

(* C2 witness *)
Lemma discovery_converges_on_valid_store_witness :
  let w := initialWorld 0 emailStore in
  isShuttingDown w = false ∧
  ∃ w', @SchedulerManager.discoverAndScheduleJobs cronParser permissiveNodeCron
          quietEnvironment correctedDeployment w = (Ok tt, w') ∧
        list_to_set (registeredIds w') = activeIds (store w).
Proof.
  intros w.
  assert (isShuttingDown w = false) as Hflag by reflexivity.
  split; [exact Hflag|].
  apply (@discovery_converges_on_valid_store cronParser permissiveNodeCron
           quietEnvironment correctedDeployment w Hflag).
  intros id d Hl _ now.
  change (({["j1" := emailDoc]} : gmap string JobDoc) !! id = Some d) in Hl.
  apply lookup_singleton_Some in Hl as [_ <-].
  apply validation_everyFiveMinutes.
Defined.

(* C2 counterexample *)
Lemma discovery_skips_invalid_expression :
  let w := initialWorld 0 brokenStore in
  let w' := (@SchedulerManager.discoverAndScheduleJobs cronParser permissiveNodeCron
               quietEnvironment correctedDeployment w).2 in
  isShuttingDown w = false ∧
  (list_to_set (registeredIds w') : gset string) ≠ activeIds (store w).
Proof.
  intros w w'. split; [reflexivity|].
  assert (registeredIds w' = []) as -> by (vm_compute; reflexivity).
  intros Heq.
  assert ("j2" ∈ activeIds (store w)) as Hin.
  { apply elem_of_dom. exists brokenDoc. apply map_lookup_filter_Some.
    split; [apply lookup_singleton_eq | reflexivity]. }
  rewrite <- Heq in Hin. by apply not_elem_of_empty in Hin.
Qed.

(* C1 witness *)
Lemma execute_handler_failure_marks_failed_witness :
  let w := initialWorld 0 emailStore in
  ∃ w' t,
    @JobExecutor.execute cronParser failingEnvironment correctedDeployment emailJob w
      = (Ok tt, w') ∧
    clock w ≤ t ≤ clock w' ∧
    store w' !! "j1" =
      Some (mkJobDoc "A" "Every five minutes" "*/5 * * * *" "email" failed
                     (Some t) (Some 300000) t).
Proof.
  intros w.
  apply (@execute_handler_failure_marks_failed cronParser failingEnvironment
           correctedDeployment emailJob emailDoc "handler failed" w).
  - reflexivity.
  - simpl. lia.
  - reflexivity.
  - reflexivity.
  - reflexivity.
Defined.

(* C1 counterexample: the handler raises, the schema refuses the record's
   type, and the record keeps [status = active]. *)
Lemma execute_handler_failure_refused_record :
  let w := initialWorld 0 cleanupStore in
  let result :=
    @JobExecutor.execute cronParser failingEnvironment correctedDeployment
      cleanupJob w in
  @handlerFault failingEnvironment (JobExecutor.handlerOf cleanupJob) cleanupJob
    = Some "handler failed" ∧
  result.1 = Throw ("Job validation failed: type: `cleanup` is not a valid "
                    +:+ "enum value for path `type`.") ∧
  store result.2 !! "j3" = Some cleanupDoc ∧
  status cleanupDoc = active.
Proof. split_and!; vm_compute; reflexivity. Qed.

(* C3 witness *)
Lemma execute_handler_success_reschedules_witness :
  let w := initialWorld 0 emailStore in
  ∃ w' t u,
    @JobExecutor.execute cronParser quietEnvironment correctedDeployment emailJob w
      = (Ok tt, w') ∧
    clock w ≤ 100 ∧ 100 ≤ t ∧ t ≤ clock w' ∧
    store w' !! "j1" =
      Some (mkJobDoc "A" "Every five minutes" "*/5 * * * *" "email" active
                     (Some t) (Some 300000) u).
Proof.
  intros w.
  apply (@execute_handler_success_reschedules cronParser quietEnvironment
           correctedDeployment emailJob emailDoc 300000 w).
  - simpl. lia.
  - reflexivity.
  - reflexivity.
  - reflexivity.
  - vm_compute. reflexivity.
Defined.

(* C3 counterexample: the handler succeeds, the schema refuses the
   record's type, and the record keeps its unset [lastRun]. *)
Lemma execute_handler_success_refused_record :
  let w := initialWorld 0 cleanupStore in
  let result :=
    @JobExecutor.execute cronParser quietEnvironment correctedDeployment
      cleanupJob w in
  @handlerFault quietEnvironment (JobExecutor.handlerOf cleanupJob) cleanupJob
    = None ∧
  result.1 = Throw ("Job validation failed: type: `cleanup` is not a valid "
                    +:+ "enum value for path `type`.") ∧
  store result.2 !! "j3" = Some cleanupDoc ∧
  lastRun cleanupDoc = None.
Proof. split_and!; vm_compute; reflexivity. Qed.

(* C7 witness *)
Lemma execute_contains_handler_errors_witness :
  let w := initialWorld 0 emailStore in
  store w !! "j1" = Some emailDoc ∧
  @JobModel.validate correctedDeployment emailDoc = inr tt ∧
  (@JobExecutor.execute cronParser failingEnvironment correctedDeployment emailJob w).1
    = Ok tt.
Proof.
  intros w.
  assert (store w !! "j1" = Some emailDoc) as Hd by reflexivity.
  assert (@JobModel.validate correctedDeployment emailDoc = inr tt) as Hv
    by reflexivity.
  split_and!; [exact Hd | exact Hv |].
  exact (proj1 (proj2 (@execute_contains_handler_errors cronParser failingEnvironment
           correctedDeployment emailJob w)) emailDoc Hd Hv).
Defined.

(* C7 counterexample: the handler raises and [execute] rejects, for a
   job whose record is gone and for a job whose record the schema
   refuses. *)
Lemma execute_propagates_store_error :
  @handlerFault failingEnvironment (JobExecutor.handlerOf emailJob) emailJob
    = Some "handler failed" ∧
  (@JobExecutor.execute cronParser failingEnvironment correctedDeployment emailJob
     (initialWorld 0 ∅)).1 = Throw "Job not found" ∧
  @handlerFault failingEnvironment (JobExecutor.handlerOf cleanupJob) cleanupJob
    = Some "handler failed" ∧
  (@JobExecutor.execute cronParser failingEnvironment correctedDeployment cleanupJob
     (initialWorld 0 cleanupStore)).1
    = Throw ("Job validation failed: type: `cleanup` is not a valid "
             +:+ "enum value for path `type`.").
Proof. split_and!; vm_compute; reflexivity. Qed.

(* C6 witness *)
Lemma calculateNextRunTime_later_and_periodic_witness :
  parse "0 9 * * 1-5" = Some weekdaysAtNine ∧ recurring weekdaysAtNine ∧
  ∃ t1 t2,
    @JobValidator.calculateNextRunTime cronParser "0 9 * * 1-5" (initialWorld 0 ∅)
      = (Ok t1, initialWorld 0 ∅) ∧
    0 < t1 ∧ t1 < t2 ∧ satisfies weekdaysAtNine t1 = true ∧
    satisfies weekdaysAtNine t2 = true.
Proof.
  assert (parse "0 9 * * 1-5" = Some weekdaysAtNine) as Hp by (vm_compute; reflexivity).
  assert (recurring weekdaysAtNine) as Hr by (exists 4; vm_compute; reflexivity).
  split_and!; [exact Hp | exact Hr |].
  destruct (proj1 calculateNextRunTime_later_and_periodic "0 9 * * 1-5" weekdaysAtNine
              (initialWorld 0 ∅) Hp Hr)
    as (t1 & t2 & H1 & _ & Hlt & Hs1 & _ & _ & Hlt2 & Hs2 & _).
  exists t1, t2. split_and!; [exact H1 | exact Hlt | exact Hlt2 | exact Hs1 | exact Hs2].
Defined.

(* ===================================================================== *)
(** * Further properties of the code *)
(* ===================================================================== *)

(** ** Effects confined to the registry *)

Lemma tasksExtend_refl l : tasksExtend l l.
Proof. intros h t Ht. by exists t. Qed.

Lemma tasksExtend_trans l1 l2 l3 :
  tasksExtend l1 l2 → tasksExtend l2 l3 → tasksExtend l1 l3.
Proof.
  intros H12 H23 h t Ht.
  destruct (H12 _ _ Ht) as (t2 & Ht2 & Hj2 & He2 & Hr2).
  destruct (H23 _ _ Ht2) as (t3 & Ht3 & Hj3 & He3 & Hr3).
  exists t3. split_and!; [done|congruence|congruence|auto].
Qed.

Lemma tasksExtend_alter l h : tasksExtend l (alter stopTask h l).
Proof.
  intros h' t Ht. destruct (decide (h = h')) as [->|Hne].
  - exists (stopTask t). rewrite list_lookup_alter_eq, Ht. by split_and!.
  - exists t. by rewrite list_lookup_alter_ne.
Qed.

Lemma tasksExtend_app l t : tasksExtend l (l ++ [t]).
Proof.
  intros h t' Ht. exists t'. split_and!; try done.
  rewrite lookup_app_l; [done|]. by eapply lookup_lt_Some.
Qed.

Lemma registryOnly_refl w : registryOnly w w.
Proof. constructor; try done. apply tasksExtend_refl. Qed.

Lemma registryOnly_trans w1 w2 w3 :
  registryOnly w1 w2 → registryOnly w2 w3 → registryOnly w1 w3.
Proof.
  intros [? ? ? ? ?] [? ? ? ? ?]. constructor; try congruence.
  by eapply tasksExtend_trans.
Qed.

Lemma registryOnly_log w e : registryOnly w (add_log e w).
Proof. constructor; try done. apply tasksExtend_refl. Qed.

Section RegistryFrame.
Context `{CronParser} `{NodeCron} `{Environment} `{Deployment}.
Import SchedulerManager.

Lemma unscheduleJob_registryOnly id w : registryOnly w (unscheduleJob id w).2.
Proof.
  destruct (scheduledTasks w !! id) as [h|] eqn:E.
  - rewrite (unscheduleJob_present_run _ _ _ E). constructor; try done.
    simpl. apply tasksExtend_alter.
  - rewrite (unscheduleJob_absent_run _ _ E). apply registryOnly_refl.
Qed.

Lemma scheduleJob_ok job w : (scheduleJob job w).1 = Ok tt.
Proof.
  rewrite scheduleJob_run. destruct (isShuttingDown w); [done|]. simpl.
  case_bool_decide; [|done]. by destruct (validation _ _).
Qed.

Lemma scheduleJob_registryOnly job w : registryOnly w (scheduleJob job w).2.
Proof.
  rewrite scheduleJob_run. destruct (isShuttingDown w) eqn:Hflag.
  { apply registryOnly_log. }
  simpl. pose proof (unscheduleJob_registryOnly (_id job) w) as Hro.
  destruct (unscheduleJob (_id job) w) as [r w1]. simpl in *.
  case_bool_decide.
  2: { eapply registryOnly_trans; [exact Hro | apply registryOnly_log]. }
  destruct (validation _ _) as [e|t].
  { eapply registryOnly_trans; [exact Hro | apply registryOnly_log]. }
  eapply registryOnly_trans; [exact Hro|].
  constructor; try done. simpl. apply tasksExtend_app.
Qed.

Lemma scheduleJob_other job id w :
  id ≠ _id job →
  scheduledTasks (scheduleJob job w).2 !! id = scheduledTasks w !! id.
Proof.
  intros Hne. rewrite scheduleJob_run. destruct (isShuttingDown w); [done|]. simpl.
  pose proof (unscheduleJob_registry (_id job) w) as Hreg.
  destruct (unscheduleJob (_id job) w) as [r w1]. simpl in *.
  case_bool_decide; [destruct (validation _ _) as [e|t]|]; simpl;
    rewrite ?lookup_insert_ne by done; rewrite Hreg; by apply lookup_delete_ne.
Qed.

(** What [scheduleJob] leaves under the job's own id. *)
Lemma scheduleJob_own job w :
  isShuttingDown w = false →
  is_Some (scheduledTasks (scheduleJob job w).2 !! _id job) ↔
  status job = active ∧ accepted (cronSchedule job) (clock w).
Proof.
  intros Hflag. rewrite scheduleJob_run, Hflag. simpl.
  pose proof (unscheduleJob_registry (_id job) w) as Hreg.
  destruct (unscheduleJob (_id job) w) as [r w1]. simpl in *.
  unfold accepted. case_bool_decide as Hact.
  - destruct (validation _ _) as [e|t]; simpl.
    + rewrite Hreg, lookup_delete_eq. split; [by intros [? ?]|]. by intros [_ [? ?]].
    + rewrite lookup_insert_eq. split; [|done]. intros _. split; [done|by eexists].
  - simpl. rewrite Hreg, lookup_delete_eq. split; [by intros [? ?]|]. by intros [? _].
Qed.

Lemma forEach_scheduleJob_spec (l : list Job) (w : World) :
  NoDup (_id <$> l) →
  ∃ w', forEach l (λ job, scheduleJob job) w = (Ok tt, w') ∧
    registryOnly w w' ∧
    (∀ id, id ∉ _id <$> l → scheduledTasks w' !! id = scheduledTasks w !! id) ∧
    (isShuttingDown w = false → ∀ job : Job, job ∈ l →
       is_Some (scheduledTasks w' !! _id job) ↔
       status job = active ∧ accepted (cronSchedule job) (clock w)).
Proof.
  revert w. induction l as [|job l IH]; intros w Hnd.
  - exists w. split_and!; [done|apply registryOnly_refl|done|].
    intros _ job Hin. by apply not_elem_of_nil in Hin.
  - rewrite fmap_cons in Hnd. apply NoDup_cons in Hnd as [Hfresh Hnd].
    pose proof (scheduleJob_ok job w) as Hok.
    pose proof (scheduleJob_registryOnly job w) as Hro.
    pose proof (scheduleJob_other job) as Hother.
    pose proof (scheduleJob_own job w) as Hown.
    destruct (scheduleJob job w) as [r w1] eqn:E. simpl in *. subst r.
    destruct (IH w1 Hnd) as (w' & Hrun & Hro' & Hout & Hin).
    exists w'. split_and!.
    + munfold. by rewrite E.
    + by eapply registryOnly_trans.
    + intros id Hid. rewrite not_elem_of_cons in Hid. destruct Hid as [Hne Hid].
      rewrite (Hout _ Hid). specialize (Hother id w Hne). by rewrite E in Hother.
    + intros Hflag job' Hjob'.
      assert (isShuttingDown w1 = false) as Hflag1.
      { rewrite (ro_flag _ _ Hro). done. }
      apply elem_of_cons in Hjob' as [->|Hjob'].
      * rewrite (Hout _ Hfresh). by apply Hown.
      * rewrite (Hin Hflag1 _ Hjob'). by rewrite (ro_clock _ _ Hro).
Qed.

Lemma forEach_unscheduleJob_spec (l : list string) (w : World) :
  ∃ w', forEach l (λ jobId, unscheduleJob jobId) w = (Ok tt, w') ∧
    registryOnly w w' ∧
    (∀ id, id ∈ l → scheduledTasks w' !! id = None) ∧
    (∀ id, id ∉ l → scheduledTasks w' !! id = scheduledTasks w !! id).
Proof.
  revert w. induction l as [|id l IH]; intros w.
  - exists w. split_and!; [done|apply registryOnly_refl| |done].
    intros id Hin. by apply not_elem_of_nil in Hin.
  - pose proof (unscheduleJob_ok id w) as Hok.
    pose proof (unscheduleJob_registry id w) as Hreg.
    pose proof (unscheduleJob_registryOnly id w) as Hro.
    destruct (unscheduleJob id w) as [r w1] eqn:E. simpl in *. subst r.
    destruct (IH w1) as (w' & Hrun & Hro' & Hin & Hout).
    exists w'. split_and!.
    + munfold. by rewrite E.
    + by eapply registryOnly_trans.
    + intros id' Hid'. destruct (decide (id' ∈ l)) as [Hl|Hl]; [by apply Hin|].
      apply elem_of_cons in Hid' as [->|?]; [|done].
      rewrite (Hout _ Hl), Hreg. apply lookup_delete_eq.
    + intros id' Hid'. rewrite not_elem_of_cons in Hid'. destruct Hid' as [Hne Hid'].
      rewrite (Hout _ Hid'), Hreg. by apply lookup_delete_ne.
Qed.
End RegistryFrame.

(** ** One reconciliation pass, id by id *)

Lemma activeJobs_NoDup (s : gmap string JobDoc) : NoDup (_id <$> activeJobs s).
Proof.
  unfold activeJobs.
  apply (sublist_NoDup _ (_id <$> ((λ p, mkJob p.1 p.2) <$> map_to_list s))).
  - rewrite <- list_fmap_compose.
    apply (NoDup_fst_map_to_list s).
  - apply fmap_sublist, sublist_filter.
Qed.

Lemma activeIds_elem (s : gmap string JobDoc) id :
  id ∈ activeIds s ↔ ∃ d, s !! id = Some d ∧ status d = active.
Proof.
  unfold activeIds. rewrite elem_of_dom. split.
  - intros [d [Hl Hact]%map_lookup_filter_Some]. by exists d.
  - intros (d & Hl & Hact). exists d. by apply map_lookup_filter_Some.
Qed.

Section DiscoverySpec.
Context `{CronParser} `{NodeCron} `{Environment} `{Deployment}.
Import SchedulerManager.

Lemma getActiveJobs_spec (w : World) :
  ∃ w1, JobService.getActiveJobs w = (Ok (activeJobs (store w)), w1) ∧
        schedulerState w1 = schedulerState w ∧ store w1 = store w ∧
        clock w1 = clock w + ioLatency.
Proof.
  unfold JobService.getActiveJobs, JobRepository.findActiveJobs,
    JobModel.findActiveJobs, JobModel.awaitIO. munfold. simpl.
  eexists. split; [reflexivity|]. by split_and!.
Qed.

(** One reconciliation pass, id by id. *)
Lemma discover_spec (w : World) :
  ∃ w', discoverAndScheduleJobs w = (Ok tt, w') ∧
    store w' = store w ∧ clock w' = clock w + ioLatency ∧
    isShuttingDown w' = isShuttingDown w ∧
    (isRunning w', intervalId w', intervalSeq w') =
      (isRunning w, intervalId w, intervalSeq w) ∧
    tasksExtend (cronTasks w) (cronTasks w') ∧
    (∀ id, id ∉ activeIds (store w) → scheduledTasks w' !! id = None) ∧
    (∀ id h, id ∈ activeIds (store w) → scheduledTasks w !! id = Some h →
             scheduledTasks w' !! id = Some h) ∧
    (isShuttingDown w = false →
     ∀ id d, store w !! id = Some d → status d = active →
             scheduledTasks w !! id = None →
             is_Some (scheduledTasks w' !! id) ↔
             accepted (cronSchedule d) (clock w + ioLatency)).
Proof.
  unfold discoverAndScheduleJobs, JobDiscovery.discoverAndScheduleJobs.
  destruct (getActiveJobs_spec w) as (w1 & Hget & Hfr & Hst & Hck).
  unfold schedulerState in Hfr. injection Hfr as Ht Hr Hs Hd1 Hd2 Hd3.
  pose proof (@forEach_guard Job) as G1.
  pose proof (@forEach_guard string) as G2.
  munfold. rewrite Hget. simpl.
  rewrite G1, G2. clear G1 G2.
  change (map_to_list (scheduledTasks w1)).*1 with (registeredIds w1).
  set (current := list_to_set (registeredIds w1) : gset string).
  set (newJobs := filter (λ job : Job, _id job ∉ current) (activeJobs (store w))).
  set (gone := filter (λ jobId, jobId ∉ (list_to_set (_id <$> activeJobs (store w)) : gset string))
                      (elements current)).
  assert (∀ id, id ∈ current ↔ is_Some (scheduledTasks w !! id)) as Hcur.
  { intros id. subst current. rewrite registeredIds_dom, Hr. apply elem_of_dom. }
  assert (∀ id, id ∈ gone ↔ is_Some (scheduledTasks w !! id) ∧ id ∉ activeIds (store w))
    as Hgone.
  { intros id. subst gone. rewrite list_elem_of_filter, elem_of_elements, Hcur.
    rewrite activeJobs_ids. tauto. }
  assert (∀ id, id ∈ _id <$> newJobs ↔
                scheduledTasks w !! id = None ∧ id ∈ activeIds (store w)) as Hnew.
  { intros id. subst newJobs. rewrite list_elem_of_fmap. split.
    - intros (job & -> & [Hn Hin]%list_elem_of_filter).
      rewrite Hcur in Hn. split; [by apply eq_None_not_Some|].
      rewrite <- activeJobs_ids. apply elem_of_list_to_set, list_elem_of_fmap. by exists job.
    - intros [Hnone Hact]. rewrite <- activeJobs_ids in Hact.
      apply elem_of_list_to_set, list_elem_of_fmap in Hact as (job & -> & Hin).
      exists job. split; [done|]. apply list_elem_of_filter. split; [|done].
      rewrite Hcur, Hnone. by intros [? ?]. }
  destruct (forEach_scheduleJob_spec newJobs w1) as (w2 & Hrun2 & Hro2 & Hout2 & Hin2).
  { eapply sublist_NoDup; [apply (activeJobs_NoDup (store w))|].
    apply fmap_sublist, sublist_filter. }
  rewrite Hrun2.
  destruct (forEach_unscheduleJob_spec gone w2) as (w3 & Hrun3 & Hro3 & Hin3 & Hout3).
  rewrite Hrun3.
  pose proof (registryOnly_trans _ _ _ Hro2 Hro3) as [Hs3 Hc3 Hf3 Hd3' Ht3].
  set (fin := if (0 <? length newJobs)%nat || (0 <? length gone)%nat
              then add_log (INFO, DiscoveryCompleted (length newJobs) (length gone)) w3
              else w3).
  exists fin.
  assert (store fin = store w3 ∧ clock fin = clock w3 ∧
          isShuttingDown fin = isShuttingDown w3 ∧
          (isRunning fin, intervalId fin, intervalSeq fin) =
            (isRunning w3, intervalId w3, intervalSeq w3) ∧
          cronTasks fin = cronTasks w3 ∧ scheduledTasks fin = scheduledTasks w3)
    as (F1 & F2 & F3 & F4 & F5 & F6).
  { subst fin. by destruct (_ || _). }
  split_and!.
  - subst fin. by destruct (_ || _).
  - congruence.
  - congruence.
  - congruence.
  - rewrite F4, Hd3'. congruence.
  - rewrite F5. intros h t Hl. apply Ht3. by rewrite Ht.
  - intros id Hact. rewrite F6.
    destruct (scheduledTasks w !! id) as [h|] eqn:E.
    + apply Hin3. apply Hgone. by rewrite E.
    + destruct (decide (id ∈ gone)) as [Hg|Hg]; [by apply Hin3|].
      rewrite (Hout3 _ Hg), Hout2, Hr; [done|].
      rewrite Hnew. tauto.
  - intros id h Hact Hreg. rewrite F6.
    rewrite Hout3, Hout2, Hr; [done| |].
    + rewrite Hnew, Hreg. by intros [? _].
    + rewrite Hgone. tauto.
  - intros Hflag id d Hl Hactive Hnone. rewrite F6.
    assert (id ∈ activeIds (store w)) as Hact by (apply activeIds_elem; eauto).
    rewrite Hout3 by (rewrite Hgone; tauto).
    assert (mkJob id d ∈ newJobs) as Hjob.
    { subst newJobs. apply list_elem_of_filter. split.
      - simpl. rewrite Hcur, Hnone. by intros [? ?].
      - by apply activeJobs_elem. }
    rewrite (Hin2 ltac:(congruence) _ Hjob). simpl. rewrite Hck. tauto.
Qed.
End DiscoverySpec.

(** ** Scheduling and cancelling one job *)

Lemma registeredIds_elem (w : World) id :
  id ∈ registeredIds w ↔ is_Some (scheduledTasks w !! id).
Proof.
  rewrite <- (elem_of_list_to_set (C:=gset string)), registeredIds_dom.
  apply elem_of_dom.
Qed.

Lemma task_eq (t t' : ScheduledTask) :
  task_job t' = task_job t → task_expression t' = task_expression t →
  task_running t' = task_running t → t' = t.
Proof. destruct t, t'. simpl. by intros -> -> ->. Qed.

(** Under consistency a job's live count is decided by the registry. *)
Lemma liveCount_registry w w' id :
  consistent w → consistent w' →
  scheduledTasks w' !! id = scheduledTasks w !! id →
  liveCount id w' = liveCount id w.
Proof.
  intros Hc Hc' Heq. destruct (scheduledTasks w !! id) as [h|] eqn:E.
  - by rewrite (liveCount_registered _ _ _ Hc' Heq), (liveCount_registered _ _ _ Hc E).
  - by rewrite (liveCount_unregistered _ _ Hc' Heq), (liveCount_unregistered _ _ Hc E).
Qed.

(** A registered task that stays registered under the same handle is the
    same task object. *)
Lemma registered_task_kept w w' id h :
  consistent w → consistent w' →
  tasksExtend (cronTasks w) (cronTasks w') →
  scheduledTasks w !! id = Some h → scheduledTasks w' !! id = Some h →
  ∃ t, cronTasks w !! h = Some t ∧ cronTasks w' !! h = Some t ∧
       task_running t = true ∧ _id (task_job t) = id.
Proof.
  intros Hc Hc' Hext Hreg Hreg'.
  destruct (registered_live _ Hc _ _ Hreg) as (t & Ht & Hrun & Hid).
  destruct (registered_live _ Hc' _ _ Hreg') as (t' & Ht' & Hrun' & Hid').
  destruct (Hext _ _ Ht) as (t'' & Ht'' & Hj & He & _).
  rewrite Ht' in Ht''. injection Ht'' as <-.
  exists t. split_and!; try done. rewrite Ht'. f_equal.
  apply task_eq; congruence.
Qed.

Lemma tasksExtend_stopAll hs l : tasksExtend l (stopAll hs l).
Proof.
  revert l. induction hs as [|h hs IH]; intros l; simpl.
  - apply tasksExtend_refl.
  - eapply tasksExtend_trans; [apply tasksExtend_alter | apply IH].
Qed.

Section SchedulerExtras.
Context `{CronParser} `{NodeCron} `{Environment} `{Deployment}.
Import SchedulerManager.

Lemma unscheduleJob_tasks_length id w :
  length (cronTasks (unscheduleJob id w).2) = length (cronTasks w).
Proof.
  destruct (scheduledTasks w !! id) as [h|] eqn:E.
  - rewrite (unscheduleJob_present_run _ _ _ E). simpl. by rewrite length_alter.
  - by rewrite (unscheduleJob_absent_run _ _ E).
Qed.

(** X1: from a consistent state that is not shutting down, [scheduleJob]
    on an active job whose expression passes the checks registers it under
    a fresh handle: the new task closes over the given job and expression
    and runs, the task the id held before (if any) is stopped, the job has
    exactly one live timer, and the success is the last line logged. *)
Theorem scheduleJob_registers_accepted_job (job : Job) (t : Z) (w : World) :
  consistent w → isShuttingDown w = false → status job = active →
  validation (cronSchedule job) (clock w) = inr t →
  ∃ w', scheduleJob job w = (Ok tt, w') ∧
    scheduledTasks w' = <[_id job := length (cronTasks w)]> (scheduledTasks w) ∧
    cronTasks w' !! length (cronTasks w) = Some (mkTask job (cronSchedule job) true) ∧
    (∀ h t0, scheduledTasks w !! _id job = Some h →
             cronTasks w' !! h = Some t0 → task_running t0 = false) ∧
    liveCount (_id job) w' = 1%nat ∧
    last (logs w') = Some (INFO, JobScheduled (_id job) t).
Proof.
  intros Hc Hflag Hact Hval.
  pose proof (consistent_scheduleJob job w Hc) as Hc'.
  pose proof (scheduleJob_run job w) as Hrun.
  rewrite Hflag in Hrun. simpl in Hrun.
  rewrite bool_decide_eq_true_2, Hval in Hrun by done.
  pose proof (unscheduleJob_registry (_id job) w) as Hreg.
  pose proof (unscheduleJob_tasks_length (_id job) w) as Hlen.
  assert (∀ h t0, scheduledTasks w !! _id job = Some h →
            cronTasks (unscheduleJob (_id job) w).2 !! h = Some t0 →
            task_running t0 = false) as Hold.
  { intros h t0 Hh. rewrite (unscheduleJob_present_run _ _ _ Hh). simpl.
    rewrite list_lookup_alter_eq. destruct (cronTasks w !! h); simpl; [|done].
    by intros [= <-]. }
  destruct (unscheduleJob (_id job) w) as [r w1]. simpl in *.
  rewrite Hrun in Hc'. simpl in Hc'. rewrite Hlen in Hrun, Hc'.
  eexists. split; [exact Hrun|]. simpl. split_and!.
  - rewrite Hreg. apply insert_delete_eq.
  - rewrite lookup_app_r by lia. by rewrite Hlen, Nat.sub_diag.
  - intros h t0 Hh Hl.
    destruct (registered_live _ Hc _ _ Hh) as (tt0 & Htt0 & _).
    apply lookup_lt_Some in Htt0.
    rewrite lookup_app_l in Hl by lia. by eapply Hold.
  - eapply liveCount_registered; [exact Hc'|]. simpl. apply lookup_insert_eq.
  - apply last_snoc.
Qed.

(** X2: [scheduleJob] returns normally, never touches the store or the
    clock, and in a consistent state leaves every other job alone: its
    registry entry, its task object and its live count are as before. *)
Theorem scheduleJob_leaves_other_jobs (job : Job) (w : World) :
  consistent w →
  let w' := (scheduleJob job w).2 in
  (scheduleJob job w).1 = Ok tt ∧ store w' = store w ∧ clock w' = clock w ∧
  ∀ id, id ≠ _id job →
    scheduledTasks w' !! id = scheduledTasks w !! id ∧
    liveCount id w' = liveCount id w ∧
    ∀ h, scheduledTasks w !! id = Some h → cronTasks w' !! h = cronTasks w !! h.
Proof.
  intros Hc w'.
  pose proof (consistent_scheduleJob job w Hc) as Hc'.
  pose proof (scheduleJob_registryOnly job w) as [Hs Hk _ _ Hext].
  split_and!; [apply scheduleJob_ok|done|done|].
  intros id Hne. pose proof (scheduleJob_other job id w Hne) as Hsame.
  split_and!; [done|by apply liveCount_registry|].
  intros h Hh.
  destruct (registered_task_kept w w' id h Hc Hc' Hext Hh) as (t0 & -> & -> & _).
  - subst w'. by rewrite Hsame.
  - done.
Qed.

(** X3: cancelling a registered job from a consistent state removes its
    id from the registry (one entry fewer), stops the task it held, and
    leaves the job without a live timer; the store and every other job's
    timer are untouched. *)
Theorem unscheduleJob_cancels_timer (id : string) (h : nat) (w : World) :
  consistent w → scheduledTasks w !! id = Some h →
  ∃ w' t, unscheduleJob id w = (Ok tt, w') ∧
    scheduledTasks w' = delete id (scheduledTasks w) ∧
    (id ∉ registeredIds w') ∧
    registeredCount w' = pred (registeredCount w) ∧
    cronTasks w !! h = Some t ∧ cronTasks w' !! h = Some (stopTask t) ∧
    liveCount id w' = 0%nat ∧
    store w' = store w ∧
    ∀ id', id' ≠ id → liveCount id' w' = liveCount id' w.
Proof.
  intros Hc Hreg.
  pose proof (consistent_unscheduleJob id w Hc) as Hc'.
  destruct (registered_live _ Hc _ _ Hreg) as (t & Ht & Hrun & Hid).
  rewrite (unscheduleJob_present_run _ _ _ Hreg) in *.
  eexists _, t. split; [reflexivity|]. simpl. split_and!; try done.
  - rewrite registeredIds_elem. simpl. rewrite lookup_delete_eq. by intros [? ?].
  - unfold registeredCount. simpl. apply map_size_delete_Some. by eexists.
  - by rewrite list_lookup_alter_eq, Ht.
  - apply liveCount_unregistered; [done|]. simpl. apply lookup_delete_eq.
  - intros id' Hne. apply liveCount_registry; [done..|]. simpl.
    by apply lookup_delete_ne.
Qed.
End SchedulerExtras.

(** ** The reconciliation pass *)

Lemma filter_none {A} (P : A → Prop) `{!∀ x, Decision (P x)} (l : list A) :
  (∀ x, x ∈ l → ¬ P x) → filter P l = [].
Proof.
  intros Hno. destruct (filter P l) as [|y l'] eqn:E; [done|].
  assert (y ∈ filter P l) as Hy by (rewrite E; left).
  apply list_elem_of_filter in Hy as [Hy Hin]. by destruct (Hno y Hin).
Qed.

Section DiscoveryExtras.
Context `{CronParser} `{NodeCron} `{Environment} `{Deployment}.
Import SchedulerManager.

(** X4: with the scheduler not shutting down, one reconciliation pass
    returns normally, leaves the store as it was, and afterwards a job id
    is registered exactly when the store holds an active job under it that
    either was registered before the pass or carries an expression the
    checks of [scheduleJob] accept at the time of the pass. *)
Theorem discovery_registers_exactly (w : World) :
  isShuttingDown w = false →
  ∃ w', discoverAndScheduleJobs w = (Ok tt, w') ∧ store w' = store w ∧
    ∀ id, id ∈ registeredIds w' ↔
      ∃ d, store w !! id = Some d ∧ status d = active ∧
           (id ∈ registeredIds w ∨ accepted (cronSchedule d) (clock w + ioLatency)).
Proof.
  intros Hflag.
  destruct (discover_spec w) as (w' & Hrun & Hst & _ & _ & _ & _ & Hgone & Hkeep & Hnew).
  exists w'. split_and!; [done..|]. intros id.
  split.
  - intros Hsome%registeredIds_elem.
    destruct (decide (id ∈ activeIds (store w))) as [Hact|Hact].
    2: { rewrite (Hgone _ Hact) in Hsome. by destruct Hsome. }
    apply activeIds_elem in Hact as (d & Hd & Hs). exists d. split_and!; [done..|].
    destruct (scheduledTasks w !! id) as [h|] eqn:E.
    { left. apply registeredIds_elem. by eexists. }
    right. by apply (Hnew Hflag id d Hd Hs E).
  - intros (d & Hd & Hs & [[h Hreg]%registeredIds_elem|Hacc]); apply registeredIds_elem.
    + exists h. apply Hkeep; [|done]. apply activeIds_elem. eauto.
    + destruct (scheduledTasks w !! id) as [h|] eqn:E.
      * exists h. apply Hkeep; [|done]. apply activeIds_elem. eauto.
      * by apply (Hnew Hflag id d Hd Hs E).
Qed.

(** X5: a reconciliation pass never re-registers a job that is already
    registered: from a consistent state, an id that is registered and
    active in the store keeps its handle and its task object, so the timer
    goes on with the job document and the expression captured when it was
    scheduled, whatever the store holds for that id now. *)
Theorem discovery_keeps_registered_timer
    (id : string) (h : nat) (d : JobDoc) (w : World) :
  consistent w →
  scheduledTasks w !! id = Some h →
  store w !! id = Some d → status d = active →
  ∃ w' t, discoverAndScheduleJobs w = (Ok tt, w') ∧
    scheduledTasks w' !! id = Some h ∧
    cronTasks w !! h = Some t ∧ cronTasks w' !! h = Some t ∧
    task_running t = true.
Proof.
  intros Hc Hreg Hd Hact.
  pose proof (stable_consistent_discover w Hc) as Hc'.
  destruct (discover_spec w) as (w' & Hrun & _ & _ & _ & _ & Hext & _ & Hkeep & _).
  rewrite Hrun in Hc'. simpl in Hc'.
  assert (scheduledTasks w' !! id = Some h) as Hreg'.
  { apply Hkeep; [|done]. apply activeIds_elem. eauto. }
  destruct (registered_task_kept w w' id h Hc Hc' Hext Hreg Hreg')
    as (t & Ht & Ht' & Hr & _).
  by exists w', t.
Qed.

(** X6: after a reconciliation pass from a consistent state, in any
    phase of the scheduler, no id without an active job in the store is
    registered: its entry is gone, the task it held is stopped and it has
    no live timer. *)
Theorem discovery_unschedules_inactive (id : string) (w : World) :
  consistent w → id ∉ activeIds (store w) →
  ∃ w', discoverAndScheduleJobs w = (Ok tt, w') ∧
    (id ∉ registeredIds w') ∧
    liveCount id w' = 0%nat ∧
    ∀ h t, scheduledTasks w !! id = Some h → cronTasks w' !! h = Some t →
           task_running t = false.
Proof.
  intros Hc Hact.
  pose proof (stable_consistent_discover w Hc) as Hc'.
  destruct (discover_spec w) as (w' & Hrun & _ & _ & _ & _ & Hext & Hgone & _ & _).
  rewrite Hrun in Hc'. simpl in Hc'.
  exists w'. split_and!; [done| | |].
  - rewrite registeredIds_elem, (Hgone _ Hact). by intros [? ?].
  - apply liveCount_unregistered; [done|]. by apply Hgone.
  - intros h t Hreg Ht.
    destruct (task_running t) eqn:Hrun'; [|done]. exfalso.
    destruct (registered_live _ Hc _ _ Hreg) as (t0 & Ht0 & _ & Hid0).
    destruct (Hext _ _ Ht0) as (t1 & Ht1 & Hj & _).
    rewrite Ht in Ht1. injection Ht1 as <-.
    pose proof (live_registered _ Hc' _ _ Ht Hrun') as Hx.
    rewrite Hj, Hid0, (Hgone _ Hact) in Hx. done.
Qed.

(** X7: when the registered ids already are the active ids of the
    store, a reconciliation pass changes nothing in the scheduler: it
    reads the store, logs the repository's one debug line and returns,
    with the registry, the timers and the store as they were. *)
Theorem discovery_reconciled_is_noop (w : World) :
  list_to_set (registeredIds w) = activeIds (store w) →
  ∃ w', discoverAndScheduleJobs w = (Ok tt, w') ∧
    schedulerState w' = schedulerState w ∧ store w' = store w ∧
    logs w' = logs w ++ [(DEBUG, RepositoryLog "findActiveJobs" "")].
Proof.
  intros Heq.
  unfold discoverAndScheduleJobs, JobDiscovery.discoverAndScheduleJobs,
    JobService.getActiveJobs, JobRepository.findActiveJobs,
    JobModel.findActiveJobs, JobModel.awaitIO. munfold. simpl.
  fold (activeJobs (store w)).
  set (w1 := add_log _ _).
  change (map_to_list (scheduledTasks w)).*1 with (registeredIds w).
  rewrite Heq, activeJobs_ids.
  rewrite (filter_none (λ job : Job, _id job ∉ activeIds (store w))).
  2: { intros job Hin Hnot. apply Hnot. rewrite <- activeJobs_ids.
       apply elem_of_list_to_set, list_elem_of_fmap. by exists job. }
  rewrite (filter_none (λ jobId, jobId ∉ activeIds (store w))).
  2: { intros id Hin Hnot. by apply elem_of_elements in Hin. }
  simpl. by eexists.
Qed.
End DiscoveryExtras.

(** ** The life cycle of the scheduler *)

Lemma intervalCoherent_fields w w' :
  (isRunning w', intervalId w', intervalSeq w') =
    (isRunning w, intervalId w, intervalSeq w) →
  intervalCoherent w → intervalCoherent w'.
Proof.
  intros Heq. injection Heq as Hr Hi Hs.
  unfold intervalCoherent. by rewrite Hr, Hi, Hs.
Qed.

Section LifecycleExtras.
Context `{CronParser} `{NodeCron} `{Environment} `{Deployment}.
Import SchedulerManager.

Lemma fire_framed task : framed (fire task).
Proof.
  apply framed_stable. intros w0. unfold fire, onTick.
  repeat first [apply stable_execute | apply stable_executeJob | stable_step].
Qed.

Lemma onInterval_run (w : World) :
  onInterval w =
    match intervalId w with
    | None => (Ok tt, w)
    | Some _ => if isShuttingDown w then (Ok tt, w) else discoverAndScheduleJobs w
    end.
Proof.
  unfold onInterval, JobDiscovery.onInterval. munfold.
  destruct (intervalId w); [|done]. destruct (isShuttingDown w); [done|].
  fold discoverAndScheduleJobs.
  destruct (discover_spec w) as (w' & -> & _). done.
Qed.

(** What [start] does, id by id. *)
Lemma start_spec (w : World) :
  ∃ w', start w = (Ok tt, w') ∧
    store w' = store w ∧ clock w' = clock w + ioLatency ∧
    isShuttingDown w' = isShuttingDown w ∧
    (isRunning w', intervalId w', intervalSeq w') =
      (if isRunning w then (true, intervalId w, intervalSeq w)
       else (true, Some (intervalSeq w), S (intervalSeq w))) ∧
    tasksExtend (cronTasks w) (cronTasks w') ∧
    (∀ id, id ∉ activeIds (store w) →
           scheduledTasks w' !! id = scheduledTasks w !! id) ∧
    (isShuttingDown w = false →
     ∀ id d, store w !! id = Some d → status d = active →
             is_Some (scheduledTasks w' !! id) ↔
             accepted (cronSchedule d) (clock w + ioLatency)).
Proof.
  unfold start.
  destruct (getActiveJobs_spec (add_log (INFO, StartingScheduler) w))
    as (w1 & Hget & Hfr & Hst & Hck).
  unfold schedulerState in Hfr. injection Hfr as Ht Hr Hs Hd1 Hd2 Hd3.
  simpl in Ht, Hr, Hs, Hd1, Hd2, Hd3, Hst, Hck.
  destruct (forEach_scheduleJob_spec (activeJobs (store w))
              (add_log (INFO, FoundActiveJobs (length (activeJobs (store w)))) w1))
    as (w2 & Hrun2 & [Hs2 Hc2 Hf2 Hd Ht2] & Hout2 & Hin2).
  { apply activeJobs_NoDup. }
  simpl in Hs2, Hc2, Hf2, Hd, Ht2, Hout2, Hin2. injection Hd as Hd21 Hd22 Hd23.
  unfold JobDiscovery.start. munfold. unfold modify. cbv beta iota.
  rewrite Hget. cbv beta iota.
  change (store (add_log (INFO, StartingScheduler) w)) with (store w).
  assert (forEach (activeJobs (store w)) scheduleJob
            (add_log (INFO, FoundActiveJobs (length (activeJobs (store w)))) w1)
          = (Ok tt, w2)) as -> by exact Hrun2.
  cbv beta iota.
  assert (∀ id, id ∉ activeIds (store w) →
            scheduledTasks w2 !! id = scheduledTasks w !! id) as Hout.
  { intros id Hid. rewrite Hout2, Hr; [done|].
    intros Hin. apply Hid. rewrite <- activeJobs_ids.
    by apply elem_of_list_to_set. }
  assert (isShuttingDown w = false →
     ∀ id d, store w !! id = Some d → status d = active →
             is_Some (scheduledTasks w2 !! id) ↔
             accepted (cronSchedule d) (clock w + ioLatency)) as Hin.
  { intros Hflag id d Hl Hact.
    assert (mkJob id d ∈ activeJobs (store w)) as Hjob by by apply activeJobs_elem.
    rewrite (Hin2 ltac:(congruence) _ Hjob). simpl. rewrite Hck. tauto. }
  destruct (isRunning w2) eqn:Hrunning; simpl;
    (eexists; split; [reflexivity|]); simpl;
    (split_and!; [congruence|congruence|congruence| |
                  intros h t Hl; apply Ht2; by rewrite Ht|done|done]).
  - rewrite <- Hd1, <- Hd21. congruence.
  - rewrite <- Hd1, <- Hd21. congruence.
Qed.

(** X8: [start], called on a scheduler that is not shutting down,
    returns normally even when active jobs carry expressions that fail the
    checks; afterwards the discovery loop runs, and an id is registered
    exactly when it is an active job of the store whose expression is
    accepted at the time of the call, or was registered before and has no
    active job in the store ([start] unschedules nothing it did not try to
    schedule). *)
Theorem start_registers_accepted_active_jobs (w : World) :
  isShuttingDown w = false →
  ∃ w', start w = (Ok tt, w') ∧ store w' = store w ∧
    isRunning w' = true ∧
    (isRunning w = false → intervalId w' = Some (intervalSeq w)) ∧
    ∀ id, id ∈ registeredIds w' ↔
      (∃ d, store w !! id = Some d ∧ status d = active ∧
            accepted (cronSchedule d) (clock w + ioLatency)) ∨
      (id ∈ registeredIds w ∧ id ∉ activeIds (store w)).
Proof.
  intros Hflag.
  destruct (start_spec w) as (w' & Hrun & Hst & _ & _ & Hd & _ & Hout & Hin).
  exists w'. split_and!; [done|done| | |].
  - destruct (isRunning w); by injection Hd.
  - intros Hoff. rewrite Hoff in Hd. by injection Hd.
  - intros id. rewrite !registeredIds_elem.
    destruct (decide (id ∈ activeIds (store w))) as [Hact|Hact].
    + pose proof Hact as (d & Hl & Hs)%activeIds_elem.
      rewrite (Hin Hflag id d Hl Hs). split.
      * intros Hacc. left. by exists d.
      * intros [(d' & Hl' & _ & Hacc)|[_ Hno]]; [congruence|done].
    + rewrite (Hout _ Hact). split.
      * intros Hreg. by right.
      * intros [(d & Hl & Hs & _)|[Hreg _]]; [|done].
        exfalso. apply Hact, activeIds_elem. eauto.
Qed.

Lemma tasksExtend_step w ev : tasksExtend (cronTasks w) (cronTasks (step w ev)).
Proof.
  destruct ev; simpl.
  - apply scheduleJob_registryOnly.
  - apply unscheduleJob_registryOnly.
  - by destruct (start_spec w) as (w' & -> & _ & _ & _ & _ & Hext & _).
  - destruct (stop_run w) as (w' & -> & Ht & _). simpl. rewrite Ht.
    apply tasksExtend_stopAll.
  - destruct (shutdown_run w) as (w' & -> & Ht & _). simpl. rewrite Ht.
    apply tasksExtend_stopAll.
  - pose proof (fire_framed task w) as Hf. unfold schedulerState in Hf.
    injection Hf as -> _ _ _ _ _. apply tasksExtend_refl.
  - fold onInterval. rewrite onInterval_run.
    destruct (intervalId w); [|apply tasksExtend_refl].
    destruct (isShuttingDown w); [apply tasksExtend_refl|].
    by destruct (discover_spec w) as (w' & -> & _ & _ & _ & _ & Hext & _).
  - apply tasksExtend_refl.
  - apply tasksExtend_refl.
Qed.

Lemma tasksExtend_run evs w : tasksExtend (cronTasks w) (cronTasks (run evs w)).
Proof.
  revert w. induction evs as [|ev evs IH]; intros w; simpl.
  - apply tasksExtend_refl.
  - eapply tasksExtend_trans; [apply tasksExtend_step | apply IH].
Qed.

Lemma fire_stopped h t w :
  cronTasks w !! h = Some t → task_running t = false → fire h w = (Ok tt, w).
Proof. intros Ht Hr. unfold fire. munfold. by rewrite Ht, Hr. Qed.

(** X9: a stopped timer never fires again.  Whatever the scheduler does
    afterwards (schedule, unschedule, start, stop, shutdown, timers and the
    discovery interval firing, the store changing), a task that has been
    stopped stays stopped with the job it was created for, and node-cron
    calling its handle runs nothing; in particular the handle a job held
    when it was unscheduled from a consistent state is dead for good. *)
Theorem stopped_timer_never_fires (evs : list Event) (w : World) :
  (∀ h t, cronTasks w !! h = Some t → task_running t = false →
     ∃ t', cronTasks (run evs w) !! h = Some t' ∧
           task_job t' = task_job t ∧ task_running t' = false ∧
           fire h (run evs w) = (Ok tt, run evs w)) ∧
  (∀ id h, consistent w → scheduledTasks w !! id = Some h →
     let w1 := run evs (unscheduleJob id w).2 in
     fire h w1 = (Ok tt, w1)).
Proof.
  assert (∀ w0 h t, cronTasks w0 !! h = Some t → task_running t = false →
     ∃ t', cronTasks (run evs w0) !! h = Some t' ∧
           task_job t' = task_job t ∧ task_running t' = false ∧
           fire h (run evs w0) = (Ok tt, run evs w0)) as Hgen.
  { intros w0 h t Ht Hr.
    destruct (tasksExtend_run evs w0 _ _ Ht) as (t' & Ht' & Hj & _ & Hrun).
    assert (task_running t' = false) as Hr'.
    { destruct (task_running t'); [|done]. rewrite Hrun in Hr; done. }
    exists t'. split_and!; try done. by eapply fire_stopped. }
  split; [apply Hgen|].
  intros id h Hc Hreg w1.
  destruct (registered_live _ Hc _ _ Hreg) as (t & Ht & _).
  destruct (Hgen (unscheduleJob id w).2 h (stopTask t)) as (_ & _ & _ & _ & Hfire);
    [|done|done].
  rewrite (unscheduleJob_present_run _ _ _ Hreg). simpl.
  by rewrite list_lookup_alter_eq, Ht.
Qed.

Lemma intervalCoherent_step w ev : intervalCoherent w → intervalCoherent (step w ev).
Proof.
  intros Hco. destruct ev; simpl.
  - eapply intervalCoherent_fields; [|done]. apply scheduleJob_registryOnly.
  - eapply intervalCoherent_fields; [|done]. apply unscheduleJob_registryOnly.
  - destruct (start_spec w) as (w' & -> & _ & _ & _ & Hd & _). simpl.
    destruct Hco as [Hiff Hlt]. unfold intervalCoherent.
    destruct (isRunning w) eqn:E; injection Hd as -> -> ->.
    + split; [|done]. split; [intros _; by apply Hiff|done].
    + split; [done|]. intros i [= <-]. lia.
  - destruct (stop_run w) as (w' & -> & _ & _ & _ & Hd & _).
    by eapply intervalCoherent_fields.
  - destruct (shutdown_run w) as (w' & -> & _ & _ & _ & Hr & Hi & _). simpl.
    split; rewrite ?Hr, ?Hi; [|done]. split; [done|by intros [? ?]].
  - eapply intervalCoherent_fields; [|done].
    pose proof (fire_framed task w) as Hf. unfold schedulerState in Hf. congruence.
  - fold onInterval. rewrite onInterval_run.
    destruct (intervalId w) eqn:Ei; [|done].
    destruct (isShuttingDown w); [done|].
    destruct (discover_spec w) as (w' & -> & _ & _ & _ & Hd & _).
    by eapply intervalCoherent_fields.
  - done.
  - done.
Qed.

Lemma intervalCoherent_run evs w : intervalCoherent w → intervalCoherent (run evs w).
Proof.
  revert w. induction evs as [|ev evs IH]; intros w Hco; simpl; [done|].
  by apply IH, intervalCoherent_step.
Qed.

Lemma intervalCoherent_initial now s : intervalCoherent (initialWorld now s).
Proof. split; simpl; [|done]. split; [done|by intros [? ?]]. Qed.

(** X10: the discovery loop holds at most one interval.  In every state
    a scheduler can reach, [isRunning] is set exactly when an interval
    handle is held, and the handle is one that [setInterval] issued; a
    [start()] of the loop while it runs only logs a warning and installs
    nothing, and [stop()] always leaves the loop off with no handle. *)
Theorem discovery_loop_single_interval
    (evs : list Event) (now : Z) (s : gmap string JobDoc) :
  let w := run evs (initialWorld now s) in
  intervalCoherent w ∧
  (isRunning w = true →
   JobDiscovery.start w = (Ok tt, add_log (WARN, DiscoveryAlreadyRunning) w)) ∧
  (isRunning w = false →
   ∃ w', JobDiscovery.start w = (Ok tt, w') ∧ isRunning w' = true ∧
         intervalId w' = Some (intervalSeq w) ∧ intervalCoherent w') ∧
  ∃ w', JobDiscovery.stop w = (Ok tt, w') ∧ isRunning w' = false ∧
        intervalId w' = None ∧ onInterval w' = (Ok tt, w').
Proof.
  intros w. split_and!.
  - apply intervalCoherent_run, intervalCoherent_initial.
  - intros Hon. unfold JobDiscovery.start. munfold. by rewrite Hon.
  - intros Hoff. unfold JobDiscovery.start. munfold. rewrite Hoff.
    eexists. split; [reflexivity|]. simpl. split_and!; try done.
    split; simpl; [done|]. intros i [= <-]. lia.
  - unfold JobDiscovery.stop. munfold.
    eexists. split; [reflexivity|]. simpl.
    split_and!; [done|done|by apply onInterval_cleared].
Qed.

(** X11: the status report is coherent in every state a scheduler can
    reach: [getStatus] changes nothing, the count it reports is the number
    of ids it lists, no id is listed twice, the ids listed are exactly the
    jobs with a live timer (one each), a scheduler that is shutting down
    reports no task, and the discovery part reports an interval exactly
    when it reports the loop running. *)
Theorem status_report_coherent
    (evs : list Event) (now : Z) (s : gmap string JobDoc) :
  let w := run evs (initialWorld now s) in
  ∃ st, getStatus w = (Ok st, w) ∧
    totalScheduledTasks st = length (scheduledJobIds st) ∧
    NoDup (scheduledJobIds st) ∧
    (∀ id, id ∈ scheduledJobIds st ↔ liveCount id w = 1%nat) ∧
    (∀ id, id ∉ scheduledJobIds st → liveCount id w = 0%nat) ∧
    (st_isShuttingDown st = true → totalScheduledTasks st = 0%nat) ∧
    JobDiscovery.ds_isRunning (discovery st) =
      JobDiscovery.ds_hasInterval (discovery st).
Proof.
  intros w.
  assert (consistent w) as Hc by apply consistent_run, consistent_initial.
  assert (intervalCoherent w) as [Hiff _]
    by apply intervalCoherent_run, intervalCoherent_initial.
  eexists. split; [reflexivity|]. simpl.
  change (map_to_list (scheduledTasks w)).*1 with (registeredIds w).
  split_and!.
  - unfold registeredIds. by rewrite length_fmap, length_map_to_list.
  - apply NoDup_fst_map_to_list.
  - intros id. rewrite registeredIds_elem. split.
    + intros [h Hreg]. by eapply liveCount_registered.
    + intros Hone. destruct (scheduledTasks w !! id) as [h|] eqn:E; [by eexists|].
      rewrite (liveCount_unregistered _ _ Hc E) in Hone. done.
  - intros id Hid. apply liveCount_unregistered; [done|].
    apply eq_None_not_Some. by rewrite <- registeredIds_elem.
  - intros Hflag. by rewrite (shutdown_empty _ Hc Hflag), map_size_empty.
  - destruct (isRunning w) eqn:E.
    + symmetry. apply bool_decide_eq_true. by apply Hiff.
    + symmetry. apply bool_decide_eq_false. intros Hs. apply Hiff in Hs. congruence.
Qed.

(** X12: [stop()] alone does not retire the scheduler.  It empties the
    registry and stops every timer, but it leaves the shutdown flag and
    the discovery loop as they were; so with the loop running and the
    scheduler not shutting down, the next interval callback registers
    again every active job of the store whose expression is accepted. *)
Theorem stop_is_undone_by_discovery (i : nat) (w : World) :
  consistent w → isShuttingDown w = false → intervalId w = Some i →
  ∃ w1 w2, stop w = (Ok tt, w1) ∧ onInterval w1 = (Ok tt, w2) ∧
    registeredCount w1 = 0%nat ∧ (∀ id, liveCount id w1 = 0%nat) ∧
    isShuttingDown w1 = false ∧ intervalId w1 = Some i ∧
    ∀ id, id ∈ registeredIds w2 ↔
      ∃ d, store w !! id = Some d ∧ status d = active ∧
           accepted (cronSchedule d) (clock w + ioLatency).
Proof.
  intros Hc Hflag Hint.
  pose proof (consistent_stop w Hc) as Hc1.
  destruct (stop_run w) as (w1 & Hrun & Ht & Hr & Hs & Hd & Hst & Hck).
  rewrite Hrun in Hc1. simpl in Hc1. injection Hd as Hd1 Hd2 Hd3.
  destruct (discover_spec w1) as (w2 & Hrun2 & _ & _ & _ & _ & _ & Hgone & _ & Hnew).
  exists w1, w2. split_and!; try congruence.
  - rewrite onInterval_run, Hd2, Hint, Hs, Hflag. done.
  - unfold registeredCount. by rewrite Hr, map_size_empty.
  - intros id. apply liveCount_unregistered; [done|]. by rewrite Hr, lookup_empty.
  - intros id. rewrite registeredIds_elem.
    destruct (decide (id ∈ activeIds (store w1))) as [Hact|Hact].
    + pose proof Hact as (d & Hl & Hsd)%activeIds_elem.
      rewrite (Hnew ltac:(congruence) id d Hl Hsd) by (by rewrite Hr, lookup_empty).
      rewrite Hck, Hst in *. split.
      * intros Hacc. by exists d.
      * intros (d' & Hl' & _ & Hacc). congruence.
    + rewrite (Hgone _ Hact). split; [by intros [? ?]|].
      intros (d & Hl & Hsd & _). exfalso. apply Hact, activeIds_elem.
      rewrite Hst. eauto.
Qed.
End LifecycleExtras.

(** ** The records an execution writes *)

Section ExecutorExtras.
Context `{CronParser} `{Environment} `{Deployment}.

Section Agrees.
Variable s : gmap string JobDoc.
Variable jobId : string.

Lemma stable_agrees_markJobCompleted :
  stable (storeAgrees s jobId) (JobService.markJobCompleted jobId).
Proof.
  intros w Hw. destruct (store w !! jobId) as [d|] eqn:E.
  - destruct (JobModel.validate d) as [e|[]] eqn:Ev.
    { destruct (markJobCompleted_invalid_run jobId d e w E Ev) as (w' & -> & Hst & _).
      simpl. destruct Hw as [Hout Hdom]. split; by rewrite Hst. }
    destruct (markJobCompleted_run jobId d w E Ev) as (r & w' & -> & Hst & _). simpl.
    destruct Hw as [Hout Hdom]. split; rewrite Hst.
    + intros id Hne. rewrite lookup_insert_ne by done. by apply Hout.
    + by rewrite dom_insert_lookup_L.
  - destruct (markJobCompleted_missing_run jobId w E) as (w' & -> & Hst & _). simpl.
    destruct Hw as [Hout Hdom]. split; by rewrite Hst.
Qed.

Lemma stable_agrees_markJobFailed :
  stable (storeAgrees s jobId) (JobService.markJobFailed jobId).
Proof.
  intros w Hw. destruct (store w !! jobId) as [d|] eqn:E.
  - destruct (JobModel.validate d) as [e|[]] eqn:Ev.
    { destruct (markJobFailed_invalid_run jobId d e w E Ev) as (w' & -> & Hst & _).
      simpl. destruct Hw as [Hout Hdom]. split; by rewrite Hst. }
    destruct (markJobFailed_run jobId d w E Ev) as (r & w' & -> & Hst & _). simpl.
    destruct Hw as [Hout Hdom]. split; rewrite Hst.
    + intros id Hne. rewrite lookup_insert_ne by done. by apply Hout.
    + by rewrite dom_insert_lookup_L.
  - destruct (markJobFailed_missing_run jobId w E) as (w' & -> & Hst & _). simpl.
    destruct Hw as [Hout Hdom]. split; by rewrite Hst.
Qed.

Lemma stable_agrees_updateNextRun n :
  stable (storeAgrees s jobId) (JobService.updateNextRun jobId n).
Proof.
  intros w Hw. destruct (store w !! jobId) as [d|] eqn:E.
  - destruct (updateNextRun_run jobId n d w E) as (r & w' & -> & Hst & _). simpl.
    destruct Hw as [Hout Hdom]. split; rewrite Hst.
    + intros id Hne. rewrite lookup_insert_ne by done. by apply Hout.
    + by rewrite dom_insert_lookup_L.
  - destruct (updateNextRun_missing_run jobId n w E) as (w' & -> & Hst). simpl.
    destruct Hw as [Hout Hdom]. split; by rewrite Hst.
Qed.
End Agrees.

Lemma stable_agrees_execute s job :
  stable (storeAgrees s (_id job)) (JobExecutor.execute job).
Proof.
  unfold JobExecutor.execute, JobExecutor.sendEmail, JobExecutor.sendReminder,
    JobExecutor.performGenericTask, JobExecutor.simulateWork,
    JobValidator.calculateNextRunTime.
  repeat stable_with
    ltac:(first [ apply stable_agrees_markJobCompleted
                | apply stable_agrees_markJobFailed
                | apply stable_agrees_updateNextRun ]).
Qed.

Lemma stable_agrees_executeJob s job i :
  stable (storeAgrees s (_id job)) (JobExecutor.executeJob job i).
Proof.
  unfold JobExecutor.executeJob, JobExecutor.executeJobLogic,
    JobExecutor.simulatedBranch, JobExecutor.simulateDelay,
    JobExecutor.calculateNextRunTime.
  repeat stable_with
    ltac:(first [ apply stable_agrees_markJobCompleted
                | apply stable_agrees_markJobFailed
                | apply stable_agrees_updateNextRun ]).
Qed.

(** X13: an execution writes at most the record of its own job.  After
    [execute] (and after the earlier [executeJob]), whatever the handler
    and the evaluator do, every other record of the store is as it was and
    the store holds records under exactly the same ids: no record is
    created and none is removed. *)
Theorem execute_touches_only_its_record (job : Job) (w : World) :
  let w' := (JobExecutor.execute job w).2 in
  (∀ id, id ≠ _id job → store w' !! id = store w !! id) ∧
  dom (store w') = dom (store w) ∧
  ∀ instanceId,
    let w'' := (JobExecutor.executeJob job instanceId w).2 in
    (∀ id, id ≠ _id job → store w'' !! id = store w !! id) ∧
    dom (store w'') = dom (store w).
Proof.
  assert (storeAgrees (store w) (_id job) w) as Hw by done.
  destruct (stable_agrees_execute (store w) job w Hw) as [Hout Hdom].
  split_and!; [done|done|].
  intros i. by destruct (stable_agrees_executeJob (store w) job i w Hw).
Qed.
End ExecutorExtras.

(** ** Executions that end in the catch block *)

Section ExecutorRuns.
Context `{CronParser} `{Environment} `{Deployment}.

Lemma earlier_calculateNextRunTime_run (cron : string) (w : World) :
  JobExecutor.calculateNextRunTime cron w =
    match evaluateDefault cron (clock w) with
    | inr t => (Ok t, w)
    | inl e => (Throw ("Invalid cron schedule: " +:+ e),
                add_log (ERROR, NextRunFailed cron e) w)
    end.
Proof.
  unfold JobExecutor.calculateNextRunTime, evaluateDefault. munfold. simpl.
  destruct (parseExpression _ _ _) as [e|iv]; simpl; [done|].
  by destruct (next iv).
Qed.

Lemma executeJobLogic_run (job : Job) (w : World) :
  JobExecutor.executeJobLogic job w =
    match logicBranch job with
    | None => (Ok tt, add_log (WARN, HandlerLog "unknown" (_id job)) w)
    | Some (kind, lo, hi) =>
        match handlerFault kind job with
        | Some e => (Throw e, w)
        | None => (Ok tt, set_clock (clock w + randomDelay lo hi)
                            (add_log (INFO, HandlerLog kind (_id job)) w))
        end
    end.
Proof.
  unfold JobExecutor.executeJobLogic, logicBranch, JobExecutor.simulatedBranch,
    JobExecutor.simulateDelay.
  repeat (destruct (String.eqb (type job) _);
          [destruct (handlerFault _ job); reflexivity|]).
  reflexivity.
Qed.

Lemma keeps_runHandler s job : stable (λ w, store w = s) (runHandler job).
Proof.
  unfold runHandler, JobExecutor.sendEmail, JobExecutor.sendReminder,
    JobExecutor.performGenericTask, JobExecutor.simulateWork.
  repeat stable_step.
Qed.

Lemma keeps_calculateNextRunTime s cron :
  stable (λ w, store w = s) (JobValidator.calculateNextRunTime cron).
Proof. unfold JobValidator.calculateNextRunTime. repeat stable_step. Qed.

Lemma keeps_earlier_calculateNextRunTime s cron :
  stable (λ w, store w = s) (JobExecutor.calculateNextRunTime cron).
Proof. unfold JobExecutor.calculateNextRunTime. repeat stable_step. Qed.

Lemma keeps_executeJobLogic s job :
  stable (λ w, store w = s) (JobExecutor.executeJobLogic job).
Proof.
  unfold JobExecutor.executeJobLogic, JobExecutor.simulatedBranch,
    JobExecutor.simulateDelay.
  repeat stable_step.
Qed.

Lemma failure_branch_missing (job : Job) (e : Error) (w : World) :
  store w !! _id job = None →
  ∃ w', (logger ERROR (JobExecutionFailed (_id job) e);;
         JobService.markJobFailed (_id job);; mret tt) w
          = (Throw "Job not found", w') ∧ store w' = store w.
Proof.
  intros Hnone. munfold. simpl.
  destruct (markJobFailed_missing_run (_id job)
              (add_log (ERROR, JobExecutionFailed (_id job) e) w) Hnone)
    as (w' & -> & Hst & _).
  by exists w'.
Qed.

(** X14: an execution of a job whose record is no longer in the store
    always rejects.  Whether the handler succeeds or raises and whether
    the evaluator yields a next run or not, [execute] (and the earlier
    [executeJob]) ends in the error ['Job not found'] that the catch block
    lets through, and the store is left exactly as it was: the missing
    record is not created again. *)
Theorem execute_missing_record_rejects (job : Job) (w : World) :
  store w !! _id job = None →
  (JobExecutor.execute job w).1 = Throw "Job not found" ∧
  store (JobExecutor.execute job w).2 = store w ∧
  ∀ instanceId,
    (JobExecutor.executeJob job instanceId w).1 = Throw "Job not found" ∧
    store (JobExecutor.executeJob job instanceId w).2 = store w.
Proof.
  intros Hnone.
  assert (∃ e wc,
    (runHandler job;;
     lastRun ← newDate;
     nextRun ← JobValidator.calculateNextRunTime (cronSchedule job);
     JobService.markJobCompleted (_id job);;
     JobService.updateNextRun (_id job) nextRun;;
     logger INFO (JobExecuted (_id job) lastRun nextRun)) w = (Throw e, wc) ∧
    store wc = store w) as (e & wc & Hbody & Hst).
  { munfold.
    pose proof (keeps_runHandler (store w) job w eq_refl) as K1.
    destruct (runHandler job w) as [[[]|e] w1]; simpl in K1 |- *; [|by eauto].
    pose proof (keeps_calculateNextRunTime (store w) (cronSchedule job) w1 K1) as K2.
    destruct (JobValidator.calculateNextRunTime (cronSchedule job) w1)
      as [[n|e] w2]; simpl in K2 |- *; [|by eauto].
    destruct (markJobCompleted_missing_run (_id job) w2) as (w3 & -> & Hst3 & _).
    { by rewrite K2. }
    do 2 eexists. split; [reflexivity|]. congruence. }
  assert (∃ e wc,
    (startTime ← newDate;
     nextRunTime ← JobExecutor.calculateNextRunTime (cronSchedule job);
     logger INFO (ExecutingJob (_id job) nextRunTime);;
     JobExecutor.executeJobLogic job;;
     JobService.markJobCompleted (_id job);;
     JobService.updateNextRun (_id job) nextRunTime;;
     endTime ← newDate;
     logger INFO (JobCompleted (_id job))) w = (Throw e, wc) ∧
    store wc = store w) as Hbody'.
  { munfold. unfold gets. cbv beta iota.
    pose proof (keeps_earlier_calculateNextRunTime (store w) (cronSchedule job) w eq_refl)
      as K1.
    destruct (JobExecutor.calculateNextRunTime (cronSchedule job) w)
      as [[n|e0] w1]; simpl in K1 |- *; [|by eauto].
    pose proof (keeps_executeJobLogic (store w) job
                  (add_log (INFO, ExecutingJob (_id job) n) w1) K1) as K2.
    destruct (JobExecutor.executeJobLogic job _) as [[[]|e0] w2];
      simpl in K2 |- *; [|by eauto].
    destruct (markJobCompleted_missing_run (_id job) w2) as (w3 & -> & Hst3 & _).
    { by rewrite K2. }
    do 2 eexists. split; [reflexivity|]. congruence. }
  split_and!.
  - rewrite execute_unfold. unfold try_catch. rewrite Hbody.
    destruct (failure_branch_missing job e wc) as (w' & -> & _); [by rewrite Hst|done].
  - rewrite execute_unfold. unfold try_catch. rewrite Hbody.
    destruct (failure_branch_missing job e wc) as (w' & -> & Hst');
      [by rewrite Hst|simpl; congruence].
  - intros i. destruct Hbody' as (e' & wc' & Hb & Hst').
    unfold JobExecutor.executeJob, try_catch. rewrite Hb.
    destruct (failure_branch_missing job e' wc') as (w' & -> & Hst'');
      [by rewrite Hst'|]. simpl. split; [done|congruence].
Qed.

(** X15: when the handler of a job succeeds but the evaluator then
    refuses the job's expression, and the job's record in the store
    passes the validation of the schema, [execute] treats the run as
    failed: it logs the evaluator's error, returns normally, and the
    record gets the failure status of the deployed model with [lastRun]
    set, while [nextRun] (like name, description, schedule and type)
    stays as it was. *)
Theorem execute_next_run_failure_marks_failed
    (job : Job) (d : JobDoc) (e : Error) (w : World) :
  store w !! _id job = Some d →
  JobModel.validate d = inr tt →
  handlerFault (JobExecutor.handlerOf job) job = None →
  evaluate (cronSchedule job) (clock w + handlerDelay job) = inl e →
  ∃ w' t,
    JobExecutor.execute job w = (Ok tt, w') ∧
    t = clock w + handlerDelay job + ioLatency ∧
    store w' !! _id job =
      Some (mkJobDoc (name d) (description d) (cronSchedule d) (type d) failureStatus
                     (Some t) (nextRun d) t) ∧
    (ERROR, NextRunFailed (cronSchedule job) e) ∈ logs w'.
Proof.
  intros Hd Hv Hfault Heval.
  rewrite execute_unfold. unfold try_catch.
  set (w1 := set_clock (clock w + handlerDelay job)
               (add_log (INFO, HandlerLog (JobExecutor.handlerOf job) (_id job)) w)).
  set (w2 := add_log (ERROR, NextRunFailed (cronSchedule job) e) w1).
  set (msg := "Failed to calculate next run time. Error: " +:+ e).
  assert (∀ k : unit → M unit, (runHandler job ≫= k) w = k tt w1) as Hstart.
  { intros k. munfold. by rewrite (runHandler_ok _ _ Hfault). }
  rewrite Hstart. munfold.
  pose proof (calculateNextRunTime_run (cronSchedule job) w1) as Hcalc.
  simpl in Hcalc. rewrite Heval in Hcalc. simpl. rewrite Hcalc. fold w2 msg.
  set (w3 := add_log (ERROR, JobExecutionFailed (_id job) msg) w2).
  destruct (markJobFailed_run (_id job) d w3 Hd Hv) as (r & w' & Hrun & Hst & Hcl).
  pose proof (markJobFailed_logs (_id job) d w3 Hd Hv) as Hlogs.
  rewrite Hrun in Hlogs |- *. exists w', (clock w + handlerDelay job + ioLatency).
  split_and!; [done|done| |].
  - rewrite Hst, lookup_insert_eq. reflexivity.
  - simpl in Hlogs. rewrite Hlogs.
    rewrite !elem_of_app. left. left. right. apply list_elem_of_singleton. done.
Qed.
Lemma failure_branch_refused (job : Job) (d : JobDoc) (e e' : Error) (w : World) :
  store w !! _id job = Some d →
  JobModel.validate d = inl e →
  ∃ w', (logger ERROR (JobExecutionFailed (_id job) e');;
         JobService.markJobFailed (_id job);; mret tt) w
          = (Throw e, w') ∧ store w' = store w.
Proof.
  intros Hd Hv. munfold. simpl.
  destruct (markJobFailed_invalid_run (_id job) d e
              (add_log (ERROR, JobExecutionFailed (_id job) e') w) Hd Hv)
    as (w' & -> & Hst & _).
  by exists w'.
Qed.

(** X28: an execution of a job whose record the schema refuses always
    rejects.  Whether the handler succeeds or raises and whether the
    evaluator yields a next run or not, [execute] (and the earlier
    [executeJob]) ends in the [ValidationError] of [save], which the
    catch block lets through, and the store is left exactly as it was:
    neither [status] nor [lastRun] nor [nextRun] of the record is
    written. *)
Theorem execute_refused_record_rejects
    (job : Job) (d : JobDoc) (e : Error) (w : World) :
  store w !! _id job = Some d →
  JobModel.validate d = inl e →
  (JobExecutor.execute job w).1 = Throw e ∧
  store (JobExecutor.execute job w).2 = store w ∧
  ∀ instanceId,
    (JobExecutor.executeJob job instanceId w).1 = Throw e ∧
    store (JobExecutor.executeJob job instanceId w).2 = store w.
Proof.
  intros Hd Hv.
  assert (∃ e' wc,
    (runHandler job;;
     lastRun ← newDate;
     nextRun ← JobValidator.calculateNextRunTime (cronSchedule job);
     JobService.markJobCompleted (_id job);;
     JobService.updateNextRun (_id job) nextRun;;
     logger INFO (JobExecuted (_id job) lastRun nextRun)) w = (Throw e', wc) ∧
    store wc = store w) as (e' & wc & Hbody & Hst).
  { munfold.
    pose proof (keeps_runHandler (store w) job w eq_refl) as K1.
    destruct (runHandler job w) as [[[]|e0] w1]; simpl in K1 |- *; [|by eauto].
    pose proof (keeps_calculateNextRunTime (store w) (cronSchedule job) w1 K1) as K2.
    destruct (JobValidator.calculateNextRunTime (cronSchedule job) w1)
      as [[n|e0] w2]; simpl in K2 |- *; [|by eauto].
    destruct (markJobCompleted_invalid_run (_id job) d e w2) as (w3 & -> & Hst3 & _);
      [by rewrite K2|done|].
    do 2 eexists. split; [reflexivity|]. congruence. }
  assert (∃ e' wc,
    (startTime ← newDate;
     nextRunTime ← JobExecutor.calculateNextRunTime (cronSchedule job);
     logger INFO (ExecutingJob (_id job) nextRunTime);;
     JobExecutor.executeJobLogic job;;
     JobService.markJobCompleted (_id job);;
     JobService.updateNextRun (_id job) nextRunTime;;
     endTime ← newDate;
     logger INFO (JobCompleted (_id job))) w = (Throw e', wc) ∧
    store wc = store w) as Hbody'.
  { munfold. unfold gets. cbv beta iota.
    pose proof (keeps_earlier_calculateNextRunTime (store w) (cronSchedule job) w eq_refl)
      as K1.
    destruct (JobExecutor.calculateNextRunTime (cronSchedule job) w)
      as [[n|e0] w1]; simpl in K1 |- *; [|by eauto].
    pose proof (keeps_executeJobLogic (store w) job
                  (add_log (INFO, ExecutingJob (_id job) n) w1) K1) as K2.
    destruct (JobExecutor.executeJobLogic job _) as [[[]|e0] w2];
      simpl in K2 |- *; [|by eauto].
    destruct (markJobCompleted_invalid_run (_id job) d e w2) as (w3 & -> & Hst3 & _);
      [by rewrite K2|done|].
    do 2 eexists. split; [reflexivity|]. congruence. }
  split_and!.
  - rewrite execute_unfold. unfold try_catch. rewrite Hbody.
    destruct (failure_branch_refused job d e e' wc) as (w' & -> & _);
      [by rewrite Hst|done|done].
  - rewrite execute_unfold. unfold try_catch. rewrite Hbody.
    destruct (failure_branch_refused job d e e' wc) as (w' & -> & Hst');
      [by rewrite Hst|done|simpl; congruence].
  - intros i. destruct Hbody' as (e'' & wc' & Hb & Hst').
    unfold JobExecutor.executeJob, try_catch. rewrite Hb.
    destruct (failure_branch_refused job d e e'' wc') as (w' & -> & Hst'');
      [by rewrite Hst'|done|]. simpl. split; [done|congruence].
Qed.
End ExecutorRuns.

(** ** The field count, the earlier executor, failures and discovery *)

Lemma split_length (sep : ascii) (s : string) :
  length (split sep s) = S (occurrences sep s).
Proof.
  induction s as [|a s IH]; simpl; [done|].
  destruct (Ascii.eqb a sep); simpl; [by rewrite IH|].
  destruct (split sep s) as [|x xs]; simpl in *; [done|]. done.
Qed.

Lemma split_cons (sep : ascii) (s : string) : ∃ x xs, split sep s = x :: xs.
Proof.
  induction s as [|a s (x & xs & IH)]; simpl; [by eexists _, _|].
  destruct (Ascii.eqb a sep); [by eexists _, _|].
  rewrite IH. by eexists _, _.
Qed.

Lemma split_join (sep : ascii) (s : string) :
  String.concat (String sep EmptyString) (split sep s) = s.
Proof.
  induction s as [|a s IH]; simpl; [done|].
  destruct (split_cons sep s) as (x & xs & Es). rewrite Es in *.
  destruct (Ascii.eqb a sep) eqn:E.
  - apply Ascii.eqb_eq in E as ->. simpl in *. by rewrite IH.
  - destruct xs; simpl in *; by rewrite <- IH.
Qed.

(** X16: the [seconds] option the validator and the scheduler give to
    the parser is set exactly when the cron string contains five space
    characters: the pieces it counts are those between single spaces
    (joining them with a space gives the string back), so a five-field
    expression written with a doubled, leading or trailing space is read
    as a six-field one. *)
Theorem hasSixFields_counts_spaces (cronSchedule : string) :
  (JobValidator.hasSixFields cronSchedule = true ↔
   occurrences " "%char cronSchedule = 5%nat) ∧
  String.concat " " (split " "%char cronSchedule) = cronSchedule.
Proof.
  split; [|apply split_join].
  unfold JobValidator.hasSixFields. rewrite split_length, Nat.eqb_eq. lia.
Qed.

Section EarlierExecutorExtras.
Context `{CronParser} `{Environment} `{Deployment}.

(** X17: the earlier executor evaluates the expression before it runs
    anything.  When the evaluator refuses the expression of a job whose
    record in the store passes the validation of the schema,
    [executeJob] returns normally without having run the job's logic: it
    logs the evaluator's error and the failure, marks the record with the
    failure status and [lastRun], and takes only the two database round
    trips of that update. *)
Theorem executeJob_refused_schedule_skips_handler
    (job : Job) (d : JobDoc) (e : Error) (instanceId : string) (w : World) :
  store w !! _id job = Some d →
  JobModel.validate d = inr tt →
  evaluateDefault (cronSchedule job) (clock w) = inl e →
  ∃ w', JobExecutor.executeJob job instanceId w = (Ok tt, w') ∧
    logs w' = logs w ++
      [(ERROR, NextRunFailed (cronSchedule job) e);
       (ERROR, JobExecutionFailed (_id job) ("Invalid cron schedule: " +:+ e));
       (INFO, RepositoryLog "markFailed" (_id job))] ∧
    clock w' = clock w + ioLatency + ioLatency ∧
    store w' !! _id job =
      Some (mkJobDoc (name d) (description d) (cronSchedule d) (type d) failureStatus
                     (Some (clock w + ioLatency)) (nextRun d) (clock w + ioLatency)).
Proof.
  intros Hd Hv Heval.
  unfold JobExecutor.executeJob, try_catch. munfold. unfold gets. cbv beta iota.
  rewrite earlier_calculateNextRunTime_run, Heval. cbv beta iota.
  unfold JobService.markJobFailed, JobRepository.markFailed, JobModel.findById,
    JobModel.markFailed, JobModel.save, JobModel.awaitIO. munfold. simpl.
  rewrite Hd. simpl. rewrite validate_marked, Hv. simpl. rewrite Hd. simpl.
  eexists. split; [reflexivity|]. simpl.
  split_and!; [|done|].
  - by rewrite <- !(assoc_L (++)).
  - rewrite lookup_insert_eq. reflexivity.
Qed.

(** X18: on success the earlier executor stores the next run it computed
    at the start of the execution.  For a job whose record in the store
    passes the validation of the schema, whose expression the evaluator
    accepts when [executeJob] is entered, and whose logic does not raise,
    the call returns normally and the record ends [active] with [lastRun]
    set after the simulated delay and [nextRun] the instant evaluated at
    entry.  A job of a type the logic has no branch for takes no delay. *)
Theorem executeJob_success_reschedules
    (job : Job) (d : JobDoc) (n : Z) (instanceId : string) (w : World) :
  store w !! _id job = Some d →
  JobModel.validate d = inr tt →
  evaluateDefault (cronSchedule job) (clock w) = inr n →
  (∀ kind lo hi, logicBranch job = Some (kind, lo, hi) →
                 handlerFault kind job = None) →
  ∃ w' t u, JobExecutor.executeJob job instanceId w = (Ok tt, w') ∧
    t = clock w
        + match logicBranch job with
          | Some (_, lo, hi) => randomDelay lo hi
          | None => 0
          end
        + ioLatency ∧
    store w' !! _id job =
      Some (mkJobDoc (name d) (description d) (cronSchedule d) (type d) active
                     (Some t) (Some n) u).
Proof.
  intros Hd Hv Heval Hok.
  unfold JobExecutor.executeJob, try_catch. munfold. unfold gets. cbv beta iota.
  rewrite earlier_calculateNextRunTime_run, Heval. unfold modify. cbv beta iota.
  rewrite executeJobLogic_run.
  set (delay := match logicBranch job with
                | Some (_, lo, hi) => randomDelay lo hi
                | None => 0
                end).
  assert (∃ w1, match logicBranch job with
     | Some (kind, lo, hi) =>
         match handlerFault kind job with
         | Some e => (Throw e, add_log (INFO, ExecutingJob (_id job) n) w)
         | None =>
             (Ok tt,
              set_clock (clock (add_log (INFO, ExecutingJob (_id job) n) w)
                         + randomDelay lo hi)
                (add_log (INFO, HandlerLog kind (_id job))
                   (add_log (INFO, ExecutingJob (_id job) n) w)))
         end
     | None =>
         (Ok tt, add_log (WARN, HandlerLog "unknown" (_id job))
                   (add_log (INFO, ExecutingJob (_id job) n) w))
     end = (Ok tt, w1) ∧ store w1 = store w ∧ clock w1 = clock w + delay)
    as (w1 & -> & Hst1 & Hck1).
  { subst delay. destruct (logicBranch job) as [[[kind lo] hi]|] eqn:Eb.
    - rewrite (Hok _ _ _ eq_refl). by eexists.
    - eexists. split_and!; [done..|]. simpl. lia. }
  cbv beta iota.
  assert (store w1 !! _id job = Some d) as Hd1 by by rewrite Hst1.
  destruct (markJobCompleted_run (_id job) d w1 Hd1 Hv)
    as (r2 & w2 & -> & Hst2 & Hcl2).
  cbv beta iota.
  assert (store w2 !! _id job =
            Some (with_updatedAt (clock w1 + ioLatency)
                    (with_lastRun (Some (clock w1 + ioLatency)) (with_status active d))))
    as Hd2.
  { rewrite Hst2. apply lookup_insert_eq. }
  destruct (updateNextRun_run (_id job) n _ w2 Hd2) as (r3 & w3 & -> & Hst3 & Hcl3).
  cbv beta iota. unfold modify.
  eexists _, (clock w + delay + ioLatency), (clock w2).
  split; [reflexivity|]. split; [done|]. simpl.
  rewrite Hst3, lookup_insert_eq, Hck1. reflexivity.
Qed.
End EarlierExecutorExtras.

Section FailureAndDiscovery.
Context `{CronParser} `{NodeCron} `{Environment} `{Deployment}.
Import SchedulerManager.

Lemma execute_fault_run (job : Job) (d : JobDoc) (e : Error) (w : World) :
  store w !! _id job = Some d →
  JobModel.validate d = inr tt →
  handlerFault (JobExecutor.handlerOf job) job = Some e →
  ∃ w' d', JobExecutor.execute job w = (Ok tt, w') ∧
    store w' !! _id job = Some d' ∧ status d' = failureStatus ∧
    schedulerState w' = schedulerState w.
Proof.
  intros Hd Hv Hfault.
  pose proof (execute_framed job w) as Hfr.
  rewrite execute_unfold in *. unfold try_catch in *.
  assert (∀ k : unit → M unit, (runHandler job ≫= k) w =
     (Throw e, add_log (INFO, HandlerLog (JobExecutor.handlerOf job) (_id job)) w)) as Hh.
  { intros k. munfold. by rewrite (runHandler_fault _ _ _ Hfault). }
  rewrite Hh in *.
  set (w1 := add_log (ERROR, JobExecutionFailed (_id job) e)
               (add_log (INFO, HandlerLog (JobExecutor.handlerOf job) (_id job)) w)).
  destruct (markJobFailed_run (_id job) d w1 Hd Hv) as (r & w' & Hrun & Hst & Hcl).
  munfold. simpl in *. fold w1 in Hfr |- *. rewrite Hrun in *. simpl in *.
  eexists w', _. split_and!; [done|rewrite Hst; apply lookup_insert_eq|done|done].
Qed.

(** X19: what a failed run does to the schedule.  When the handler of a
    registered job raises and the job's record in the store passes the
    validation of the schema, [execute] itself leaves the timer in place;
    the next reconciliation pass then decides by the status the model wrote:
    with the corrected model ([failed]) the job is unscheduled and has no
    live timer any more, with the original model (still [active]) it keeps
    its timer and will be tried again. *)
Theorem failed_job_leaves_schedule
    (job : Job) (d : JobDoc) (e : Error) (h : nat) (w : World) :
  consistent w →
  scheduledTasks w !! _id job = Some h →
  store w !! _id job = Some d →
  JobModel.validate d = inr tt →
  handlerFault (JobExecutor.handlerOf job) job = Some e →
  ∃ w1 w2,
    JobExecutor.execute job w = (Ok tt, w1) ∧
    discoverAndScheduleJobs w1 = (Ok tt, w2) ∧
    scheduledTasks w1 !! _id job = Some h ∧
    liveCount (_id job) w1 = 1%nat ∧
    match jobModelRevision with
    | Corrected => scheduledTasks w2 !! _id job = None ∧
                   liveCount (_id job) w2 = 0%nat
    | Original => scheduledTasks w2 !! _id job = Some h ∧
                  liveCount (_id job) w2 = 1%nat
    end.
Proof.
  intros Hc Hreg Hd Hv Hfault.
  destruct (execute_fault_run job d e w Hd Hv Hfault)
    as (w1 & d' & Hrun & Hd' & Hs' & Hfr).
  assert (consistent w1) as Hc1 by by eapply consistent_frame.
  assert (scheduledTasks w1 !! _id job = Some h) as Hreg1.
  { unfold schedulerState in Hfr. injection Hfr as _ -> _ _ _ _. done. }
  pose proof (stable_consistent_discover w1 Hc1) as Hc2.
  destruct (discover_spec w1) as (w2 & Hrun2 & _ & _ & _ & _ & _ & Hgone & Hkeep & _).
  rewrite Hrun2 in Hc2. simpl in Hc2.
  exists w1, w2. split_and!; [done..| |].
  { by eapply liveCount_registered. }
  unfold failureStatus in Hs'. destruct jobModelRevision.
  - assert (scheduledTasks w2 !! _id job = Some h) as Hreg2.
    { apply Hkeep; [|done]. apply activeIds_elem. eauto. }
    split; [done|]. by eapply liveCount_registered.
  - assert (scheduledTasks w2 !! _id job = None) as Hreg2.
    { apply Hgone. rewrite activeIds_elem. intros (d0 & Hd0 & Hact). congruence. }
    split; [done|]. by apply liveCount_unregistered.
Qed.
End FailureAndDiscovery.

(** ** Removing and completing jobs *)

Lemma activeIds_delete (s : gmap string JobDoc) (id : string) :
  id ∉ activeIds (delete id s).
Proof.
  rewrite activeIds_elem. intros (d & Hd & _). by rewrite lookup_delete_eq in Hd.
Qed.

Section RemovalAndDiscovery.
Context `{CronParser} `{NodeCron} `{Environment} `{Deployment}.
Import SchedulerManager.

Lemma repository_delete_run (id : string) (d : JobDoc) (w : World) :
  store w !! id = Some d →
  ∃ w', JobRepository.delete id w = (Ok (mkJob id d), w') ∧
    store w' = delete id (store w) ∧ schedulerState w' = schedulerState w.
Proof.
  intros Hd. unfold JobRepository.delete, JobModel.findByIdAndDelete, JobModel.awaitIO.
  munfold. simpl. rewrite Hd. simpl. eexists. by split_and!.
Qed.

Lemma repository_delete_missing (id : string) (w : World) :
  store w !! id = None →
  ∃ w', JobRepository.delete id w = (Throw "Job not found", w') ∧
    store w' = store w ∧ schedulerState w' = schedulerState w.
Proof.
  intros Hd. unfold JobRepository.delete, JobModel.findByIdAndDelete, JobModel.awaitIO.
  munfold. simpl. rewrite Hd. simpl. eexists. by split_and!.
Qed.

(** X20: deleting a job through the repository does not cancel its
    timer.  [delete] of a registered job returns the document and removes
    the record (and only that record) from the store, but the job stays
    registered with its live timer; it is the next reconciliation pass
    that unschedules it.  Deleting the same id again fails with
    ['Job not found'] and changes neither the store nor the scheduler. *)
Theorem deleted_job_scheduled_until_discovery
    (id : string) (d : JobDoc) (h : nat) (w : World) :
  consistent w →
  scheduledTasks w !! id = Some h →
  store w !! id = Some d →
  ∃ w1 w2 w3,
    JobRepository.delete id w = (Ok (mkJob id d), w1) ∧
    store w1 = delete id (store w) ∧
    scheduledTasks w1 !! id = Some h ∧ liveCount id w1 = 1%nat ∧
    discoverAndScheduleJobs w1 = (Ok tt, w2) ∧
    scheduledTasks w2 !! id = None ∧ liveCount id w2 = 0%nat ∧
    JobRepository.delete id w1 = (Throw "Job not found", w3) ∧
    store w3 = store w1 ∧ schedulerState w3 = schedulerState w1.
Proof.
  intros Hc Hreg Hd.
  destruct (repository_delete_run id d w Hd) as (w1 & Hrun & Hst & Hfr).
  assert (consistent w1) as Hc1 by by eapply consistent_frame.
  assert (scheduledTasks w1 !! id = Some h) as Hreg1.
  { unfold schedulerState in Hfr. injection Hfr as _ -> _ _ _ _. done. }
  pose proof (stable_consistent_discover w1 Hc1) as Hc2.
  destruct (discover_spec w1) as (w2 & Hrun2 & _ & _ & _ & _ & _ & Hgone & _ & _).
  rewrite Hrun2 in Hc2. simpl in Hc2.
  assert (scheduledTasks w2 !! id = None) as Hreg2.
  { apply Hgone. rewrite Hst. apply activeIds_delete. }
  destruct (repository_delete_missing id w1) as (w3 & Hrun3 & Hst3 & Hfr3).
  { rewrite Hst. apply lookup_delete_eq. }
  exists w1, w2, w3. split_and!; try done.
  - by eapply liveCount_registered.
  - by apply liveCount_unregistered.
Qed.

(** X21: [completeAndStop] of the original model, called on the
    document of a registered job as the store holds it, a document that
    passes the validation of the schema, marks the record [completed]
    with [lastRun] set, but stops nothing by itself: the job keeps its
    registered, live timer until the next reconciliation pass, which
    unschedules it. *)
Theorem completeAndStop_stops_at_next_discovery
    (job : Job) (h : nat) (w : World) :
  consistent w →
  scheduledTasks w !! _id job = Some h →
  store w !! _id job = Some (fields job) →
  JobModel.validate job = inr tt →
  ∃ r w1 w2 t,
    JobModel.completeAndStop job w = (Ok r, w1) ∧
    store w1 !! _id job =
      Some (mkJobDoc (name job) (description job) (cronSchedule job) (type job) completed
                     (Some t) (nextRun job) t) ∧
    (∀ id, id ≠ _id job → store w1 !! id = store w !! id) ∧
    scheduledTasks w1 !! _id job = Some h ∧ liveCount (_id job) w1 = 1%nat ∧
    discoverAndScheduleJobs w1 = (Ok tt, w2) ∧
    scheduledTasks w2 !! _id job = None ∧ liveCount (_id job) w2 = 0%nat.
Proof.
  intros Hc Hreg Hd Hv.
  unfold JobModel.completeAndStop, JobModel.save, JobModel.awaitIO. munfold. simpl.
  rewrite validate_marked, Hv. simpl. rewrite Hd. simpl.
  set (w1 := set_clock _ _).
  assert (consistent w1) as Hc1.
  { destruct Hc as [? ? ?]. by constructor. }
  pose proof (stable_consistent_discover w1 Hc1) as Hc2.
  destruct (discover_spec w1) as (w2 & Hrun2 & _ & _ & _ & _ & _ & Hgone & _ & _).
  rewrite Hrun2 in Hc2. simpl in Hc2.
  assert (scheduledTasks w2 !! _id job = None) as Hreg2.
  { apply Hgone. rewrite activeIds_elem. intros (d0 & Hd0 & Hact).
    subst w1. simpl in Hd0. rewrite lookup_insert_eq in Hd0.
    injection Hd0 as <-. done. }
  eexists _, w1, w2, (clock w). split_and!; try done.
  - subst w1. simpl. by rewrite lookup_insert_eq.
  - intros id Hne. subst w1. simpl. by rewrite lookup_insert_ne.
  - by eapply liveCount_registered.
  - by apply liveCount_unregistered.
Qed.
End RemovalAndDiscovery.

(** ** The job controller *)

Ltac aunfold :=
  unfold mbind, mret, mthrow, Http.Api_bind, Http.Api_ret, Http.Api_throw,
         Http.tryCatch, Http.liftM, Http.apiLogger, Http.status, Http.json,
         Http.headersSent in *.

Section ControllerRuns.
Context `{CronParser} `{NodeCron} `{Environment} `{Deployment} `{Mongoose}.
#[local] Existing Instances Http.Api_ret Http.Api_bind Http.Api_throw.

Lemma getById_run (id : string) (w : World) :
  JobService.getById id w =
    match store w !! id with
    | Some d => (Ok (mkJob id d), set_clock (clock w + ioLatency) w)
    | None =>
        (Throw "Job not found",
         add_log (ERROR, ServiceError "getById" id)
           (add_log (ERROR, RepositoryError "findById" id "Job not found")
              (set_clock (clock w + ioLatency) w)))
    end.
Proof.
  unfold JobService.getById, JobRepository.findById, JobModel.findById,
    JobModel.awaitIO. munfold. simpl.
  by destruct (store w !! id).
Qed.

Lemma validateCronSchedule_quiet (cron : string) (w : World) :
  (JobValidator.validateCronSchedule cron w).2 = w.
Proof.
  unfold JobValidator.validateCronSchedule. destruct (String.eqb cron ""); [done|].
  munfold. simpl. by destruct (parseExpression _ _ _).
Qed.

Lemma validateJobData_quiet (jobData : JsValue) (sv : Http.Server) :
  quiet sv (Http.validateJobData jobData sv).2.
Proof.
  unfold Http.validateJobData.
  repeat (match goal with |- context [if ?b then _ else _] => destruct b end;
          [by split_and!|]).
  aunfold.
  pose proof (validateCronSchedule_quiet
                (stringOf (prop jobData "cronSchedule")) (Http.core sv)) as Hq.
  destruct (JobValidator.validateCronSchedule _ _) as [[[]|e] w1];
    simpl in Hq; subst w1; simpl; [|by split_and!].
  destruct (_ && _); simpl; destruct (_ && _); by split_and!.
Qed.

Lemma validateJobData_blank (jobData : JsValue) (sv : Http.Server) :
  Http.blank (prop jobData "name") = true ∨
  Http.blank (prop jobData "cronSchedule") = true ∨
  Http.blank (prop jobData "type") = true →
  ∃ e, Http.validateJobData jobData sv = (Throw e, sv).
Proof.
  intros Hb. unfold Http.validateJobData.
  destruct (negb (truthy jobData)); [by eexists|].
  destruct (Http.blank (prop jobData "name")); [by eexists|].
  destruct (Http.blank (prop jobData "cronSchedule")); [by eexists|].
  destruct (Http.blank (prop jobData "type")); [by eexists|].
  destruct Hb as [?|[?|?]]; done.
Qed.

Lemma service_create_run (data : JsValue) (w : World) :
  JobService.create data w =
    match newJob data w with
    | inl e =>
        (Throw e,
         add_log (ERROR, ServiceError "create" "")
           (add_log (ERROR, RepositoryError "create" "" e) w))
    | inr job =>
        (Ok (mkJob (_id job) (with_updatedAt (clock w) job)),
         add_log (INFO, RepositoryLog "create" (_id job))
           (set_clock (clock w + ioLatency)
              (set_store (<[_id job := with_updatedAt (clock w) job]> (store w)) w)))
    end.
Proof.
  unfold JobService.create, JobRepository.create, JobModel.save, JobModel.awaitIO.
  munfold. simpl. destruct (newJob data w) as [e|job]; simpl; [done|].
  by destruct (store w !! _id job).
Qed.

(** The inner [try] of [createJob], run on a response nothing has been
    sent on: it answers 400 and yields nothing, or it yields the payload
    and leaves the response alone; in both cases the store and the
    scheduler are as before. *)
Lemma validation_block_run (payload : JsValue) (sv : Http.Server) :
  Http.res sv = Http.freshRes →
  let block :=
    Http.tryCatch
      (Http.validateJobData payload;;
       nextRun ← Http.liftM (JobValidator.calculateNextRunTime
                               (stringOf (prop payload "cronSchedule")));
       match setProp payload "nextRun" (JsDate nextRun) with
       | inl e => mthrow e
       | inr payload => mret (Some payload)
       end)
      (λ validationError,
         Http.status 400;; Http.json (Http.ErrorBody validationError);; mret None) in
  ((∃ e sv1, block sv = (Ok None, sv1) ∧
      Http.res sv1 = Http.mkRes 400 (Some (Http.ErrorBody e)) ∧
      store (Http.core sv1) = store (Http.core sv) ∧
      schedulerState (Http.core sv1) = schedulerState (Http.core sv)) ∨
   (∃ p sv1, block sv = (Ok (Some p), sv1) ∧ quiet sv sv1)) ∧
  (Http.blank (prop payload "name") = true ∨
   Http.blank (prop payload "cronSchedule") = true ∨
   Http.blank (prop payload "type") = true →
   ∃ sv1, block sv = (Ok None, sv1)).
Proof.
  intros Hres block.
  assert (∀ e sv1, quiet sv sv1 →
    ∃ sv2, (Http.status 400;; Http.json (Http.ErrorBody e);; mret None) sv1
             = (Ok (None : option JsValue), sv2) ∧
      Http.res sv2 = Http.mkRes 400 (Some (Http.ErrorBody e)) ∧
      store (Http.core sv2) = store (Http.core sv) ∧
      schedulerState (Http.core sv2) = schedulerState (Http.core sv)) as Hcatch.
  { intros e sv1 (Q1 & Q2 & Q3 & Q4). aunfold. simpl.
    rewrite Q4, Hres. simpl. eexists. by split_and!. }
  split.
  - subst block. unfold Http.tryCatch.
    pose proof (validateJobData_quiet payload sv) as Q1.
    assert (∀ k : unit → Http.Api (option JsValue),
      (Http.validateJobData payload ≫= k) sv =
        match Http.validateJobData payload sv with
        | (Ok a, sv') => k a sv'
        | (Throw e, sv') => (Throw e, sv')
        end) as -> by done.
    destruct (Http.validateJobData payload sv) as [[[]|e] sv1].
    2: { destruct (Hcatch e sv1 Q1) as (sv2 & -> & ?). left. by exists e, sv2. }
    simpl in Q1. destruct Q1 as (Q1 & Q2 & Q3 & Q4).
    aunfold. rewrite calculateNextRunTime_run.
    destruct (evaluate _ _) as [e|t].
    { edestruct (Hcatch ("Failed to calculate next run time. Error: " +:+ e))
        as (sv2 & Hrun & ?); [|aunfold; rewrite Hrun; left; by eexists _, sv2].
      by split_and!. }
    destruct (setProp payload "nextRun" (JsDate t)) as [e|p].
    { edestruct (Hcatch e) as (sv2 & Hrun & ?);
        [|aunfold; rewrite Hrun; left; by eexists _, sv2].
      by split_and!. }
    right. eexists _, _. split; [reflexivity|]. by split_and!.
  - intros Hb. subst block. unfold Http.tryCatch.
    destruct (validateJobData_blank payload sv Hb) as (e & Hthrow).
    assert (∀ k : unit → Http.Api (option JsValue),
      (Http.validateJobData payload ≫= k) sv = (Throw e, sv)) as ->.
    { intros k. unfold mbind, Http.Api_bind. by rewrite Hthrow. }
    destruct (Hcatch e sv) as (sv2 & -> & _); [by split_and!|]. by eexists.
Qed.

Lemma blank_falsy (body : JsValue) (key : string) :
  truthy body = false → Http.blank (prop body key) = true.
Proof. by destruct body. Qed.

(** What [createJob] can do with a request, the response object being
    fresh. *)
Lemma createJob_cases (body : JsValue) (w : World) logs0 :
  let sv := Http.mkServer w Http.freshRes logs0 in
  ((∃ e sv', Http.createJob body sv = (Ok tt, sv') ∧
      Http.res sv' = Http.mkRes 400 (Some (Http.ErrorBody e)) ∧
      store (Http.core sv') = store w ∧
      schedulerState (Http.core sv') = schedulerState w) ∨
   (∃ sv', Http.createJob body sv = (Ok tt, sv') ∧
      Http.res sv' = Http.mkRes 500 (Some (Http.ErrorBody "Failed to create job")) ∧
      store (Http.core sv') = store w ∧
      schedulerState (Http.core sv') = schedulerState w) ∨
   (∃ created w2 sv', Http.createJob body sv = (Ok tt, sv') ∧
      Http.res sv' = Http.mkRes 201 (Some (Http.JobBody created)) ∧
      Http.core sv' = (SchedulerManager.scheduleJob created w2).2 ∧
      store w2 = <[_id created := fields created]> (store w) ∧
      schedulerState w2 = schedulerState w ∧
      clock w2 = clock w + ioLatency)) ∧
  (Http.blank (prop body "name") = true ∨
   Http.blank (prop body "cronSchedule") = true ∨
   Http.blank (prop body "type") = true →
   ∃ e sv', Http.createJob body sv = (Ok tt, sv') ∧
      Http.res sv' = Http.mkRes 400 (Some (Http.ErrorBody e))).
Proof.
  intros sv. unfold Http.createJob.
  set (payload := if truthy body then body else JsObject []).
  destruct (validation_block_run payload sv eq_refl) as [Hblock Hblank].
  cbv zeta in Hblock, Hblank.
  match type of Hblank with
  | _ → ∃ sv1, ?b sv = _ => set (block := b) in *
  end.
  assert (∀ k : option JsValue → Http.Api unit,
    Http.tryCatch (block ≫= k) (λ err, Http.handleError err "Failed to create job" 500) sv =
      match block sv with
      | (Ok a, sv1) =>
          match k a sv1 with
          | (Ok a, sv') => (Ok a, sv')
          | (Throw e, sv') => Http.handleError e "Failed to create job" 500 sv'
          end
      | (Throw e, sv1) => Http.handleError e "Failed to create job" 500 sv1
      end) as Hshape.
  { intros k. unfold Http.tryCatch, mbind, Http.Api_bind.
    by destruct (block sv) as [[a|e] sv1]. }
  rewrite Hshape. clear Hshape.
  assert (Http.blank (prop body "name") = true ∨
          Http.blank (prop body "cronSchedule") = true ∨
          Http.blank (prop body "type") = true →
          Http.blank (prop payload "name") = true ∨
          Http.blank (prop payload "cronSchedule") = true ∨
          Http.blank (prop payload "type") = true) as Hpay.
  { subst payload. by destruct (truthy body) eqn:Et; [|left]. }
  destruct Hblock as [(e & sv1 & Hrun & Hres & Hst & Hsch)|(p & sv1 & Hrun & Q)].
  - rewrite Hrun. aunfold. split; [left|intros _]; by eexists e, sv1.
  - split.
    2: { intros Hb. destruct (Hblank (Hpay Hb)) as (sv2 & Hno). congruence. }
    rewrite Hrun. destruct Q as (Q1 & Q2 & Q3 & Q4). simpl in Q1, Q2, Q3, Q4.
    aunfold. rewrite service_create_run.
    destruct (newJob p (Http.core sv1)) as [e|job].
    + right. left. unfold Http.handleError, Http.logError. aunfold. simpl.
      rewrite Q4. simpl. eexists. by split_and!.
    + right. right.
      match goal with
      | |- context [SchedulerManager.scheduleJob ?c ?w2] =>
          pose proof (scheduleJob_ok c w2) as Hok;
          destruct (SchedulerManager.scheduleJob c w2) as [r w3] eqn:Es
      end.
      simpl in Hok. subst r. simpl. rewrite Q4. simpl.
      eexists _, _, _. split; [reflexivity|]. simpl.
      split_and!; [done|by rewrite Es|simpl; by rewrite Q1| |simpl; by rewrite Q3].
      unfold schedulerState in *. simpl. done.
Qed.

(** X22: [getJob] never answers 404 for a job that does not exist.  On a
    fresh response and with a non-empty id, a record in the store is
    answered with 200 and the document; a missing record makes the
    repository throw ['Job not found'], which the controller's catch turns
    into 500 ['Failed to get job'] after logging it; a request without an
    id is answered with 400.  The store and the scheduler are never
    changed. *)
Theorem getJob_missing_record_answers_500 (id : string) (w : World) logs0 :
  id ≠ "" →
  let sv := Http.mkServer w Http.freshRes logs0 in
  (∀ d, store w !! id = Some d →
     ∃ sv', Http.getJob (Some id) sv = (Ok tt, sv') ∧
       Http.res sv' = Http.mkRes 200 (Some (Http.JobBody (mkJob id d))) ∧
       store (Http.core sv') = store w ∧
       schedulerState (Http.core sv') = schedulerState w ∧
       Http.apiLogs sv' = logs0) ∧
  (store w !! id = None →
     ∃ sv', Http.getJob (Some id) sv = (Ok tt, sv') ∧
       Http.res sv' = Http.mkRes 500 (Some (Http.ErrorBody "Failed to get job")) ∧
       store (Http.core sv') = store w ∧
       schedulerState (Http.core sv') = schedulerState w ∧
       Http.apiLogs sv' =
         logs0 ++ [(ERROR, Http.ControllerError "Failed to get job" "Job not found")]) ∧
  (∀ missing, missing = None ∨ missing = Some "" →
     ∃ sv', Http.getJob missing sv = (Ok tt, sv') ∧
       Http.res sv' = Http.mkRes 400 (Some (Http.ErrorBody "id param required")) ∧
       Http.core sv' = w).
Proof.
  intros Hid sv. split_and!.
  - intros d Hd. unfold Http.getJob.
    apply String.eqb_neq in Hid. rewrite Hid.
    aunfold. simpl. rewrite getById_run, Hd. simpl.
    eexists. by split_and!.
  - intros Hd. unfold Http.getJob, Http.handleError, Http.logError.
    apply String.eqb_neq in Hid. rewrite Hid.
    aunfold. simpl. rewrite getById_run, Hd. simpl.
    eexists. by split_and!.
  - intros missing [->| ->]; unfold Http.getJob; aunfold; simpl;
      eexists; by split_and!.
Qed.

(** X23: [createJob] always answers, and a refusal changes nothing.  On
    a fresh response the controller returns normally with exactly one
    response sent, of status 201, 400 or 500; unless the status is 201 the
    body is an error message and the store and the scheduler are exactly
    as before the request.  A payload whose [name], [cronSchedule] or
    [type] is missing, not a string or blank is refused with 400. *)
Theorem createJob_refusal_changes_nothing (body : JsValue) (w : World) logs0 :
  let sv := Http.mkServer w Http.freshRes logs0 in
  ∃ sv' code answer,
    Http.createJob body sv = (Ok tt, sv') ∧
    Http.res sv' = Http.mkRes code (Some answer) ∧
    (code = 201 ∨ code = 400 ∨ code = 500) ∧
    (code ≠ 201 →
       (∃ message, answer = Http.ErrorBody message) ∧
       store (Http.core sv') = store w ∧
       schedulerState (Http.core sv') = schedulerState w) ∧
    (Http.blank (prop body "name") = true ∨
     Http.blank (prop body "cronSchedule") = true ∨
     Http.blank (prop body "type") = true → code = 400).
Proof.
  intros sv. destruct (createJob_cases body w logs0) as [Hcases Hblank].
  fold sv in Hcases, Hblank.
  destruct Hcases as [(e & sv' & Hrun & Hres & Hst & Hsch)
                     |[(sv' & Hrun & Hres & Hst & Hsch)
                      |(created & w2 & sv' & Hrun & Hres & _)]].
  - exists sv', 400, (Http.ErrorBody e). split_and!; try done; [by right; left|].
    intros _. split_and!; [by eexists|done..].
  - exists sv', 500, (Http.ErrorBody "Failed to create job").
    split_and!; try done; [by right; right| |].
    + intros _. split_and!; [by eexists|done..].
    + intros Hb. destruct (Hblank Hb) as (e & sv2 & Hrun2 & Hres2).
      rewrite Hrun in Hrun2. injection Hrun2 as <-. rewrite Hres in Hres2. done.
  - exists sv', 201, (Http.JobBody created). split_and!; try done; [by left|].
    intros Hb. destruct (Hblank Hb) as (e & sv2 & Hrun2 & Hres2).
    rewrite Hrun in Hrun2. injection Hrun2 as <-. rewrite Hres in Hres2. done.
Qed.

(** X24: a job created through the API is scheduled at once.  When
    [createJob], called on a consistent scheduler that is not shutting
    down, answers 201 with the created document, that document is in the
    store under its id; if it is active with an expression the checks of
    [scheduleJob] accept, it is registered with exactly one live timer
    before the response is sent, without waiting for the discovery
    interval; if it is not active, it is not registered. *)
Theorem createJob_schedules_created_job
    (body : JsValue) (created : Job) (w : World) logs0 (sv' : Http.Server) :
  consistent w → isShuttingDown w = false →
  Http.createJob body (Http.mkServer w Http.freshRes logs0) = (Ok tt, sv') →
  Http.res sv' = Http.mkRes 201 (Some (Http.JobBody created)) →
  store (Http.core sv') = <[_id created := fields created]> (store w) ∧
  consistent (Http.core sv') ∧
  (status created = active →
   accepted (cronSchedule created) (clock w + ioLatency) →
   _id created ∈ registeredIds (Http.core sv') ∧
   liveCount (_id created) (Http.core sv') = 1%nat) ∧
  (status created ≠ active →
   (_id created ∉ registeredIds (Http.core sv')) ∧
   liveCount (_id created) (Http.core sv') = 0%nat).
Proof.
  intros Hc Hflag Hrun Hres.
  destruct (createJob_cases body w logs0) as [Hcases _].
  destruct Hcases as [(e & sv1 & Hrun1 & Hres1 & _)
                     |[(sv1 & Hrun1 & Hres1 & _)
                      |(created1 & w2 & sv1 & Hrun1 & Hres1 & Hcore & Hst & Hsch & Hck)]];
    rewrite Hrun in Hrun1; injection Hrun1 as <-; rewrite Hres in Hres1;
    try discriminate.
  injection Hres1 as <-.
  assert (consistent w2) as Hc2 by by eapply consistent_frame.
  assert (isShuttingDown w2 = false) as Hflag2.
  { unfold schedulerState in Hsch. injection Hsch as _ _ -> _ _ _. done. }
  pose proof (consistent_scheduleJob created w2 Hc2) as Hc3.
  pose proof (scheduleJob_registryOnly created w2) as [Hs3 _ _ _ _].
  pose proof (scheduleJob_own created w2 Hflag2) as Hown.
  rewrite <- Hcore in Hc3, Hs3, Hown.
  split_and!.
  - by rewrite Hs3.
  - done.
  - intros Hact Hacc. rewrite Hck in Hown.
    assert (is_Some (scheduledTasks (Http.core sv') !! _id created)) as [h Hh].
    { apply Hown. by split. }
    split; [apply registeredIds_elem; by eexists|].
    by eapply liveCount_registered.
  - intros Hact.
    assert (scheduledTasks (Http.core sv') !! _id created = None) as Hnone.
    { apply eq_None_not_Some. rewrite Hown. by intros [? _]. }
    split; [rewrite registeredIds_elem, Hnone; by intros [? ?]|].
    by apply liveCount_unregistered.
Qed.
End ControllerRuns.

(** ** The Redis shim *)

Section ShimFacts.
Import RedisShim.

Lemma expire_all_fields (l : list (nat * (Z * string))) (s : State) :
  let s' := foldr (λ p s, expire p.2.2 s) s l in
  now s' = now s ∧ timeouts s' = timeouts s ∧ timeoutSeq s' = timeoutSeq s ∧
  (∀ k, store s' !! k = if bool_decide (k ∈ l.*2.*2) then None else store s !! k) ∧
  (∀ k, timers s' !! k = if bool_decide (k ∈ l.*2.*2) then None else timers s !! k).
Proof.
  induction l as [|[h [due key]] l IH]; simpl.
  - split_and!; try done; intros k; by rewrite bool_decide_eq_false_2 by apply not_elem_of_nil.
  - destruct IH as (I1 & I2 & I3 & I4 & I5). split_and!; try done.
    + intros k. destruct (decide (k = key)) as [->|Hne].
      * rewrite lookup_delete_eq. by rewrite bool_decide_eq_true_2 by left.
      * rewrite lookup_delete_ne by done. rewrite I4.
        case_bool_decide as Hin; case_bool_decide as Hin'; try done.
        -- exfalso. apply Hin'. by right.
        -- exfalso. apply elem_of_cons in Hin' as [?|?]; done.
    + intros k. destruct (decide (k = key)) as [->|Hne].
      * rewrite lookup_delete_eq. by rewrite bool_decide_eq_true_2 by left.
      * rewrite lookup_delete_ne by done. rewrite I5.
        case_bool_decide as Hin; case_bool_decide as Hin'; try done.
        -- exfalso. apply Hin'. by right.
        -- exfalso. apply elem_of_cons in Hin' as [?|?]; done.
Qed.

Lemma due_key (s : State) (t : Z) (k : string) :
  k ∈ (map_to_list (filter (λ p : nat * (Z * string), p.2.1 ≤ t) (timeouts s))).*2.*2 ↔
  ∃ h due, timeouts s !! h = Some (due, k) ∧ due ≤ t.
Proof.
  rewrite list_elem_of_fmap. split.
  - intros ([due k'] & Hk & Hin). simpl in Hk. subst k'.
    apply list_elem_of_fmap in Hin as ([h p] & Hp & Hin). simpl in Hp. subst p.
    apply elem_of_map_to_list, map_lookup_filter_Some in Hin as [Hl Hd].
    simpl in *. by exists h, due.
  - intros (h & due & Hl & Hd). exists (due, k). split; [done|].
    apply list_elem_of_fmap. exists (h, (due, k)). split; [done|].
    apply elem_of_map_to_list, map_lookup_filter_Some. done.
Qed.

Lemma due_or_not (s : State) (t : Z) (k : string) :
  (∃ h due, timeouts s !! h = Some (due, k) ∧ due ≤ t) ∨
  ¬ (∃ h due, timeouts s !! h = Some (due, k) ∧ due ≤ t).
Proof.
  rewrite <- due_key.
  destruct (decide (k ∈ (map_to_list (filter (λ p : nat * (Z * string), p.2.1 ≤ t)
                                         (timeouts s))).*2.*2)); tauto.
Qed.

(** What [elapse] leaves. *)
Lemma elapse_spec (ms : N) (s : State) :
  let t := now s + Z.of_N ms in
  let s' := elapse ms s in
  now s' = t ∧ timeoutSeq s' = timeoutSeq s ∧
  timeouts s' = filter (λ p : nat * (Z * string), ¬ p.2.1 ≤ t) (timeouts s) ∧
  (∀ k, (∃ h due, timeouts s !! h = Some (due, k) ∧ due ≤ t) →
        store s' !! k = None ∧ timers s' !! k = None) ∧
  (∀ k, ¬ (∃ h due, timeouts s !! h = Some (due, k) ∧ due ≤ t) →
        store s' !! k = store s !! k ∧ timers s' !! k = timers s !! k).
Proof.
  intros t s'. subst s'. unfold elapse. fold t.
  match goal with |- context [foldr _ ?s0 ?l] =>
    destruct (expire_all_fields l s0) as (I1 & I2 & I3 & I4 & I5) end.
  simpl in I1, I2, I3, I4, I5.
  split_and!; try done.
  - intros k Hdue. apply due_key in Hdue.
    rewrite I4, I5. by rewrite !bool_decide_eq_true_2.
  - intros k Hdue. rewrite <- due_key in Hdue.
    rewrite I4, I5. by rewrite !bool_decide_eq_false_2.
Qed.

Lemma coherent_initial : coherent initial.
Proof. constructor; simpl; intros *; by rewrite lookup_empty. Qed.

Lemma coherent_clearTimer key s : coherent s → coherent (clearTimer key s).
Proof.
  intros [C1 C2 C3 C4 C5]. unfold clearTimer.
  destruct (timers s !! key) as [t|] eqn:E; [|by constructor].
  constructor; simpl.
  - intros k h [Hne Hl]%lookup_delete_Some.
    destruct (C1 _ _ Hl) as [due Hd]. exists due.
    rewrite lookup_delete_ne; [done|]. intros ->.
    destruct (C1 _ _ E) as [due' Hd']. congruence.
  - intros h due k [Hne Hl]%lookup_delete_Some.
    rewrite lookup_delete_ne; [by eapply C2|].
    intros ->. pose proof (C2 _ _ _ Hl). congruence.
  - intros h due k [Hne Hl]%lookup_delete_Some. by eapply C3.
  - intros h p [Hne Hl]%lookup_delete_Some. by eapply C4.
  - intros k h [Hne Hl]%lookup_delete_Some. by eapply C5.
Qed.

Lemma clearTimer_spec key s :
  let s' := clearTimer key s in
  now s' = now s ∧ store s' = store s ∧ timeoutSeq s' = timeoutSeq s ∧
  timers s' = delete key (timers s) ∧
  (coherent s → ∀ h due, timeouts s' !! h ≠ Some (due, key)).
Proof.
  unfold clearTimer. destruct (timers s !! key) as [t|] eqn:E; simpl.
  - split_and!; try done. intros [C1 C2 _ _ _] h due [Hne Hl]%lookup_delete_Some.
    pose proof (C2 _ _ _ Hl). congruence.
  - split_and!; try done; [by rewrite delete_id|].
    intros [C1 C2 _ _ _] h due Hl. pose proof (C2 _ _ _ Hl). congruence.
Qed.

Lemma timeoutDelay_positive ms : 0 < timeoutDelay ms.
Proof.
  unfold timeoutDelay. destruct (_ || _) eqn:E; [lia|].
  apply orb_false_iff in E as [_ E]. apply Z.ltb_ge in E. lia.
Qed.

Lemma coherent_set key value ttl s :
  coherent s → coherent (fallbackSet key value ttl s).2.
Proof.
  intros Hc. unfold fallbackSet. simpl.
  set (s0 := mkState (now s) (<[key:=value]> (store s)) (timers s) (timeouts s)
               (timeoutSeq s)).
  assert (coherent s0) as Hc0.
  { destruct Hc as [C1 C2 C3 C4 C5]. constructor; simpl; try done.
    intros k t Hl. apply lookup_insert_is_Some'. right. by eapply C5. }
  pose proof (coherent_clearTimer key s0 Hc0) as Hc1.
  destruct (clearTimer_spec key s0) as (N1 & S1 & Q1 & T1 & P1).
  specialize (P1 Hc0).
  set (s1 := clearTimer key s0) in *.
  destruct (positiveNumber ttl) as [n|]; [|done].
  destruct Hc1 as [C1 C2 C3 C4 C5]. constructor; simpl.
  - intros k t. rewrite lookup_insert_Some. intros [[<- <-]|[Hne Hl]].
    + eexists. apply lookup_insert_eq.
    + destruct (C1 _ _ Hl) as [due Hd]. exists due.
      rewrite lookup_insert_ne; [done|]. intros <-.
      apply C4 in Hd. lia.
  - intros t due k. rewrite lookup_insert_Some. intros [[<- [= <- <-]]|[Hne Hl]].
    + apply lookup_insert_eq.
    + rewrite lookup_insert_ne; [by eapply C2|]. intros <-. by eapply P1.
  - intros t due k. rewrite lookup_insert_Some. intros [[<- [= <- <-]]|[Hne Hl]].
    + pose proof (timeoutDelay_positive (n * 1000)). lia.
    + by eapply C3.
  - intros t p. rewrite lookup_insert_Some. intros [[<- _]|[Hne Hl]]; [lia|].
    apply C4 in Hl. lia.
  - intros k t. rewrite lookup_insert_Some. intros [[<- <-]|[Hne Hl]].
    + rewrite S1. simpl. rewrite lookup_insert_eq. by eexists.
    + by eapply C5.
Qed.

Lemma coherent_del key s : coherent s → coherent (fallbackDel key s).2.
Proof.
  intros Hc. unfold fallbackDel. simpl.
  pose proof (coherent_clearTimer key s Hc) as Hc1.
  destruct (clearTimer_spec key s) as (N1 & S1 & Q1 & T1 & P1).
  set (s1 := clearTimer key s) in *.
  destruct Hc1 as [C1 C2 C3 C4 C5]. constructor; simpl; try done.
  intros k t Hl. destruct (decide (k = key)) as [->|Hne].
  - rewrite T1, lookup_delete_eq in Hl. done.
  - rewrite lookup_delete_ne by done. by eapply C5.
Qed.

Lemma coherent_elapse ms s : coherent s → coherent (elapse ms s).
Proof.
  intros [C1 C2 C3 C4 C5].
  destruct (elapse_spec ms s) as (N1 & Q1 & P1 & Hdue & Hkeep).
  set (t := now s + Z.of_N ms) in *. set (s' := elapse ms s) in *.
  assert (∀ k h, timers s' !! k = Some h →
            timers s !! k = Some h ∧ store s' !! k = store s !! k ∧
            ¬ (∃ h due, timeouts s !! h = Some (due, k) ∧ due ≤ t)) as Hlive.
  { intros k h Hl.
    destruct (due_or_not s t k) as [Hd|Hd].
    - destruct (Hdue _ Hd) as [_ Hn]. congruence.
    - destruct (Hkeep _ Hd) as [Hs Ht]. rewrite <- Ht. done. }
  constructor.
  - intros k h Hl. destruct (Hlive _ _ Hl) as (Hl0 & _ & Hnd).
    destruct (C1 _ _ Hl0) as [due Hd]. exists due.
    rewrite P1. apply map_lookup_filter_Some. split; [done|]. simpl.
    intros Hle. apply Hnd. by exists h, due.
  - intros h due k. rewrite P1. intros [Hl Hnd]%map_lookup_filter_Some. simpl in Hnd.
    pose proof (C2 _ _ _ Hl) as Ht.
    destruct (Hkeep k) as [_ ->]; [|done].
    intros (h' & due' & Hl' & Hle).
    pose proof (C2 _ _ _ Hl') as Ht'. assert (h' = h) as -> by congruence.
    rewrite Hl in Hl'. injection Hl' as <-. done.
  - intros h due k. rewrite P1, N1. intros [Hl Hnd]%map_lookup_filter_Some.
    simpl in Hnd. lia.
  - intros h p. rewrite P1, Q1. intros [Hl _]%map_lookup_filter_Some. by eapply C4.
  - intros k h Hl. destruct (Hlive _ _ Hl) as (Hl0 & -> & _). by eapply C5.
Qed.

Lemma coherent_step s c : coherent s → coherent (step s c).
Proof.
  intros Hc. destruct c; simpl; try done.
  - by apply coherent_set.
  - by apply coherent_del.
  - by apply coherent_elapse.
Qed.

Lemma coherent_run calls s : coherent s → coherent (run calls s).
Proof.
  revert s. induction calls as [|c calls IH]; intros s Hc; simpl; [done|].
  by apply IH, coherent_step.
Qed.

Lemma set_with_ttl_spec key value ttl s :
  0 < ttl → ttl * 1000 ≤ 2147483647 → coherent s →
  let s1 := (fallbackSet key value (JsNumber ttl) s).2 in
  coherent s1 ∧ now s1 = now s ∧ store s1 = <[key := value]> (store s) ∧
  ∃ h, timers s1 !! key = Some h ∧
       timeouts s1 !! h = Some (now s + ttl * 1000, key).
Proof.
  intros Hpos Hmax Hc s1.
  split; [by apply coherent_set|].
  subst s1. unfold fallbackSet. simpl.
  rewrite (proj2 (Z.ltb_lt 0 ttl) Hpos).
  match goal with |- context [clearTimer key ?s0] =>
    destruct (clearTimer_spec key s0) as (N1 & S1 & Q1 & T1 & _);
    set (s1 := clearTimer key s0) in * end.
  simpl in *. split_and!; [done|done|].
  exists (timeoutSeq s1). rewrite !lookup_insert_eq. split; [done|].
  unfold timeoutDelay.
  rewrite (proj2 (Z.ltb_ge 2147483647 (ttl * 1000))) by lia.
  rewrite (proj2 (Z.ltb_ge (ttl * 1000) 1)) by lia. simpl. by rewrite N1.
Qed.

(** X25: a value set with a time-to-live is served until the time is
    up, and not after.  From any state the shim can reach, [set] with a
    positive number of seconds (within the range of Node's timers) answers
    OK, [get] gives the value back at once and after any wait shorter than
    the time-to-live; once the time-to-live has passed [get] resolves to
    [null] and [del] reports that there was nothing to remove. *)
Theorem shim_value_lives_until_ttl
    (calls : list Call) (key : string) (value : JsValue) (ttl : Z) :
  0 < ttl → ttl * 1000 ≤ 2147483647 →
  let s := run calls initial in
  let s1 := (fallbackSet key value (JsNumber ttl) s).2 in
  (fallbackSet key value (JsNumber ttl) s).1 = JsString "OK" ∧
  (fallbackGet key s1).1 = value ∧
  (∀ ms, Z.of_N ms < ttl * 1000 → (fallbackGet key (elapse ms s1)).1 = value) ∧
  (∀ ms, ttl * 1000 ≤ Z.of_N ms →
         (fallbackGet key (elapse ms s1)).1 = JsNull ∧
         (fallbackDel key (elapse ms s1)).1 = JsNumber 0).
Proof.
  intros Hpos Hmax s s1.
  assert (coherent s) as Hc by apply coherent_run, coherent_initial.
  destruct (set_with_ttl_spec key value ttl s Hpos Hmax Hc)
    as (Hc1 & Hn1 & Hs1 & h & Ht1 & Hp1).
  fold s1 in Hc1, Hn1, Hs1, Ht1, Hp1.
  split_and!.
  - done.
  - unfold fallbackGet. simpl. by rewrite Hs1, lookup_insert_eq.
  - intros ms Hms. destruct (elapse_spec ms s1) as (_ & _ & _ & _ & Hkeep).
    destruct (Hkeep key) as [Hst _].
    { intros (h' & due & Hl & Hle).
      pose proof (pending_timer _ Hc1 _ _ _ Hl) as Ht'.
      assert (h' = h) as -> by congruence.
      rewrite Hp1 in Hl. injection Hl as <-. lia. }
    unfold fallbackGet. simpl. by rewrite Hst, Hs1, lookup_insert_eq.
  - intros ms Hms. destruct (elapse_spec ms s1) as (_ & _ & _ & Hdue & _).
    destruct (Hdue key) as [Hst Htm].
    { exists h, (now s + ttl * 1000). split; [done|]. lia. }
    split.
    + unfold fallbackGet. simpl. by rewrite Hst.
    + unfold fallbackDel, clearTimer. rewrite Htm. simpl. rewrite Hst.
      by rewrite bool_decide_eq_false_2 by (by intros [? ?]).
Qed.

(** X26: setting a key without a time-to-live makes it permanent.  From
    any state the shim can reach, whatever timer the key had, a [set]
    whose third argument is not a positive number clears that timer, and
    the value is then served after any wait. *)
Theorem shim_set_without_ttl_cancels_expiry
    (calls : list Call) (key : string) (value noTtl : JsValue) :
  positiveNumber noTtl = None →
  let s := run calls initial in
  let s1 := (fallbackSet key value noTtl s).2 in
  timers s1 !! key = None ∧
  ∀ ms, (fallbackGet key (elapse ms s1)).1 = value ∧
        (client_exists key (elapse ms s1)).1 =
          JsNumber (match value with JsNull | JsUndefined => 0 | _ => 1 end).
Proof.
  intros Hno s s1.
  assert (coherent s) as Hc by apply coherent_run, coherent_initial.
  assert (store s1 = <[key := value]> (store s) ∧ timers s1 !! key = None ∧
          ∀ h due, timeouts s1 !! h ≠ Some (due, key)) as (Hs1 & Ht1 & Hp1).
  { subst s1. unfold fallbackSet. simpl. rewrite Hno.
    match goal with |- context [clearTimer key ?s0] =>
      assert (coherent s0) as Hc0;
      [|destruct (clearTimer_spec key s0) as (N1 & S1 & Q1 & T1 & P1)] end.
    { destruct Hc as [C1 C2 C3 C4 C5]. constructor; simpl; try done.
      intros k t Hl. apply lookup_insert_is_Some'. right. by eapply C5. }
    split_and!; [done|by rewrite T1, lookup_delete_eq|by apply P1]. }
  split; [done|]. intros ms.
  destruct (elapse_spec ms s1) as (_ & _ & _ & _ & Hkeep).
  destruct (Hkeep key) as [Hst _].
  { intros (h & due & Hl & _). by eapply Hp1. }
  unfold client_exists, fallbackGet. simpl.
  by rewrite Hst, Hs1, lookup_insert_eq.
Qed.

(** X27: [del] reports what it removed.  In any state, [del] answers 1
    exactly when the key was stored and 0 otherwise; afterwards the key
    has no timer, [get] resolves to [null], [exists] answers 0 and a
    second [del] answers 0, while every other key is stored as before.
    [exists] looks at the value and not at the key: a key that holds
    [null] is reported absent although [del] finds and removes it. *)
Theorem shim_del_reports_and_removes (key : string) (s : State) :
  let s1 := (fallbackDel key s).2 in
  ((fallbackDel key s).1 = JsNumber 1 ↔ is_Some (store s !! key)) ∧
  ((fallbackDel key s).1 = JsNumber 0 ↔ store s !! key = None) ∧
  timers s1 !! key = None ∧
  (fallbackGet key s1).1 = JsNull ∧
  (client_exists key s1).1 = JsNumber 0 ∧
  (fallbackDel key s1).1 = JsNumber 0 ∧
  (∀ k, k ≠ key → store s1 !! k = store s !! k) ∧
  (store s !! key = Some JsNull →
   (client_exists key s).1 = JsNumber 0 ∧ (fallbackDel key s).1 = JsNumber 1).
Proof.
  intros s1.
  destruct (clearTimer_spec key s) as (N1 & S1 & Q1 & T1 & _).
  assert ((fallbackDel key s).1 =
            JsNumber (if bool_decide (is_Some (store s !! key)) then 1 else 0)) as Hr.
  { unfold fallbackDel. simpl. by rewrite S1. }
  assert (store s1 = delete key (store s) ∧ timers s1 = delete key (timers s))
    as [Hs1 Ht1].
  { subst s1. unfold fallbackDel. simpl. by rewrite S1, T1. }
  clearbody s1.
  split_and!.
  - rewrite Hr. case_bool_decide as Hs; split; intros Hx; try done; discriminate.
  - rewrite Hr. case_bool_decide as Hs; split; intros Hx.
    + discriminate.
    + rewrite Hx in Hs. by destruct Hs.
    + by apply eq_None_not_Some.
    + done.
  - by rewrite Ht1, lookup_delete_eq.
  - unfold fallbackGet. simpl. by rewrite Hs1, lookup_delete_eq.
  - unfold client_exists, fallbackGet. simpl. by rewrite Hs1, lookup_delete_eq.
  - destruct (clearTimer_spec key s1) as (_ & S2 & _).
    unfold fallbackDel. simpl. rewrite S2, Hs1, lookup_delete_eq.
    by rewrite bool_decide_eq_false_2 by (by intros [? ?]).
  - intros k Hne. by rewrite Hs1, lookup_delete_ne.
  - intros Hnull. split.
    + unfold client_exists, fallbackGet. simpl. by rewrite Hnull.
    + rewrite Hr, Hnull. by rewrite bool_decide_eq_true_2 by by eexists.
Qed.
End ShimFacts.

(** ** The further theorems on sample data *)

Lemma consistent_registeredWorld : consistent registeredWorld.
Proof. apply consistent_scheduleJob, consistent_initial. Qed.

Lemma consistent_pausedWorld : consistent pausedWorld.
Proof. destruct consistent_registeredWorld as [? ? ?]. by constructor. Qed.

Lemma consistent_startedWorld : consistent startedWorld.
Proof. apply stable_consistent_start, consistent_initial. Qed.

(* X1 witness *)
Lemma scheduleJob_registers_accepted_job_witness :
  let w := initialWorld 0 emailStore in
  isShuttingDown w = false ∧ status emailJob = active ∧
  @validation cronParser permissiveNodeCron correctedDeployment
    (cronSchedule emailJob) (clock w) = inr 300000 ∧
  ∃ w', @SchedulerManager.scheduleJob cronParser permissiveNodeCron correctedDeployment
          emailJob w = (Ok tt, w') ∧
        scheduledTasks w' = <["j1" := 0%nat]> (scheduledTasks w) ∧
        liveCount "j1" w' = 1%nat.
Proof.
  intros w.
  assert (isShuttingDown w = false) as Hflag by reflexivity.
  assert (status emailJob = active) as Hact by reflexivity.
  assert (@validation cronParser permissiveNodeCron correctedDeployment
            (cronSchedule emailJob) (clock w) = inr 300000) as Hval
    by (vm_compute; reflexivity).
  split_and!; [exact Hflag | exact Hact | exact Hval |].
  destruct (@scheduleJob_registers_accepted_job cronParser permissiveNodeCron
              correctedDeployment emailJob 300000 w (consistent_initial 0 emailStore)
              Hflag Hact Hval) as (w' & Hrun & Hreg & _ & _ & Hlive & _).
  exists w'. split_and!; [exact Hrun | exact Hreg | exact Hlive].
Defined.

(* X2 witness *)
Lemma scheduleJob_leaves_other_jobs_witness :
  let w' := (@SchedulerManager.scheduleJob cronParser permissiveNodeCron
               correctedDeployment brokenJob registeredWorld).2 in
  store w' = store registeredWorld ∧
  scheduledTasks w' !! "j1" = scheduledTasks registeredWorld !! "j1" ∧
  liveCount "j1" w' = liveCount "j1" registeredWorld.
Proof.
  intros w'.
  destruct (@scheduleJob_leaves_other_jobs cronParser permissiveNodeCron
              correctedDeployment brokenJob registeredWorld consistent_registeredWorld)
    as (_ & Hst & _ & Hother).
  destruct (Hother "j1") as (Hreg & Hlive & _); [discriminate|].
  split_and!; [exact Hst | exact Hreg | exact Hlive].
Defined.

(* X3 witness *)
Lemma unscheduleJob_cancels_timer_witness :
  scheduledTasks registeredWorld !! "j1" = Some 0%nat ∧
  ∃ w', SchedulerManager.unscheduleJob "j1" registeredWorld = (Ok tt, w') ∧
        ("j1" ∉ registeredIds w') ∧ liveCount "j1" w' = 0%nat.
Proof.
  assert (scheduledTasks registeredWorld !! "j1" = Some 0%nat) as Hreg
    by (vm_compute; reflexivity).
  split; [exact Hreg|].
  destruct (unscheduleJob_cancels_timer "j1" 0 registeredWorld
              consistent_registeredWorld Hreg)
    as (w' & t & Hrun & _ & Hno & _ & _ & _ & Hlive & _).
  exists w'. split_and!; [exact Hrun | exact Hno | exact Hlive].
Defined.

(* X4 witness *)
Lemma discovery_registers_exactly_witness :
  let w := initialWorld 0 brokenStore in
  isShuttingDown w = false ∧
  ∃ w', @SchedulerManager.discoverAndScheduleJobs cronParser permissiveNodeCron
          quietEnvironment correctedDeployment w = (Ok tt, w') ∧
        store w' = store w.
Proof.
  intros w.
  assert (isShuttingDown w = false) as Hflag by reflexivity.
  split; [exact Hflag|].
  destruct (@discovery_registers_exactly cronParser permissiveNodeCron
              quietEnvironment correctedDeployment w Hflag) as (w' & Hrun & Hst & _).
  exists w'. split; [exact Hrun | exact Hst].
Defined.

(* X5 witness *)
Lemma discovery_keeps_registered_timer_witness :
  scheduledTasks registeredWorld !! "j1" = Some 0%nat ∧
  store registeredWorld !! "j1" = Some emailDoc ∧
  ∃ w', @SchedulerManager.discoverAndScheduleJobs cronParser permissiveNodeCron
          quietEnvironment correctedDeployment registeredWorld = (Ok tt, w') ∧
        scheduledTasks w' !! "j1" = Some 0%nat.
Proof.
  assert (scheduledTasks registeredWorld !! "j1" = Some 0%nat) as Hreg
    by (vm_compute; reflexivity).
  assert (store registeredWorld !! "j1" = Some emailDoc) as Hd
    by (vm_compute; reflexivity).
  split_and!; [exact Hreg | exact Hd |].
  destruct (@discovery_keeps_registered_timer cronParser permissiveNodeCron
              quietEnvironment correctedDeployment "j1" 0 emailDoc registeredWorld
              consistent_registeredWorld Hreg Hd eq_refl)
    as (w' & t & Hrun & Hreg' & _).
  exists w'. split; [exact Hrun | exact Hreg'].
Defined.

Lemma pausedStore_inactive : "j1" ∉ activeIds pausedStore.
Proof.
  rewrite activeIds_elem. intros (d & Hd & Hact).
  change (({["j1" := pausedDoc]} : gmap string JobDoc) !! "j1" = Some d) in Hd.
  apply lookup_singleton_Some in Hd as [_ <-]. discriminate.
Qed.

(* X6 witness *)
Lemma discovery_unschedules_inactive_witness :
  ("j1" ∉ activeIds (store pausedWorld)) ∧
  scheduledTasks pausedWorld !! "j1" = Some 0%nat ∧
  ∃ w', @SchedulerManager.discoverAndScheduleJobs cronParser permissiveNodeCron
          quietEnvironment correctedDeployment pausedWorld = (Ok tt, w') ∧
        ("j1" ∉ registeredIds w') ∧ liveCount "j1" w' = 0%nat.
Proof.
  assert ("j1" ∉ activeIds (store pausedWorld)) as Hin by exact pausedStore_inactive.
  split_and!; [exact Hin | vm_compute; reflexivity |].
  destruct (@discovery_unschedules_inactive cronParser permissiveNodeCron
              quietEnvironment correctedDeployment "j1" pausedWorld
              consistent_pausedWorld Hin) as (w' & Hrun & Hno & Hlive & _).
  exists w'. split_and!; [exact Hrun | exact Hno | exact Hlive].
Defined.

Lemma registeredWorld_reconciled :
  list_to_set (registeredIds registeredWorld) = activeIds (store registeredWorld).
Proof.
  apply set_eq. intros id.
  rewrite elem_of_list_to_set, registeredIds_elem, activeIds_elem.
  destruct (decide (id = "j1")) as [->|Hne].
  - split; intros _; [exists emailDoc; by split | by exists 0%nat].
  - split.
    + intros [h Hh]. exfalso. revert Hh.
      change (scheduledTasks registeredWorld) with (<["j1" := 0%nat]> (∅ : gmap string nat)).
      rewrite lookup_insert_ne by done. by rewrite lookup_empty.
    + intros (d & Hd & _). exfalso. revert Hd.
      change (store registeredWorld) with ({["j1" := emailDoc]} : gmap string JobDoc).
      by rewrite lookup_singleton_ne.
Qed.

(* X7 witness *)
Lemma discovery_reconciled_is_noop_witness :
  list_to_set (registeredIds registeredWorld) = activeIds (store registeredWorld) ∧
  ∃ w', @SchedulerManager.discoverAndScheduleJobs cronParser permissiveNodeCron
          quietEnvironment correctedDeployment registeredWorld = (Ok tt, w') ∧
        schedulerState w' = schedulerState registeredWorld.
Proof.
  split; [exact registeredWorld_reconciled|].
  destruct (@discovery_reconciled_is_noop cronParser permissiveNodeCron
              quietEnvironment correctedDeployment registeredWorld
              registeredWorld_reconciled) as (w' & Hrun & Hsch & _).
  exists w'. split; [exact Hrun | exact Hsch].
Defined.

(* X8 witness *)
Lemma start_registers_accepted_active_jobs_witness :
  let w := initialWorld 0 emailStore in
  isShuttingDown w = false ∧
  ∃ w', @SchedulerManager.start cronParser permissiveNodeCron quietEnvironment
          correctedDeployment w = (Ok tt, w') ∧
        isRunning w' = true ∧ intervalId w' = Some 0%nat.
Proof.
  intros w.
  assert (isShuttingDown w = false) as Hflag by reflexivity.
  split; [exact Hflag|].
  destruct (@start_registers_accepted_active_jobs cronParser permissiveNodeCron
              quietEnvironment correctedDeployment w Hflag)
    as (w' & Hrun & _ & Hon & Hint & _).
  exists w'. split_and!; [exact Hrun | exact Hon | exact (Hint eq_refl)].
Defined.

(* X12 witness *)
Lemma stop_is_undone_by_discovery_witness :
  isShuttingDown startedWorld = false ∧ intervalId startedWorld = Some 0%nat ∧
  ∃ w1 w2,
    SchedulerManager.stop startedWorld = (Ok tt, w1) ∧
    @SchedulerManager.onInterval cronParser permissiveNodeCron quietEnvironment
      correctedDeployment w1 = (Ok tt, w2) ∧
    registeredCount w1 = 0%nat.
Proof.
  assert (isShuttingDown startedWorld = false) as Hflag by (vm_compute; reflexivity).
  assert (intervalId startedWorld = Some 0%nat) as Hint by (vm_compute; reflexivity).
  split_and!; [exact Hflag | exact Hint |].
  destruct (@stop_is_undone_by_discovery cronParser permissiveNodeCron
              quietEnvironment correctedDeployment 0%nat startedWorld
              consistent_startedWorld Hflag Hint)
    as (w1 & w2 & Hrun1 & Hrun2 & Hcount & _).
  exists w1, w2. split_and!; [exact Hrun1 | exact Hrun2 | exact Hcount].
Defined.

(* X14 witness *)
Lemma execute_missing_record_rejects_witness :
  store (initialWorld 0 ∅) !! "j1" = None ∧
  (@JobExecutor.execute cronParser quietEnvironment correctedDeployment emailJob
     (initialWorld 0 ∅)).1 = Throw "Job not found".
Proof.
  assert (store (initialWorld 0 ∅) !! _id emailJob = None) as Hnone by reflexivity.
  split; [exact Hnone|].
  exact (proj1 (@execute_missing_record_rejects cronParser quietEnvironment
                  correctedDeployment emailJob (initialWorld 0 ∅) Hnone)).
Defined.

(* X15 witness *)
Lemma execute_next_run_failure_marks_failed_witness :
  let w := initialWorld 0 brokenStore in
  @JobModel.validate correctedDeployment brokenDoc = inr tt ∧
  @evaluate cronParser (cronSchedule brokenJob) (clock w + handlerDelay brokenJob)
    = inl "InvalidExpression" ∧
  ∃ w' t,
    @JobExecutor.execute cronParser quietEnvironment correctedDeployment brokenJob w
      = (Ok tt, w') ∧
    store w' !! "j2" =
      Some (mkJobDoc "B" "Broken schedule" "not-a-cron" "email" failed
                     (Some t) None t).
Proof.
  intros w.
  assert (@JobModel.validate correctedDeployment brokenDoc = inr tt) as Hv
    by reflexivity.
  assert (@evaluate cronParser (cronSchedule brokenJob) (clock w + handlerDelay brokenJob)
            = inl "InvalidExpression") as Heval by (vm_compute; reflexivity).
  split_and!; [exact Hv | exact Heval |].
  destruct (@execute_next_run_failure_marks_failed cronParser quietEnvironment
              correctedDeployment brokenJob brokenDoc "InvalidExpression" w
              eq_refl Hv eq_refl Heval) as (w' & t & Hrun & _ & Hst & _).
  exists w', t. split; [exact Hrun | exact Hst].
Defined.

(* X28 witness: the original schema refuses a schedule that has not
   five fields. *)
Lemma execute_refused_record_rejects_witness :
  let w := initialWorld 0 brokenStore in
  let e := "Job validation failed: cronSchedule: Invalid cron schedule format "
           +:+ "(use 5 fields: minute hour day month weekday)" in
  @JobModel.validate originalDeployment brokenDoc = inl e ∧
  (@JobExecutor.executeJob cronParser quietEnvironment originalDeployment
     brokenJob "scheduler" w).1 = Throw e ∧
  store (@JobExecutor.executeJob cronParser quietEnvironment originalDeployment
           brokenJob "scheduler" w).2 = brokenStore.
Proof.
  intros w e.
  assert (@JobModel.validate originalDeployment brokenDoc = inl e) as Hv
    by (vm_compute; reflexivity).
  split; [exact Hv|].
  exact (proj2 (proj2 (@execute_refused_record_rejects cronParser quietEnvironment
                         originalDeployment brokenJob brokenDoc e w eq_refl Hv))
           "scheduler").
Defined.

(* X17 witness *)
Lemma executeJob_refused_schedule_skips_handler_witness :
  let w := initialWorld 0 lateMinuteStore in
  @JobModel.validate originalDeployment lateMinuteDoc = inr tt ∧
  @evaluateDefault cronParser (cronSchedule lateMinuteJob) (clock w)
    = inl "InvalidExpression" ∧
  ∃ w', @JobExecutor.executeJob cronParser quietEnvironment originalDeployment
          lateMinuteJob "scheduler" w = (Ok tt, w') ∧
        clock w' = 10.
Proof.
  intros w.
  assert (@JobModel.validate originalDeployment lateMinuteDoc = inr tt) as Hv
    by reflexivity.
  assert (@evaluateDefault cronParser (cronSchedule lateMinuteJob) (clock w)
            = inl "InvalidExpression") as Heval by (vm_compute; reflexivity).
  split_and!; [exact Hv | exact Heval |].
  destruct (@executeJob_refused_schedule_skips_handler cronParser quietEnvironment
              originalDeployment lateMinuteJob lateMinuteDoc "InvalidExpression"
              "scheduler" w eq_refl Hv Heval) as (w' & Hrun & _ & Hck & _).
  exists w'. split; [exact Hrun | exact Hck].
Defined.

(* X18 witness *)
Lemma executeJob_success_reschedules_witness :
  let w := initialWorld 0 emailStore in
  @JobModel.validate originalDeployment emailDoc = inr tt ∧
  @evaluateDefault cronParser (cronSchedule emailJob) (clock w) = inr 300000 ∧
  ∃ w' t u,
    @JobExecutor.executeJob cronParser quietEnvironment originalDeployment
      emailJob "scheduler" w = (Ok tt, w') ∧
    store w' !! "j1" =
      Some (mkJobDoc "A" "Every five minutes" "*/5 * * * *" "email" active
                     (Some t) (Some 300000) u).
Proof.
  intros w.
  assert (@JobModel.validate originalDeployment emailDoc = inr tt) as Hv
    by reflexivity.
  assert (@evaluateDefault cronParser (cronSchedule emailJob) (clock w) = inr 300000)
    as Heval by (vm_compute; reflexivity).
  split_and!; [exact Hv | exact Heval |].
  destruct (@executeJob_success_reschedules cronParser quietEnvironment
              originalDeployment emailJob emailDoc 300000 "scheduler" w
              eq_refl Hv Heval (λ _ _ _ _, eq_refl)) as (w' & t & u & Hrun & _ & Hst).
  exists w', t, u. split; [exact Hrun | exact Hst].
Defined.

(* X19 witness *)
Lemma failed_job_leaves_schedule_witness :
  scheduledTasks registeredWorld !! "j1" = Some 0%nat ∧
  @JobModel.validate correctedDeployment emailDoc = inr tt ∧
  ∃ w1 w2,
    @JobExecutor.execute cronParser failingEnvironment correctedDeployment emailJob
      registeredWorld = (Ok tt, w1) ∧
    @SchedulerManager.discoverAndScheduleJobs cronParser permissiveNodeCron
      failingEnvironment correctedDeployment w1 = (Ok tt, w2) ∧
    scheduledTasks w2 !! "j1" = None.
Proof.
  assert (scheduledTasks registeredWorld !! _id emailJob = Some 0%nat) as Hreg
    by (vm_compute; reflexivity).
  assert (@JobModel.validate correctedDeployment emailDoc = inr tt) as Hv
    by reflexivity.
  split_and!; [exact Hreg | exact Hv |].
  destruct (@failed_job_leaves_schedule cronParser permissiveNodeCron
              failingEnvironment correctedDeployment emailJob emailDoc
              "handler failed" 0 registeredWorld consistent_registeredWorld Hreg
              eq_refl Hv eq_refl) as (w1 & w2 & Hrun1 & Hrun2 & _ & _ & Hgone & _).
  exists w1, w2. split_and!; [exact Hrun1 | exact Hrun2 | exact Hgone].
Defined.

(* X20 witness *)
Lemma deleted_job_scheduled_until_discovery_witness :
  scheduledTasks registeredWorld !! "j1" = Some 0%nat ∧
  store registeredWorld !! "j1" = Some emailDoc ∧
  ∃ w1 w2,
    @JobRepository.delete quietEnvironment "j1" registeredWorld
      = (Ok (mkJob "j1" emailDoc), w1) ∧
    liveCount "j1" w1 = 1%nat ∧
    @SchedulerManager.discoverAndScheduleJobs cronParser permissiveNodeCron
      quietEnvironment correctedDeployment w1 = (Ok tt, w2) ∧
    liveCount "j1" w2 = 0%nat.
Proof.
  assert (scheduledTasks registeredWorld !! "j1" = Some 0%nat) as Hreg
    by (vm_compute; reflexivity).
  assert (store registeredWorld !! "j1" = Some emailDoc) as Hd
    by (vm_compute; reflexivity).
  split_and!; [exact Hreg | exact Hd |].
  destruct (@deleted_job_scheduled_until_discovery cronParser permissiveNodeCron
              quietEnvironment correctedDeployment "j1" emailDoc 0 registeredWorld
              consistent_registeredWorld Hreg Hd)
    as (w1 & w2 & w3 & Hrun1 & _ & _ & Hlive1 & Hrun2 & _ & Hlive2 & _).
  exists w1, w2. split_and!; [exact Hrun1 | exact Hlive1 | exact Hrun2 | exact Hlive2].
Defined.

(* X21 witness *)
Lemma completeAndStop_stops_at_next_discovery_witness :
  scheduledTasks registeredWorld !! "j1" = Some 0%nat ∧
  store registeredWorld !! "j1" = Some emailDoc ∧
  @JobModel.validate originalDeployment emailDoc = inr tt ∧
  ∃ r w1 w2,
    @JobModel.completeAndStop quietEnvironment originalDeployment emailJob
      registeredWorld = (Ok r, w1) ∧
    liveCount "j1" w1 = 1%nat ∧
    @SchedulerManager.discoverAndScheduleJobs cronParser permissiveNodeCron
      quietEnvironment originalDeployment w1 = (Ok tt, w2) ∧
    liveCount "j1" w2 = 0%nat.
Proof.
  assert (scheduledTasks registeredWorld !! _id emailJob = Some 0%nat) as Hreg
    by (vm_compute; reflexivity).
  assert (store registeredWorld !! _id emailJob = Some (fields emailJob)) as Hd
    by (vm_compute; reflexivity).
  assert (@JobModel.validate originalDeployment emailJob = inr tt) as Hv
    by reflexivity.
  split_and!; [exact Hreg | exact Hd | exact Hv |].
  destruct (@completeAndStop_stops_at_next_discovery cronParser permissiveNodeCron
              quietEnvironment originalDeployment emailJob 0 registeredWorld
              consistent_registeredWorld Hreg Hd Hv)
    as (r & w1 & w2 & t & Hrun1 & _ & _ & _ & Hlive1 & Hrun2 & _ & Hlive2).
  exists r, w1, w2. split_and!; [exact Hrun1 | exact Hlive1 | exact Hrun2 | exact Hlive2].
Defined.

(* X22 witness *)
Lemma getJob_missing_record_answers_500_witness :
  "j7" ≠ "" ∧
  ∃ sv', @Http.getJob quietEnvironment (Some "j7")
           (Http.mkServer (initialWorld 0 emailStore) Http.freshRes [])
           = (Ok tt, sv') ∧
         Http.res sv' = Http.mkRes 500 (Some (Http.ErrorBody "Failed to get job")).
Proof.
  assert ("j7" ≠ "") as Hid by discriminate.
  split; [exact Hid|].
  destruct (proj1 (proj2 (@getJob_missing_record_answers_500 quietEnvironment
                            "j7" (initialWorld 0 emailStore) [] Hid)) eq_refl)
    as (sv' & Hrun & Hres & _).
  exists sv'. split; [exact Hrun | exact Hres].
Defined.

(* X24 witness *)
Lemma createJob_schedules_created_job_witness :
  let w := initialWorld 0 ∅ in
  let sv' := (@Http.createJob cronParser permissiveNodeCron quietEnvironment
                correctedDeployment permissiveMongoose emailPayload
                (Http.mkServer w Http.freshRes [])).2 in
  let created :=
    mkJob "j9" (mkJobDoc "A" "Every five minutes" "*/5 * * * *" "email" active
                         None (Some 300000) 0) in
  isShuttingDown w = false ∧
  Http.res sv' = Http.mkRes 201 (Some (Http.JobBody created)) ∧
  liveCount "j9" (Http.core sv') = 1%nat.
Proof.
  intros w sv' created.
  assert (isShuttingDown w = false) as Hflag by reflexivity.
  assert (Http.res sv' = Http.mkRes 201 (Some (Http.JobBody created))) as Hres
    by (vm_compute; reflexivity).
  assert (@Http.createJob cronParser permissiveNodeCron quietEnvironment
            correctedDeployment permissiveMongoose emailPayload
            (Http.mkServer w Http.freshRes []) = (Ok tt, sv')) as Hrun
    by (vm_compute; reflexivity).
  split_and!; [exact Hflag | exact Hres |].
  destruct (@createJob_schedules_created_job cronParser permissiveNodeCron
              quietEnvironment correctedDeployment permissiveMongoose emailPayload
              created w [] sv' (consistent_initial 0 ∅) Hflag Hrun Hres)
    as (_ & _ & Hactive & _).
  exact (proj2 (Hactive eq_refl (validation_everyFiveMinutes _))).
Defined.

(* X25 witness *)
Lemma shim_value_lives_until_ttl_witness :
  0 < 300 ∧ 300 * 1000 ≤ 2147483647 ∧
  let s1 := (RedisShim.fallbackSet "job:1" (JsString "cached") (JsNumber 300)
               RedisShim.initial).2 in
  (RedisShim.fallbackGet "job:1" (RedisShim.elapse 299999 s1)).1 = JsString "cached" ∧
  (RedisShim.fallbackGet "job:1" (RedisShim.elapse 300000 s1)).1 = JsNull.
Proof.
  assert (0 < 300) as Hpos by lia.
  assert (300 * 1000 ≤ 2147483647) as Hmax by lia.
  split_and!; [exact Hpos | exact Hmax |].
  intros s1.
  destruct (shim_value_lives_until_ttl [] "job:1" (JsString "cached") 300 Hpos Hmax)
    as (_ & _ & Hlive & Hdead).
  split.
  - apply (Hlive 299999%N). lia.
  - apply (Hdead 300000%N). lia.
Defined.

(* X26 witness *)
Lemma shim_set_without_ttl_cancels_expiry_witness :
  RedisShim.positiveNumber JsUndefined = None ∧
  let s := RedisShim.run [RedisShim.CallSet "job:1" (JsString "old") (JsNumber 300)]
             RedisShim.initial in
  let s1 := (RedisShim.fallbackSet "job:1" (JsString "new") JsUndefined s).2 in
  (RedisShim.fallbackGet "job:1" (RedisShim.elapse 300000 s1)).1 = JsString "new".
Proof.
  assert (RedisShim.positiveNumber JsUndefined = None) as Hno by reflexivity.
  split; [exact Hno|]. intros s s1.
  exact (proj1 (proj2 (shim_set_without_ttl_cancels_expiry
           [RedisShim.CallSet "job:1" (JsString "old") (JsNumber 300)]
           "job:1" (JsString "new") JsUndefined Hno) 300000%N)).
Defined.

